(** * Tabify-AI: sanitizer and playback engine

    A shallow embedding of
      - [src/types.ts]                 (data model, tuning table),
      - the transcription service      (the sanitizing pass of
                                        [generateGuitarTabFromAudio] and
                                        the handler around it),
      - [src/components/TabRenderer.tsx] (playback controller, scheduler,
                                        playhead tick, the drawn measure,
                                        string labels, the tablature
                                        download),
      - [src/App.tsx]                  ([processAudio], the render gate
                                        and the timer text),
    followed by the properties of the playback synchronization engine.

    Conventions of the embedding.
      - A JavaScript number is an exact rational ([Q]) or [NaN]; rounding to
        IEEE doubles, the infinities and the sign of zero are not modelled.
        Frequencies, which need [2^(n/12)], are read in [R], and the
        value handed to an audio parameter is tested against the range of
        a float. What is proved of the times of a session is stated for
        tempos, clock readings, positions and frets in a range
        ([steady], [horizon], [max_fret]) in which the doubles of the
        engine stay finite, and speaks of their order and sign, which
        rounding keeps, not of equalities between sums.
      - A string is a [string] of 8-bit code units.
      - An object used as a record or map is an association list of its own
        properties. The names the code reads from a parsed reply are never
        inherited ones; the name under which [TUNING_FREQS] is read comes
        from the data and may be one ([inherited]).
      - [Number::toString] and [StringToNumber] of ECMAScript are not
        re-implemented: the development is parametric in them
        ([Builtins]). *)

From Stdlib Require Import ZArith QArith Qround Bool List String Ascii Lia.
From Stdlib Require Import DecimalString DecimalNat Sorted Permutation.
From Stdlib Require Import Reals Lra Qreals Qpower.
From Stdlib Require RMicromega.
Import ListNotations.

Local Open Scope string_scope.
Local Open Scope list_scope.
Local Open Scope Z_scope.
Set Warnings "-register-all".

(* ================================================================== *)
(** ** JavaScript values and the operations the code uses              *)
(* ================================================================== *)

Module Js.

(** Numbers. *)
Inductive number :=
| NaN
| Num (q : Q).

Definition num_of_Z (z : Z) : number := Num (inject_Z z).

(** [Math.round]: the nearest integer, halves going up. *)
Definition round_Q (q : Q) : Z := Qfloor (q + (1 # 2)).

Definition Math_round (x : number) : number :=
  match x with
  | NaN => NaN
  | Num q => num_of_Z (round_Q q)
  end.

Definition Math_max (x y : number) : number :=
  match x, y with
  | Num a, Num b => if Qle_bool a b then Num b else Num a
  | _, _ => NaN
  end.

Definition Math_min (x y : number) : number :=
  match x, y with
  | Num a, Num b => if Qle_bool a b then Num a else Num b
  | _, _ => NaN
  end.

Definition sub (x y : number) : number :=
  match x, y with
  | Num a, Num b => Num (a - b)
  | _, _ => NaN
  end.

(** [x >= 0] and [x > 0]; a comparison with [NaN] is false. *)
Definition ge0 (x : number) : bool :=
  match x with
  | NaN => false
  | Num q => Qle_bool 0 q
  end.

Definition gt0 (x : number) : bool :=
  match x with
  | NaN => false
  | Num q => negb (Qle_bool q 0)
  end.

(** Exceptions. The service throws [TranscriptionError] with a code; the
    language throws [TypeError] (reading a property of [null], calling
    something that is not a function, a non-finite audio parameter);
    the audio API throws [RangeError] for a negative time. *)
Inductive ErrorCode :=
| SAFETY | EMPTY_RESPONSE | PARSE_ERROR | INVALID_STRUCTURE
| QUOTA | AUTH | NETWORK | UNKNOWN.

Inductive exn :=
| TranscriptionError (code : ErrorCode)
| TypeError
| RangeError.

Inductive result (A : Type) :=
| Ret (a : A)
| Throw (e : exn).
Arguments Ret {A} a.
Arguments Throw {A} e.

Definition bind {A B} (m : result A) (k : A -> result B) : result B :=
  match m with
  | Ret a => k a
  | Throw e => Throw e
  end.

Fixpoint mapM {A B} (f : A -> result B) (l : list A) : result (list B) :=
  match l with
  | [] => Ret []
  | x :: r =>
      bind (f x) (fun y => bind (mapM f r) (fun ys => Ret (y :: ys)))
  end.

Fixpoint filterM {A} (f : A -> result bool) (l : list A) : result (list A) :=
  match l with
  | [] => Ret []
  | x :: r =>
      bind (f x) (fun b =>
      bind (filterM f r) (fun ys => Ret (if b then x :: ys else ys)))
  end.

(** [Array.prototype.sort] with a comparator. The language fixes the
    result for a consistent comparator (the sort is stable); insertion
    from the right computes it. *)
Section Sort.
Context {A : Type} (cmp : A -> A -> number).

Fixpoint insert_sorted (x : A) (l : list A) : list A :=
  match l with
  | [] => [x]
  | y :: r => if gt0 (cmp x y) then y :: insert_sorted x r else x :: l
  end.

Definition Array_sort (l : list A) : list A :=
  fold_right insert_sorted [] l.
End Sort.

(** The comparator [(a, b) => key(a) - key(b)] and the order it sorts by. *)
Definition by_key {A} (key : A -> Q) (a b : A) : number := Num (key a - key b).

Definition key_le {A} (key : A -> Q) (a b : A) : Prop := (key a <= key b)%Q.

(** Values: what [JSON.parse] returns, [undefined], and arrays that
    carry named properties besides their elements (an assignment
    [a.measures = []] on an array creates one). *)
Inductive value :=
| VUndefined
| VNull
| VBool (b : bool)
| VNum (n : number)
| VStr (s : string)
| VArr (elems : list value) (props : list (string * value))
| VObj (props : list (string * value)).

Definition truthy (v : value) : bool :=
  match v with
  | VUndefined | VNull => false
  | VBool b => b
  | VNum NaN => false
  | VNum (Num q) => negb (Qeq_bool q 0)
  | VStr s => negb (String.eqb s "")
  | VArr _ _ | VObj _ => true
  end.

Definition isArray (v : value) : bool :=
  match v with VArr _ _ => true | _ => false end.

Definition typeof_number (v : value) : bool :=
  match v with VNum _ => true | _ => false end.

Fixpoint lookup (k : string) (ps : list (string * value)) : value :=
  match ps with
  | [] => VUndefined
  | (k', v) :: r => if String.eqb k k' then v else lookup k r
  end.

Fixpoint has (k : string) (ps : list (string * value)) : bool :=
  match ps with
  | [] => false
  | (k', _) :: r => String.eqb k k' || has k r
  end.

(** Writing a property keeps its place when it exists and appends it
    otherwise. *)
Fixpoint put (k : string) (x : value) (ps : list (string * value))
  : list (string * value) :=
  match ps with
  | [] => [(k, x)]
  | (k', v) :: r => if String.eqb k k' then (k, x) :: r else (k', v) :: put k x r
  end.

(** [v.k] for the names the sanitizer reads (none is inherited, none is
    an index). *)
Definition Get (v : value) (k : string) : result value :=
  match v with
  | VUndefined | VNull => Throw TypeError
  | VObj ps | VArr _ ps => Ret (lookup k ps)
  | VBool _ | VNum _ | VStr _ => Ret VUndefined
  end.

(** [v.k = x] in strict code (the service is an ES module). *)
Definition Set_ (v : value) (k : string) (x : value) : result value :=
  match v with
  | VObj ps => Ret (VObj (put k x ps))
  | VArr l ps => Ret (VArr l (put k x ps))
  | _ => Throw TypeError
  end.

(** The names every plain object inherits from [Object.prototype]. Read
    from an object that has no property of its own under the name, each
    gives a function, and [__proto__] gives the prototype itself: a value
    that is truthy and has no element at any index. *)
Definition Object_prototype : list string :=
  [ "constructor"; "__defineGetter__"; "__defineSetter__"; "hasOwnProperty";
    "__lookupGetter__"; "__lookupSetter__"; "isPrototypeOf";
    "propertyIsEnumerable"; "toString"; "valueOf"; "__proto__";
    "toLocaleString" ].

Definition inherited (k : string) : bool :=
  existsb (String.eqb k) Object_prototype.

Definition index_key (i : nat) : string :=
  NilEmpty.string_of_uint (Nat.to_uint i).

Fixpoint indexed (i : nat) (l : list value) : list (string * value) :=
  match l with
  | [] => []
  | x :: r => (index_key i, x) :: indexed (S i) r
  end.

Fixpoint chars (s : string) : list value :=
  match s with
  | EmptyString => []
  | String c r => VStr (String c EmptyString) :: chars r
  end.

(** Own enumerable properties copied by [{...v}]. *)
Definition spread (v : value) : list (string * value) :=
  match v with
  | VObj ps => ps
  | VArr l ps => indexed 0 l ++ ps
  | VStr s => indexed 0 (chars s)
  | _ => []
  end.

(** The two conversions between text and numbers that the language
    defines and this development takes as given. *)
Class Builtins := {
  NumberToString : Q -> string;
  StringToNumber : string -> number
}.

Section Coercions.
Context {B : Builtins}.

(** [ToString]. A parsed object has data properties only, so an own
    [toString] is not callable and the conversion throws; otherwise the
    inherited method answers. *)
Fixpoint ToString (v : value) : result string :=
  match v with
  | VUndefined => Ret "undefined"
  | VNull => Ret "null"
  | VBool true => Ret "true"
  | VBool false => Ret "false"
  | VNum NaN => Ret "NaN"
  | VNum (Num q) => Ret (NumberToString q)
  | VStr s => Ret s
  | VObj ps =>
      if has "toString" ps then Throw TypeError else Ret "[object Object]"
  | VArr l ps =>
      if has "toString" ps then Throw TypeError
      else if has "join" ps then Ret "[object Array]"
      else
        (fix join (l : list value) : result string :=
           match l with
           | [] => Ret ""
           | x :: r =>
               bind (match x with
                     | VUndefined | VNull => Ret ""
                     | _ => ToString x
                     end) (fun s =>
               match r with
               | [] => Ret s
               | _ => bind (join r) (fun t => Ret (s ++ "," ++ t)%string)
               end)
           end) l
  end.

(** [ToNumber]; for an object, [valueOf] never yields a primitive and
    the conversion goes through [toString]. *)
Definition ToNumber (v : value) : result number :=
  match v with
  | VUndefined => Ret NaN
  | VNull => Ret (Num 0)
  | VBool true => Ret (Num 1)
  | VBool false => Ret (Num 0)
  | VNum n => Ret n
  | VStr s => Ret (StringToNumber s)
  | VArr _ _ | VObj _ => bind (ToString v) (fun s => Ret (StringToNumber s))
  end.

(** [v?.toString()]. *)
Definition opt_toString (v : value) : result value :=
  match v with
  | VUndefined | VNull => Ret VUndefined
  | _ => bind (ToString v) (fun s => Ret (VStr s))
  end.
End Coercions.

(** [parseInt(s)] with no radix: leading white space, a sign, an
    optional [0x]/[0X] prefix, then the longest run of digits of the
    radix; [None] is [NaN]. *)
Definition is_white_space (c : ascii) : bool :=
  let n := nat_of_ascii c in
  (Nat.eqb n 9 || Nat.eqb n 10 || Nat.eqb n 11 || Nat.eqb n 12
   || Nat.eqb n 13 || Nat.eqb n 32 || Nat.eqb n 160)%bool.

Fixpoint trimStart (s : string) : string :=
  match s with
  | EmptyString => EmptyString
  | String c r => if is_white_space c then trimStart r else s
  end.

Definition digit_value (c : ascii) : option Z :=
  let n := Z.of_nat (nat_of_ascii c) in
  if (48 <=? n) && (n <=? 57) then Some (n - 48)
  else if (97 <=? n) && (n <=? 122) then Some (n - 87)
  else if (65 <=? n) && (n <=? 90) then Some (n - 55)
  else None.

Definition radix_digit (R : Z) (c : ascii) : option Z :=
  match digit_value c with
  | Some d => if d <? R then Some d else None
  | None => None
  end.

Fixpoint read_digits (R : Z) (s : string) (acc : option Z) : option Z :=
  match s with
  | EmptyString => acc
  | String c r =>
      match radix_digit R c with
      | Some d =>
          read_digits R r
            (Some (match acc with Some a => a * R + d | None => d end))
      | None => acc
      end
  end.

Definition strip_sign (s : string) : Z * string :=
  match s with
  | String "-" r => (-1, r)
  | String "+" r => (1, r)
  | _ => (1, s)
  end.

Definition strip_prefix (s : string) : Z * string :=
  match s with
  | String "0" (String "x" r) => (16, r)
  | String "0" (String "X" r) => (16, r)
  | _ => (10, s)
  end.

Definition parseInt (s : string) : option Z :=
  let '(sign, s1) := strip_sign (trimStart s) in
  let '(R, s2) := strip_prefix s1 in
  match read_digits R s2 None with
  | None => None
  | Some m => Some (sign * m)
  end.

End Js.

(* ================================================================== *)
(** ** The transcription service: deep validation and sanitization     *)
(* ================================================================== *)

Module GeminiService.
Import Js.

Section Sanitizer.
Context {B : Builtins}.

(** The filter predicate
    [n => n && typeof n.string === 'number' && n.position >= 0]. *)
Definition keep_note (n : value) : result bool :=
  if negb (truthy n) then Ret false
  else
    bind (Get n "string") (fun s =>
    if negb (typeof_number s) then Ret false
    else
      bind (Get n "position") (fun p =>
      bind (ToNumber p) (fun x => Ret (ge0 x)))).

Definition clamp (lo hi : Z) (x : number) : number :=
  Math_min (Math_max (num_of_Z lo) (Math_round x)) (num_of_Z hi).

(** The map function: the note's own properties, with [string],
    [position] and [fret] rewritten. *)
Definition fix_note (note : value) : result value :=
  bind (Get note "string") (fun s =>
  bind (ToNumber s) (fun sn =>
  bind (Get note "position") (fun p =>
  bind (ToNumber p) (fun pn =>
  bind (Get note "fret") (fun f =>
  bind (opt_toString f) (fun ft =>
  Ret (VObj
         (put "fret" (if truthy ft then ft else VStr "0")
         (put "position" (VNum (clamp 0 15 pn))
         (put "string" (VNum (clamp 1 6 sn))
         (spread note))))))))))).

(** The comparator [(a, b) => a.position - b.position] on the mapped
    notes, whose [position] is a number. *)
Definition position_of (v : value) : number :=
  match v with
  | VObj ps => match lookup "position" ps with VNum n => n | _ => NaN end
  | _ => NaN
  end.

Definition by_position (a b : value) : number :=
  sub (position_of a) (position_of b).

Definition sanitize_notes (notes : list value) : result (list value) :=
  bind (filterM keep_note notes) (fun kept =>
  bind (mapM fix_note kept) (fun mapped =>
  Ret (Array_sort by_position mapped))).

(** Body of [section.measures.forEach(measure => ...)]. *)
Definition sanitize_measure (measure : value) : result value :=
  bind (Get measure "notes") (fun n0 =>
  bind (if truthy n0 then Ret measure
        else Set_ measure "notes" (VArr [] [])) (fun measure =>
  bind (Get measure "chords") (fun c0 =>
  bind (if truthy c0 then Ret measure
        else Set_ measure "chords" (VArr [] [])) (fun measure =>
  bind (Get measure "notes") (fun notes =>
  match notes with
  | VArr l ps =>
      if has "filter" ps then Throw TypeError
      else bind (sanitize_notes l) (fun l' =>
           Set_ measure "notes" (VArr l' []))
  | _ => Throw TypeError
  end))))).

(** Body of [parsed.sections.forEach(section => ...)]. *)
Definition sanitize_section (section : value) : result value :=
  bind (Get section "measures") (fun m0 =>
  bind (if truthy m0 then Ret section
        else Set_ section "measures" (VArr [] [])) (fun section =>
  bind (Get section "measures") (fun ms =>
  match ms with
  | VArr l ps =>
      if has "forEach" ps then Throw TypeError
      else bind (mapM sanitize_measure l) (fun l' =>
           Set_ section "measures" (VArr l' ps))
  | _ => Throw TypeError
  end))).

(** The pass from the structural check to [return parsed]. The parsed
    tree has no sharing, so the updates in place are written as
    rebuilding. A [TypeError] raised here is caught by the enclosing
    handler and thrown again as a [TranscriptionError] whose code is
    taken from the message and is never [INVALID_STRUCTURE]. *)
Definition sanitize (parsed : value) : result value :=
  bind (Get parsed "sections") (fun secs =>
  if negb (truthy secs) || negb (isArray secs)
  then Throw (TranscriptionError INVALID_STRUCTURE)
  else
    match secs with
    | VArr l ps =>
        if has "forEach" ps then Throw TypeError
        else bind (mapM sanitize_section l) (fun l' =>
             Set_ parsed "sections" (VArr l' ps))
    | _ => Throw TypeError
    end).
End Sanitizer.

End GeminiService.

(* ================================================================== *)
(** ** geminiService.ts: the handler around the request                *)
(* ================================================================== *)

Module Catch.
Import Js.

(** What reaches [catch (error: any)]: an instance of
    [TranscriptionError], thrown inside the [try] with its code, or any
    other value. *)
Inductive thrown :=
| Transcription (code : ErrorCode)
| Other (error : value).

(** [String.prototype.toLowerCase], code unit by code unit: the letters
    A to Z and the capital letters of Latin-1 (U+00C0 to U+00DE but for
    the multiplication sign). *)
Definition lower (c : ascii) : ascii :=
  let n := nat_of_ascii c in
  if ((Nat.leb 65 n && Nat.leb n 90)
      || (Nat.leb 192 n && Nat.leb n 214)
      || (Nat.leb 216 n && Nat.leb n 222))%bool
  then ascii_of_nat (n + 32) else c.

Fixpoint toLowerCase (s : string) : string :=
  match s with
  | EmptyString => EmptyString
  | String c r => String (lower c) (toLowerCase r)
  end.

(** [s.includes(t)]. *)
Fixpoint includes (s t : string) : bool :=
  (prefix t s
   || match s with
      | EmptyString => false
      | String _ r => includes r t
      end)%bool.

(** The tests on [errorMsg], in their order. *)
Definition code_of (errorMsg : string) : ErrorCode :=
  if (includes errorMsg "429" || includes errorMsg "quota")%bool then QUOTA
  else if (includes errorMsg "403" || includes errorMsg "permission")%bool then AUTH
  else if (includes errorMsg "network" || includes errorMsg "fetch")%bool then NETWORK
  else UNKNOWN.

(** The [catch] block: what it throws. [error.message?.toLowerCase() || ""]
    throws in turn when [error] is [null] or [undefined], and when the
    message is neither missing nor a text (it has no [toLowerCase] to
    call). *)
Definition catch_block (error : thrown) : exn :=
  match error with
  | Transcription code => TranscriptionError code
  | Other error =>
      match Get error "message" with
      | Throw e => e
      | Ret VUndefined | Ret VNull => TranscriptionError (code_of "")
      | Ret (VStr message) => TranscriptionError (code_of (toLowerCase message))
      | Ret _ => TypeError
      end
  end.

Section Service.
Context {B : Builtins}.
(** The message an engine gives the [Error] object of an exception of
    the language. *)
Variable message_of : exn -> string.

(** An exception as the value the handler receives. *)
Definition as_thrown (e : exn) : thrown :=
  match e with
  | TranscriptionError code => Transcription code
  | _ => Other (VObj [("message", VStr (message_of e))])
  end.

(** [generateGuitarTabFromAudio] from the parsed reply on: the pass
    inside the [try], and the handler around it. *)
Definition sanitized_or_reported (parsed : value) : result value :=
  match GeminiService.sanitize parsed with
  | Ret tabData => Ret tabData
  | Throw e => Throw (catch_block (as_thrown e))
  end.
End Service.

End Catch.

(* ================================================================== *)
(** ** App: processing a recording and the render gate                 *)
(* ================================================================== *)

Module App.
Import Js.

Inductive AppState := IDLE | RECORDING | PROCESSING | RESULT | ERROR.

(** Of [errorDetails], the code. *)
Record t := {
  state : AppState;
  result : option value;
  errorDetails : option ErrorCode
}.

(** The application before any recording. *)
Definition start : t := {| state := IDLE; result := None; errorDetails := None |}.

(** [err.code || 'UNKNOWN'] in the handler of [processAudio]: an
    exception that is no [TranscriptionError] has no code. *)
Definition code_shown (err : exn) : ErrorCode :=
  match err with
  | TranscriptionError code => code
  | _ => UNKNOWN
  end.

Section Process.
Context {B : Builtins}.
(** The message an engine gives the [Error] object of an exception of
    the language. *)
Variable message_of : exn -> string.

(** [processAudio], once the request has settled on the parsed reply
    [raw]: the rest of [generateGuitarTabFromAudio], its handler
    included, then the handler of [processAudio] itself. *)
Definition processAudio (raw : value) (a : t) : t :=
  match Catch.sanitized_or_reported message_of raw with
  | Ret tabData =>
      {| state := RESULT; result := Some tabData; errorDetails := None |}
  | Throw err =>
      {| state := ERROR; result := result a;
         errorDetails := Some (code_shown err) |}
  end.
End Process.

(** [{state === AppState.RESULT && result && <TabRenderer data={result} />}]:
    the data the renderer is mounted with, if it is mounted. Playback can
    only be started from a mounted renderer. *)
Definition rendered (a : t) : option value :=
  match state a with
  | RESULT => result a
  | _ => None
  end.

End App.

(* ================================================================== *)
(** ** App.tsx: the recording timer                                    *)
(* ================================================================== *)

Module Recorder.

(** The decimal digits of a whole number that is not negative, as a
    template literal and [toString] write it. *)
Definition decimal (n : nat) : string := NilEmpty.string_of_uint (Nat.to_uint n).

Fixpoint zeros (k : nat) : string :=
  match k with
  | O => EmptyString
  | S k' => String "0" (zeros k')
  end.

(** [s.padStart(targetLength, '0')]. *)
Definition padStart (targetLength : nat) (s : string) : string :=
  (zeros (targetLength - String.length s) ++ s)%string.

(** [formatTime(seconds)], for the whole seconds the timer counts. *)
Definition formatTime (seconds : nat) : string :=
  let mins := (seconds / 60)%nat in
  let secs := (seconds mod 60)%nat in
  (decimal mins ++ ":" ++ padStart 2 (decimal secs))%string.

End Recorder.

(* ================================================================== *)
(** ** types.ts                                                        *)
(* ================================================================== *)

Module Types.

(** [fret: string | number]. *)
Inductive Fret :=
| FretText (s : string)
| FretNumber (q : Q).

Record TabNote := {
  note_string : Q;
  note_fret : Fret;
  note_position : Q;
  note_confidence : option Q
}.

Record TabMeasure := {
  chords : list string;
  notes : list TabNote
}.

Record TabSection := {
  title : string;
  measures : list TabMeasure
}.

Record GuitarTabResult := {
  songTitle : string;
  artist : option string;
  key : option string;
  tempo : option Q;
  tuning : option string;
  sections : list TabSection;
  rawAscii : option string
}.

(** Frequencies of the open strings, string 6 to string 1. *)
Definition TUNING_FREQS : list (string * list Q) :=
  [ ("E Standard", [82.41; 110.00; 146.83; 196.00; 246.94; 329.63]);
    ("Drop D",     [73.42; 110.00; 146.83; 196.00; 246.94; 329.63]);
    ("D Standard", [73.42; 98.00; 130.81; 174.61; 220.00; 293.66]);
    ("Open G",     [73.42; 98.00; 146.83; 196.00; 246.94; 293.66]);
    ("DADGAD",     [73.42; 110.00; 146.83; 196.00; 220.00; 293.66]) ]%Q.

Fixpoint assoc {A} (k : string) (l : list (string * A)) : option A :=
  match l with
  | [] => None
  | (k', v) :: r => if String.eqb k k' then Some v else assoc k r
  end.

End Types.

(* ================================================================== *)
(** ** TabRenderer.tsx: the playback engine                            *)
(* ================================================================== *)

Module TabRenderer.
Import Js Types.

(** *** The page: audio element, oscillator nodes, frame callbacks *)

(** The [HTMLAudioElement] of the original recording. [playing] is the
    element being potentially playing: not paused, not ended, no error. *)
Record Audio := {
  playing : bool;
  currentTime : Q
}.

(** What an oscillator node sounds: a metronome click at a fixed pitch,
    or a fretted tone kept as open-string frequency and fret number (its
    frequency in Hz is [hertz] below). *)
Inductive Voice :=
| Click (hz : Q)
| Tone (baseFreq : Q) (fretNum : Z).

Inductive OscillatorType := sine | triangle.

Definition voice_type (v : Voice) : OscillatorType :=
  match v with Click _ => sine | Tone _ _ => triangle end.

(** Gain automation after the onset: peak level, end of the linear
    attack, end of the exponential decay (to 0.001). *)
Definition voice_envelope (v : Voice) : Q * Q * Q :=
  match v with
  | Click _ => (0.1, 0.005, 0.05)
  | Tone _ _ => (0.15, 0.02, 0.4)
  end%Q.

(** A started oscillator node: the context it lives in and the times
    given to [start] and to the last [stop]. *)
Record Oscillator := {
  osc_ctx : nat;
  osc_voice : Voice;
  osc_start : Q;
  osc_stop : Q
}.

Definition Qlt_bool (a b : Q) : bool := negb (Qle_bool b a).


(** [osc.stop()]: stop at time 0, that is at once. *)
Definition stop_now (o : Oscillator) : Oscillator :=
  {| osc_ctx := osc_ctx o; osc_voice := osc_voice o;
     osc_start := osc_start o; osc_stop := 0 |}.

(** The constants that one render of the component binds and that the
    functions created in that render close over. *)
Record Render := {
  r_isPlayingOriginal : bool;
  r_isPlayingSynth : bool;
  r_metronomeEnabled : bool
}.

(** *** Component state, refs and the page around them *)
#[local] Set Primitive Projections.
Record State := {
  (* useState *)
  isPlayingOriginal : bool;
  isPlayingSynth : bool;
  metronomeEnabled : bool;
  activeMeasureIdx : option Z;
  activePosIdx : option Z;
  activeSectionIdx : option Z;
  (* useRef *)
  audioRef : option Audio;
  synthContextRef : option nat;
  synthOscillators : list nat;        (* handles: positions in [nodes] *)
  synthTimeoutRefs : list nat;
  animationFrameRef : option nat;
  synthStartTimeRef : Q;
  (* the page *)
  nodes : list Oscillator;            (* every oscillator started so far *)
  contexts : nat;                     (* audio contexts created so far *)
  frames : list (nat * Render);       (* pending animation-frame callbacks,
                                         each [updatePlaybackProgress] of a render *)
  lastFrame : nat;                    (* last frame handle handed out *)
  timers : list nat;                  (* pending timeouts *)
  warnings : list string;             (* console.warn *)
  uncaught : list exn                 (* exceptions that left a handler *)
}.

#[local] Unset Primitive Projections.

Definition render_of (s : State) : Render :=
  {| r_isPlayingOriginal := isPlayingOriginal s;
     r_isPlayingSynth := isPlayingSynth s;
     r_metronomeEnabled := metronomeEnabled s |}.

(** Field updates. *)
Definition set_flags (o y : bool) (s : State) : State :=
  {| isPlayingOriginal := o; isPlayingSynth := y;
     metronomeEnabled := metronomeEnabled s;
     activeMeasureIdx := activeMeasureIdx s; activePosIdx := activePosIdx s;
     activeSectionIdx := activeSectionIdx s;
     audioRef := audioRef s; synthContextRef := synthContextRef s;
     synthOscillators := synthOscillators s;
     synthTimeoutRefs := synthTimeoutRefs s;
     animationFrameRef := animationFrameRef s;
     synthStartTimeRef := synthStartTimeRef s;
     nodes := nodes s; contexts := contexts s; frames := frames s;
     lastFrame := lastFrame s; timers := timers s;
     warnings := warnings s; uncaught := uncaught s |}.

Definition setIsPlayingOriginal (b : bool) (s : State) : State :=
  set_flags b (isPlayingSynth s) s.

Definition setIsPlayingSynth (b : bool) (s : State) : State :=
  set_flags (isPlayingOriginal s) b s.

Definition setMetronomeEnabled (b : bool) (s : State) : State :=
  {| isPlayingOriginal := isPlayingOriginal s; isPlayingSynth := isPlayingSynth s;
     metronomeEnabled := b;
     activeMeasureIdx := activeMeasureIdx s; activePosIdx := activePosIdx s;
     activeSectionIdx := activeSectionIdx s;
     audioRef := audioRef s; synthContextRef := synthContextRef s;
     synthOscillators := synthOscillators s;
     synthTimeoutRefs := synthTimeoutRefs s;
     animationFrameRef := animationFrameRef s;
     synthStartTimeRef := synthStartTimeRef s;
     nodes := nodes s; contexts := contexts s; frames := frames s;
     lastFrame := lastFrame s; timers := timers s;
     warnings := warnings s; uncaught := uncaught s |}.

(** [setActiveSectionIdx], [setActiveMeasureIdx], [setActivePosIdx]. *)
Definition set_cursor (sec mea pos : option Z) (s : State) : State :=
  {| isPlayingOriginal := isPlayingOriginal s; isPlayingSynth := isPlayingSynth s;
     metronomeEnabled := metronomeEnabled s;
     activeMeasureIdx := mea; activePosIdx := pos; activeSectionIdx := sec;
     audioRef := audioRef s; synthContextRef := synthContextRef s;
     synthOscillators := synthOscillators s;
     synthTimeoutRefs := synthTimeoutRefs s;
     animationFrameRef := animationFrameRef s;
     synthStartTimeRef := synthStartTimeRef s;
     nodes := nodes s; contexts := contexts s; frames := frames s;
     lastFrame := lastFrame s; timers := timers s;
     warnings := warnings s; uncaught := uncaught s |}.

Definition set_audio (a : option Audio) (s : State) : State :=
  {| isPlayingOriginal := isPlayingOriginal s; isPlayingSynth := isPlayingSynth s;
     metronomeEnabled := metronomeEnabled s;
     activeMeasureIdx := activeMeasureIdx s; activePosIdx := activePosIdx s;
     activeSectionIdx := activeSectionIdx s;
     audioRef := a; synthContextRef := synthContextRef s;
     synthOscillators := synthOscillators s;
     synthTimeoutRefs := synthTimeoutRefs s;
     animationFrameRef := animationFrameRef s;
     synthStartTimeRef := synthStartTimeRef s;
     nodes := nodes s; contexts := contexts s; frames := frames s;
     lastFrame := lastFrame s; timers := timers s;
     warnings := warnings s; uncaught := uncaught s |}.

(** [new AudioContext()] stored in [synthContextRef]: the context is
    named by the number of contexts created before it. *)
Definition new_AudioContext (s : State) : State :=
  {| isPlayingOriginal := isPlayingOriginal s; isPlayingSynth := isPlayingSynth s;
     metronomeEnabled := metronomeEnabled s;
     activeMeasureIdx := activeMeasureIdx s; activePosIdx := activePosIdx s;
     activeSectionIdx := activeSectionIdx s;
     audioRef := audioRef s; synthContextRef := Some (contexts s);
     synthOscillators := synthOscillators s;
     synthTimeoutRefs := synthTimeoutRefs s;
     animationFrameRef := animationFrameRef s;
     synthStartTimeRef := synthStartTimeRef s;
     nodes := nodes s; contexts := S (contexts s); frames := frames s;
     lastFrame := lastFrame s; timers := timers s;
     warnings := warnings s; uncaught := uncaught s |}.

Definition set_synthStartTimeRef (t : Q) (s : State) : State :=
  {| isPlayingOriginal := isPlayingOriginal s; isPlayingSynth := isPlayingSynth s;
     metronomeEnabled := metronomeEnabled s;
     activeMeasureIdx := activeMeasureIdx s; activePosIdx := activePosIdx s;
     activeSectionIdx := activeSectionIdx s;
     audioRef := audioRef s; synthContextRef := synthContextRef s;
     synthOscillators := synthOscillators s;
     synthTimeoutRefs := synthTimeoutRefs s;
     animationFrameRef := animationFrameRef s;
     synthStartTimeRef := t;
     nodes := nodes s; contexts := contexts s; frames := frames s;
     lastFrame := lastFrame s; timers := timers s;
     warnings := warnings s; uncaught := uncaught s |}.

(** The handles held and the nodes of the page. *)
Definition set_oscillators (handles : list nat) (ns : list Oscillator)
    (s : State) : State :=
  {| isPlayingOriginal := isPlayingOriginal s; isPlayingSynth := isPlayingSynth s;
     metronomeEnabled := metronomeEnabled s;
     activeMeasureIdx := activeMeasureIdx s; activePosIdx := activePosIdx s;
     activeSectionIdx := activeSectionIdx s;
     audioRef := audioRef s; synthContextRef := synthContextRef s;
     synthOscillators := handles;
     synthTimeoutRefs := synthTimeoutRefs s;
     animationFrameRef := animationFrameRef s;
     synthStartTimeRef := synthStartTimeRef s;
     nodes := ns; contexts := contexts s; frames := frames s;
     lastFrame := lastFrame s; timers := timers s;
     warnings := warnings s; uncaught := uncaught s |}.

Definition set_timeouts (refs pending : list nat) (s : State) : State :=
  {| isPlayingOriginal := isPlayingOriginal s; isPlayingSynth := isPlayingSynth s;
     metronomeEnabled := metronomeEnabled s;
     activeMeasureIdx := activeMeasureIdx s; activePosIdx := activePosIdx s;
     activeSectionIdx := activeSectionIdx s;
     audioRef := audioRef s; synthContextRef := synthContextRef s;
     synthOscillators := synthOscillators s;
     synthTimeoutRefs := refs;
     animationFrameRef := animationFrameRef s;
     synthStartTimeRef := synthStartTimeRef s;
     nodes := nodes s; contexts := contexts s; frames := frames s;
     lastFrame := lastFrame s; timers := pending;
     warnings := warnings s; uncaught := uncaught s |}.

Definition set_frames (ref : option nat) (fs : list (nat * Render)) (last : nat)
    (s : State) : State :=
  {| isPlayingOriginal := isPlayingOriginal s; isPlayingSynth := isPlayingSynth s;
     metronomeEnabled := metronomeEnabled s;
     activeMeasureIdx := activeMeasureIdx s; activePosIdx := activePosIdx s;
     activeSectionIdx := activeSectionIdx s;
     audioRef := audioRef s; synthContextRef := synthContextRef s;
     synthOscillators := synthOscillators s;
     synthTimeoutRefs := synthTimeoutRefs s;
     animationFrameRef := ref;
     synthStartTimeRef := synthStartTimeRef s;
     nodes := nodes s; contexts := contexts s; frames := fs;
     lastFrame := last; timers := timers s;
     warnings := warnings s; uncaught := uncaught s |}.

Definition log (w : list string) (e : list exn) (s : State) : State :=
  {| isPlayingOriginal := isPlayingOriginal s; isPlayingSynth := isPlayingSynth s;
     metronomeEnabled := metronomeEnabled s;
     activeMeasureIdx := activeMeasureIdx s; activePosIdx := activePosIdx s;
     activeSectionIdx := activeSectionIdx s;
     audioRef := audioRef s; synthContextRef := synthContextRef s;
     synthOscillators := synthOscillators s;
     synthTimeoutRefs := synthTimeoutRefs s;
     animationFrameRef := animationFrameRef s;
     synthStartTimeRef := synthStartTimeRef s;
     nodes := nodes s; contexts := contexts s; frames := frames s;
     lastFrame := lastFrame s; timers := timers s;
     warnings := warnings s ++ w; uncaught := uncaught s ++ e |}.

(** *** Page operations *)

(** [requestAnimationFrame(updatePlaybackProgress)] called from a function
    of render [r]: the callback queued is that render's
    [updatePlaybackProgress]; the handle (never 0) is stored in
    [animationFrameRef]. *)
Definition requestAnimationFrame (r : Render) (s : State) : State :=
  let id := S (lastFrame s) in
  set_frames (Some id) (frames s ++ [(id, r)]) id s.

Definition remove_frame (id : nat) (fs : list (nat * Render)) : list (nat * Render) :=
  filter (fun f => negb (Nat.eqb (fst f) id)) fs.

(** [if (animationFrameRef.current) cancelAnimationFrame(...)]. *)
Definition cancelAnimationFrame (s : State) : State :=
  match animationFrameRef s with
  | Some (S _ as id) =>
      set_frames (animationFrameRef s) (remove_frame id (frames s)) (lastFrame s) s
  | _ => s
  end.

(** [nodes[h].stop()] for each handle [h]; a handle of no node does
    nothing (the call is wrapped in [try]). *)
Fixpoint update_nth {A} (f : A -> A) (i : nat) (l : list A) : list A :=
  match l, i with
  | [], _ => []
  | x :: r, O => f x :: r
  | x :: r, S j => x :: update_nth f j r
  end.

Definition stop_handles (hs : list nat) (ns : list Oscillator) : list Oscillator :=
  fold_left (fun ns h => update_nth stop_now h ns) hs ns.

(** [clearTimeout(t)] for each handle. *)
Definition clear_timeouts (ts : list nat) (pending : list nat) : list nat :=
  filter (fun p => negb (existsb (Nat.eqb p) ts)) pending.

(** *** stopAllPlayback *)
Definition stopAllPlayback (s : State) : State :=
  let s := match audioRef s with
           | Some _ => set_audio (Some {| playing := false; currentTime := 0 |}) s
           | None => s
           end in
  let s := setIsPlayingOriginal false s in
  let s := set_oscillators [] (stop_handles (synthOscillators s) (nodes s)) s in
  let s := set_timeouts [] (clear_timeouts (synthTimeoutRefs s) (timers s)) s in
  let s := cancelAnimationFrame s in
  let s := setIsPlayingSynth false s in
  set_cursor None None None s.

(** *** The value of an audio parameter *)

(** [const frequency = baseFreq * Math.pow(2, fretNum / 12)], as a real
    number. *)
Definition frequency (baseFreq : Q) (fretNum : Z) : R :=
  (Q2R baseFreq * Rpower 2 (IZR fretNum / 12))%R.

(** [setValueAtTime(value, time)] takes [value] as a single-precision
    float: a number that is not finite, or that rounds to a float beyond
    the largest one, is refused with a [TypeError]. The numbers that round
    to a float are those of magnitude below [2^128 - 2^103]. *)
Definition float_bound : Q := inject_Z (2 ^ 128 - 2 ^ 103).

(** [frequency] is such a number; the magnitudes are compared through
    their twelfth powers, which are rational. *)
Definition is_float (baseFreq : Q) (fretNum : Z) : bool :=
  Qlt_bool (Qpower baseFreq 12 * Qpower 2 fretNum) (Qpower float_bound 12).

Section Component.
Context {B : Builtins}.
(** The [data] prop. *)
Variable data : GuitarTabResult.

(** *** The time grid *)

(** [data.tempo || 120]. *)
Definition tempo_of : Q :=
  match tempo data with
  | Some t => if Qeq_bool t 0 then 120 else t
  | None => 120
  end.

Definition secondsPerBeat : Q := 60 / tempo_of.
Definition secondsPerMeasure : Q := (60 / tempo_of) * 4.
Definition secondsPerPosition : Q := secondsPerMeasure / 16.

(** *** flatMeasures *)
Record FlatMeasure := {
  fm_measure : TabMeasure;
  sectionIdx : nat;
  measureIdx : nat;
  absoluteIdx : nat
}.

Fixpoint mapi {A C} (f : A -> nat -> C) (i : nat) (l : list A) : list C :=
  match l with
  | [] => []
  | x :: r => f x i :: mapi f (S i) r
  end.

Definition flatMeasures : list FlatMeasure :=
  mapi (fun m i =>
          {| fm_measure := fm_measure m; sectionIdx := sectionIdx m;
             measureIdx := measureIdx m; absoluteIdx := i |}) 0
    (List.concat
       (mapi (fun section sIdx =>
                mapi (fun measure mIdx =>
                        {| fm_measure := measure; sectionIdx := sIdx;
                           measureIdx := mIdx; absoluteIdx := 0 |}) 0
                  (measures section)) 0
          (sections data))).

(** [a[i]] for a number [i]: [None] is [undefined]. *)
Definition at_Z {A} (l : list A) (i : Z) : option A :=
  if i <? 0 then None else nth_error l (Z.to_nat i).

Definition at_Q {A} (l : list A) (i : Q) : option A :=
  if Qeq_bool (inject_Z (Qfloor i)) i then at_Z l (Qfloor i) else None.

(** *** updatePlaybackProgress *)

(** The callback of render [r], run when the context clock reads
    [now]. The elapsed time and its quotient by [secondsPerPosition] are
    exact here and doubles in the engine: within an ulp of the boundary
    between two positions the engine may show the neighbouring one. *)
Definition updatePlaybackProgress (r : Render) (now : Q) (s : State) : State :=
  match synthContextRef s with
  | None => s
  | Some _ =>
      if negb (r_isPlayingSynth r) then s
      else
        let elapsed := (now - synthStartTimeRef s)%Q in
        if Qlt_bool elapsed 0 then requestAnimationFrame r s
        else
          let totalPositions := Qfloor (elapsed / secondsPerPosition) in
          let absMeasureIdx := totalPositions / 16 in
          let posInMeasure := Z.rem totalPositions 16 in
          if absMeasureIdx <? Z.of_nat (List.length flatMeasures) then
            match at_Z flatMeasures absMeasureIdx with
            | Some currentFlat =>
                requestAnimationFrame r
                  (set_cursor (Some (Z.of_nat (sectionIdx currentFlat)))
                              (Some (Z.of_nat (measureIdx currentFlat)))
                              (Some posInMeasure) s)
            | None => log [] [TypeError] s
            end
          else stopAllPlayback s
  end.

(** *** toggleOriginalPlayback *)
Definition toggleOriginalPlayback (r : Render) (s : State) : State :=
  let s := if r_isPlayingSynth r then stopAllPlayback s else s in
  match audioRef s with
  | None => log ["Original audio source is missing or invalid."] [] s
  | Some a =>
      if r_isPlayingOriginal r then
        setIsPlayingOriginal false
          (set_audio (Some {| playing := false; currentTime := currentTime a |}) s)
      else
        setIsPlayingOriginal true
          (set_audio (Some {| playing := true; currentTime := currentTime a |}) s)
  end.

(** *** playSynth: the scheduler *)

(** [TUNING_FREQS[data.tuning || 'E Standard'] || TUNING_FREQS['E Standard']].
    [TUNING_FREQS] is a plain object: under a name it inherits it answers
    with a truthy value that is no table, so the table of E Standard does
    not stand in, and indexing that value gives [undefined] at every
    index, as indexing an empty list does. *)
Definition tuning_name : string :=
  match tuning data with
  | Some t => if String.eqb t "" then "E Standard" else t
  | None => "E Standard"
  end.

Definition tuningBaseFreqs : list Q :=
  match assoc tuning_name TUNING_FREQS with
  | Some l => l
  | None =>
      if inherited tuning_name then []
      else
        match assoc "E Standard" TUNING_FREQS with
        | Some l => l
        | None => []
        end
  end.

(** [note.fret.toString()]. *)
Definition fret_text (f : Fret) : string :=
  match f with
  | FretText t => t
  | FretNumber q => NumberToString q
  end.

(** The audio API rejects a negative time. *)
Definition start_node (ctx : nat) (v : Voice) (t len : Q) : result (list Oscillator) :=
  if Qlt_bool t 0 then Throw RangeError
  else Ret [ {| osc_ctx := ctx; osc_voice := v;
                osc_start := t; osc_stop := (t + len)%Q |} ].

(** One metronome click, [beat] in 0..3. *)
Definition schedule_click (ctx : nat) (measureStartTime : Q) (beat : Z)
  : result (list Oscillator) :=
  let clickTime := (measureStartTime + inject_Z beat * secondsPerBeat)%Q in
  start_node ctx (Click (if beat =? 0 then 1200 else 800)%Q) clickTime 0.06%Q.

(** Body of [sortedNotes.forEach(note => ...)]: no node for a fret that
    does not parse; an undefined open-string frequency makes the
    frequency [NaN], and a frequency that is [NaN] or no float is refused
    by [osc.frequency.setValueAtTime] with a [TypeError], before the start
    time is looked at. *)
Definition schedule_note (ctx : nat) (measureStartTime : Q) (note : TabNote)
  : result (list Oscillator) :=
  match parseInt (fret_text (note_fret note)) with
  | None => Ret []
  | Some fretNum =>
      let stringIdx := (6 - note_string note)%Q in
      let noteStartTime :=
        (measureStartTime + note_position note * secondsPerPosition)%Q in
      match at_Q tuningBaseFreqs stringIdx with
      | None => Throw TypeError
      | Some baseFreq =>
          if is_float baseFreq fretNum
          then start_node ctx (Tone baseFreq fretNum) noteStartTime 0.5%Q
          else Throw TypeError
      end
  end.

(** What a loop has started when it ends or throws. *)
Fixpoint forEach {A} (f : A -> result (list Oscillator)) (l : list A)
  : list Oscillator * option exn :=
  match l with
  | [] => ([], None)
  | x :: r =>
      match f x with
      | Throw e => ([], Some e)
      | Ret os => let '(os', e) := forEach f r in (os ++ os', e)
      end
  end.

Definition by_position (a b : TabNote) : number :=
  Num (note_position a - note_position b).

(** Body of [section.measures.forEach(measure => ...)], up to the
    advance of [measureStartTime]. *)
Definition schedule_measure (metronome : bool) (ctx : nat)
    (measureStartTime : Q) (measure : TabMeasure) : list Oscillator * option exn :=
  let '(clicks, e) :=
    if metronome then forEach (schedule_click ctx measureStartTime) [0; 1; 2; 3]
    else ([], None) in
  match e with
  | Some _ => (clicks, e)
  | None =>
      let sortedNotes := Array_sort by_position (notes measure) in
      let '(tones, e) := forEach (schedule_note ctx measureStartTime) sortedNotes in
      (clicks ++ tones, e)
  end.

(** The inner and the outer loop; the [Q] is [measureStartTime] after
    the loop, or the exception that ended it. The running sum
    [measureStartTime += secondsPerMeasure] is exact here and rounded at
    every step in the engine. *)
Fixpoint schedule_measures (metronome : bool) (ctx : nat)
    (measureStartTime : Q) (ms : list TabMeasure) : list Oscillator * result Q :=
  match ms with
  | [] => ([], Ret measureStartTime)
  | m :: r =>
      match schedule_measure metronome ctx measureStartTime m with
      | (os, Some e) => (os, Throw e)
      | (os, None) =>
          let '(os', t) :=
            schedule_measures metronome ctx
              (measureStartTime + secondsPerMeasure)%Q r in
          (os ++ os', t)
      end
  end.

Fixpoint schedule_sections (metronome : bool) (ctx : nat)
    (measureStartTime : Q) (ss : list TabSection) : list Oscillator * result Q :=
  match ss with
  | [] => ([], Ret measureStartTime)
  | sec :: r =>
      match schedule_measures metronome ctx measureStartTime (measures sec) with
      | (os, Throw e) => (os, Throw e)
      | (os, Ret t) =>
          let '(os', t') := schedule_sections metronome ctx t r in
          (os ++ os', t')
      end
  end.

(** [synthOscillators.current.push(osc)] for each started node. *)
Definition push_nodes (os : list Oscillator) (s : State) : State :=
  set_oscillators
    (synthOscillators s ++ seq (List.length (nodes s)) (List.length os))
    (nodes s ++ os) s.

(** [playSynth] of render [r]; [now] is the reading of the new
    context's clock. An exception leaves the handler before the frame
    callback is requested. *)
Definition playSynth (r : Render) (now : Q) (s : State) : State :=
  let s := if r_isPlayingOriginal r then stopAllPlayback s else s in
  if r_isPlayingSynth r then stopAllPlayback s
  else
    let ctx := contexts s in
    let s := new_AudioContext s in
    let s := setIsPlayingSynth true s in
    let startTime := (now + 0.2)%Q in
    let s := set_synthStartTimeRef startTime s in
    match schedule_sections (r_metronomeEnabled r) ctx startTime (sections data) with
    | (os, Ret _) => requestAnimationFrame r (push_nodes os s)
    | (os, Throw e) => log [] [e] (push_nodes os s)
    end.

(** *** The component as a transition system *)
Inductive Event :=
| ClickOriginal                 (* the Play/Pause Original button *)
| ClickSynth (now : Q)          (* the Synth/Stop button *)
| ClickMetronome                (* the metronome button *)
| AnimationFrame (id : nat) (now : Q)   (* the page runs a queued callback *)
| AudioEnded                    (* audio.onended *)
| AudioError                    (* audio.onerror *)
| PlayRejected                  (* the promise of audio.play() rejects *)
| AudioProgress (t : Q)         (* the recording plays on to time t *)
| Unmount.                      (* cleanup of the mount effect *)

Definition audio_stopped (s : State) : State :=
  match audioRef s with
  | Some a => set_audio (Some {| playing := false; currentTime := currentTime a |}) s
  | None => s
  end.

Definition step (ev : Event) (s : State) : State :=
  match ev with
  | ClickOriginal => toggleOriginalPlayback (render_of s) s
  | ClickSynth now => playSynth (render_of s) now s
  | ClickMetronome => setMetronomeEnabled (negb (metronomeEnabled s)) s
  | AnimationFrame id now =>
      match find (fun f => Nat.eqb (fst f) id) (frames s) with
      | Some (_, r) =>
          updatePlaybackProgress r now
            (set_frames (animationFrameRef s) (remove_frame id (frames s))
               (lastFrame s) s)
      | None => s
      end
  | AudioEnded | AudioError | PlayRejected =>
      setIsPlayingOriginal false (audio_stopped s)
  | AudioProgress t =>
      match audioRef s with
      | Some a =>
          if playing a then set_audio (Some {| playing := true; currentTime := t |}) s
          else s
      | None => s
      end
  | Unmount => stopAllPlayback s
  end.

Definition run (evs : list Event) (s : State) : State :=
  fold_left (fun s ev => step ev s) evs s.

(** The Play Original button is [disabled={!originalAudioUrl}]: with no
    recording its click is not delivered, and [toggleOriginalPlayback],
    which nothing else calls, does not run. Every other event is
    delivered as [step] has it. *)
Definition deliver (originalAudioUrl : bool) (ev : Event) (s : State) : State :=
  match ev with
  | ClickOriginal => if originalAudioUrl then step ev s else s
  | _ => step ev s
  end.

(** The component under the events the page delivers. *)
Definition play (originalAudioUrl : bool) (evs : list Event) (s : State) : State :=
  fold_left (fun s ev => deliver originalAudioUrl ev s) evs s.

End Component.

(** The component after mounting, with or without a recording. *)
Definition mounted (hasAudio : bool) : State :=
  {| isPlayingOriginal := false; isPlayingSynth := false;
     metronomeEnabled := false;
     activeMeasureIdx := None; activePosIdx := None; activeSectionIdx := None;
     audioRef := if hasAudio then Some {| playing := false; currentTime := 0 |}
                 else None;
     synthContextRef := None;
     synthOscillators := [];
     synthTimeoutRefs := [];
     animationFrameRef := None;
     synthStartTimeRef := 0;
     nodes := []; contexts := O; frames := [];
     lastFrame := O; timers := [];
     warnings := []; uncaught := [] |}.

End TabRenderer.

(* ================================================================== *)
(** ** components/TabRenderer.tsx: what is drawn                       *)
(* ================================================================== *)

Module Display.
Import Js Types TabRenderer.

(** An entry of [TUNINGS] (types.ts): the open strings are named from
    string 6 to string 1. *)
Record Tuning := {
  t_name : string;
  t_notes : list string;
  t_label : string
}.

Definition TUNINGS : list Tuning :=
  [ {| t_name := "E Standard"; t_notes := ["E"; "A"; "D"; "G"; "B"; "E"];
       t_label := "E A D G B E" |};
    {| t_name := "Drop D"; t_notes := ["D"; "A"; "D"; "G"; "B"; "E"];
       t_label := "D A D G B E" |};
    {| t_name := "D Standard"; t_notes := ["D"; "G"; "C"; "F"; "A"; "D"];
       t_label := "D G C F A D" |};
    {| t_name := "Open G"; t_notes := ["D"; "G"; "D"; "G"; "B"; "D"];
       t_label := "D G D G B D" |};
    {| t_name := "DADGAD"; t_notes := ["D"; "A"; "D"; "G"; "A"; "D"];
       t_label := "D A D G A D" |} ]%string.

(** A cell of the drawn measure. *)
Record RenderedNote := {
  fret : string;
  confidence : option Q
}.

Definition Line := list (option RenderedNote).

(** [Array(6).fill(null).map(() => Array(16).fill(null))]. *)
Definition blank : list Line := repeat (repeat None 16) 6.




Section Component.
Context {B : Builtins}.
Variable data : GuitarTabResult.

(** [TUNINGS.find(t => t.name === data.tuning) || TUNINGS[0]]. *)
Definition currentTuning : option Tuning :=
  match find (fun t => match tuning data with
                       | Some n => String.eqb (t_name t) n
                       | None => false
                       end) TUNINGS with
  | Some t => Some t
  | None => nth_error TUNINGS 0
  end.

(** [[...currentTuning.notes].reverse()]: the labels of the drawn lines,
    top line first. *)
Definition stringLabels : option (list string) :=
  option_map (fun t => rev (t_notes t)) currentTuning.

(** Body of [measure.notes.forEach(note => ...)] in [renderMeasure]. A
    string that is not whole selects no line, and reading a cell of no
    line throws. A position that is not whole selects no cell: the
    assignment then makes a property beside the sixteen cells, which is
    not drawn. *)
Definition place (note : TabNote) (stringLines : list Line) : result (list Line) :=
  let sIndex := (note_string note - 1)%Q in
  match Math_min (Math_max (Num 0) (Num (note_position note))) (Num 15) with
  | NaN => Ret stringLines
  | Num pos =>
      if Qle_bool 0 sIndex && Qlt_bool sIndex 6 then
        match at_Q stringLines sIndex with
        | None => Throw TypeError
        | Some line =>
            match at_Q line pos with
            | Some None =>
                Ret (update_nth
                       (update_nth
                          (fun _ => Some {| fret := fret_text (note_fret note);
                                            confidence := note_confidence note |})
                          (Z.to_nat (Qfloor pos)))
                       (Z.to_nat (Qfloor sIndex)) stringLines)
            | Some (Some _) => Ret stringLines
            | None => Ret stringLines
            end
        end
      else Ret stringLines
  end.

Fixpoint place_all (ns : list TabNote) (stringLines : list Line)
  : result (list Line) :=
  match ns with
  | [] => Ret stringLines
  | note :: r => bind (place note stringLines) (place_all r)
  end.

(** The [stringLines] that [renderMeasure] draws. *)
Definition stringLines (measure : TabMeasure) : result (list Line) :=
  place_all (notes measure) blank.

End Component.

End Display.

(* ================================================================== *)
(** ** Vocabulary of the properties                                    *)
(* ================================================================== *)

Module Props.
Import Js Types TabRenderer.
Local Open Scope Z_scope.

(** The controller states of the design. *)
Definition Idle (s : State) : Prop :=
  isPlayingOriginal s = false /\ isPlayingSynth s = false.

Definition no_cursor (s : State) : Prop :=
  activeSectionIdx s = None /\ activeMeasureIdx s = None /\ activePosIdx s = None.

(** A node whose stop time is 0 never sounds again. *)
Definition silenced (o : Oscillator) : Prop := osc_stop o = 0%Q.

(** There is an audio element. *)
Definition has_audio (s : State) : bool :=
  match audioRef s with
  | Some _ => true
  | None => false
  end.

(** The recording is being played. *)
Definition original_sounding (s : State) : bool :=
  match audioRef s with
  | Some a => playing a
  | None => false
  end.

(** Nothing of a synthesized session is left. *)
Definition synth_torn_down (s : State) : Prop :=
  synthOscillators s = [] /\ synthTimeoutRefs s = [] /\ timers s = [] /\
  frames s = [] /\ Forall silenced (nodes s).

(** What holds of the component in every state it reaches. *)
Record Inv (s : State) : Prop := {
  inv_sounding : original_sounding s = true -> isPlayingOriginal s = true;
  inv_exclusive : isPlayingOriginal s = true -> isPlayingSynth s = false;
  inv_idle_synth : isPlayingSynth s = false ->
                   synthOscillators s = [] /\ frames s = [] /\ Forall silenced (nodes s);
  inv_frames : forall id r, In (id, r) (frames s) ->
               animationFrameRef s = Some id /\ id <> O /\ r_isPlayingSynth r = false;
  inv_handles : forall i o, nth_error (nodes s) i = Some o ->
                silenced o \/ In i (synthOscillators s);
  inv_timers : synthTimeoutRefs s = [] /\ timers s = [];
  inv_cursor : no_cursor s
}.

(** The data with another tempo. *)
Definition with_tempo (t : option Q) (d : GuitarTabResult) : GuitarTabResult :=
  {| songTitle := songTitle d; artist := artist d; key := key d;
     tempo := t; tuning := tuning d; sections := sections d;
     rawAscii := rawAscii d |}.

(** *** The scheduler *)

(** The fret text of a note reads as an integer. *)
Definition fret_parses {B : Builtins} (n : TabNote) : bool :=
  match parseInt (fret_text (note_fret n)) with
  | Some _ => true
  | None => false
  end.

(** The piece without the notes whose fret does not parse. *)
Definition parsable_only {B : Builtins} (m : TabMeasure) : TabMeasure :=
  {| chords := chords m; notes := filter fret_parses (notes m) |}.

Definition parsable_sections {B : Builtins} (ss : list TabSection) : list TabSection :=
  map (fun sec => {| title := title sec;
                     measures := map parsable_only (measures sec) |}) ss.

Definition without_unparsable {B : Builtins} (d : GuitarTabResult) : GuitarTabResult :=
  {| songTitle := songTitle d; artist := artist d; key := key d;
     tempo := tempo d; tuning := tuning d;
     sections := parsable_sections (sections d);
     rawAscii := rawAscii d |}.










(** The open-string table of a tuning name: the named one when the name
    is one of the table, the one of E Standard otherwise. *)
Definition E_Standard : list Q := [82.41; 110.00; 146.83; 196.00; 246.94; 329.63]%Q.

Definition open_strings (name : option string) : list Q :=
  match name with
  | Some n => match assoc n TUNING_FREQS with Some l => l | None => E_Standard end
  | None => E_Standard
  end.

(** *** The sanitizer *)

(** [v.k] of a value that is not [null] or [undefined]. *)
Definition field (k : string) (v : value) : value :=
  match v with
  | VObj ps | VArr _ ps => lookup k ps
  | _ => VUndefined
  end.

Definition is_object (v : value) : bool :=
  match v with VObj _ | VArr _ _ => true | _ => false end.

Definition is_primitive (v : value) : bool := negb (is_object v).

(** A sequence (as parsed: no property of its own besides its elements)
    whose entries are [ok], or nothing (a falsy value). *)
Definition list_or_missing (ok : value -> bool) (v : value) : bool :=
  match v with
  | VArr l [] => forallb ok l
  | _ => negb (truthy v)
  end.

(** The shapes on which the sanitizer repairs rather than throws: sections
    and measures are objects, their lists are sequences or missing, and
    the position and fret of a note are not themselves objects. *)
Definition note_shaped (n : value) : bool :=
  is_primitive (field "position" n) && is_primitive (field "fret" n).

Definition measure_shaped (m : value) : bool :=
  is_object m && list_or_missing note_shaped (field "notes" m)
  && list_or_missing (fun _ => true) (field "chords" m).

Definition section_shaped (sec : value) : bool :=
  is_object sec && list_or_missing measure_shaped (field "measures" sec).

Definition well_shaped (raw : value) : bool :=
  match field "sections" raw with
  | VArr secs [] => forallb section_shaped secs
  | _ => false
  end.

(** A structurally complete result: every section has a sequence of
    measures, every measure a sequence of chords and one of notes. *)
Definition complete_measure (m : value) : bool :=
  isArray (field "chords" m) && isArray (field "notes" m).

Definition complete_section (sec : value) : bool :=
  match field "measures" sec with
  | VArr ms _ => forallb complete_measure ms
  | _ => false
  end.

Definition complete (out : value) : bool :=
  match field "sections" out with
  | VArr secs _ => forallb complete_section secs
  | _ => false
  end.

(** The raw note passes the filter. *)
Definition survives {B : Builtins} (n : value) : bool :=
  match GeminiService.keep_note n with
  | Ret true => true
  | _ => false
  end.

Definition clamp_Z (lo hi z : Z) : Z := Z.min (Z.max lo z) hi.

(** The position of a sanitized note. *)
Definition position_key (m : value) : Q :=
  match field "position" m with
  | VNum (Num q) => q
  | _ => 0%Q
  end.

(** The notes of a raw measure. *)
Definition raw_notes (m : value) : list value :=
  match field "notes" m with
  | VArr l _ => l
  | _ => []
  end.

(** [m] is the sanitized form of the raw note [n]: string and position
    rounded and clamped, fret as text with "0" for a missing fret and for
    an empty text, every other property as it was. *)
Definition sanitized_from {B : Builtins} (n m : value) : Prop :=
  truthy n = true /\
  (exists x, field "string" n = VNum x /\
     field "string" m = VNum (GeminiService.clamp 1 6 x) /\
     forall q, x = Num q ->
       field "string" m = VNum (num_of_Z (clamp_Z 1 6 (round_Q q)))) /\
  (exists p, ToNumber (field "position" n) = Ret (Num p) /\ (0 <= p)%Q /\
     field "position" m = VNum (num_of_Z (clamp_Z 0 15 (round_Q p)))) /\
  ((field "fret" n = VUndefined \/ field "fret" n = VNull) ->
     field "fret" m = VStr "0") /\
  (forall t, field "fret" n <> VUndefined -> field "fret" n <> VNull ->
     ToString (field "fret" n) = Ret t ->
     field "fret" m = VStr (if String.eqb t "" then "0" else t)) /\
  (forall k, String.eqb k "string" = false -> String.eqb k "position" = false ->
     String.eqb k "fret" = false -> field k m = lookup k (spread n)).

(** The value has a property [k] of its own. *)
Definition owns (k : string) (v : value) : bool :=
  match v with
  | VObj ps | VArr _ ps => has k ps
  | _ => false
  end.

(** A note as the sanitizer leaves it: an object that has its own
    [string], [position] and [fret]; the string is a number that rounding
    and clamping into 1..6 leave alone, the position one that rounding and
    clamping into 0..15 leave alone, the fret a text that is not empty. *)
Definition settled_note (m : value) : Prop :=
  exists ps x q t,
    m = VObj ps /\
    has "string" ps = true /\ has "position" ps = true /\ has "fret" ps = true /\
    lookup "string" ps = VNum x /\ GeminiService.clamp 1 6 x = x /\
    lookup "position" ps = VNum (Num q) /\
    GeminiService.clamp 0 15 (Num q) = Num q /\
    lookup "fret" ps = VStr t /\ String.eqb t "" = false.


(** A note on the grid: string [k] of 1..6 at position [p] of 0..15. *)
Definition on_grid (n : TabNote) : Prop :=
  exists k p, 1 <= k <= 6 /\ 0 <= p <= 15 /\
              note_string n = inject_Z k /\ note_position n = inject_Z p.

(** The elements of a sequence; nothing for any other value. *)
Definition elements (v : value) : list value :=
  match v with
  | VArr l _ => l
  | _ => []
  end.

(** What makes the pass throw in a measure or a section: an entry that
    is not an object, or a list that is there (truthy) and is not a
    sequence. A falsy list (missing, [null], [0], [false], the empty text)
    is replaced by an empty sequence instead. *)
Definition bad_list (v : value) : bool := truthy v && negb (isArray v).

Definition bad_measure (m : value) : bool :=
  negb (is_object m) || bad_list (field "notes" m).

Definition bad_section (sec : value) : bool :=
  negb (is_object sec) || bad_list (field "measures" sec)
  || existsb bad_measure (elements (field "measures" sec)).

(** [v'] has the properties of [v], but for those named in [ks]. *)
Definition same_but (ks : list string) (v v' : value) : Prop :=
  forall k, existsb (String.eqb k) ks = false -> field k v' = field k v.

(** A measure after the pass: its chords untouched when it had some, and
    every property other than [notes] and [chords] untouched. *)
Definition measure_kept (m m' : value) : Prop :=
  same_but ["notes"; "chords"] m m' /\
  (truthy (field "chords" m) = true -> field "chords" m' = field "chords" m).

(** A section after the pass: as many measures, in the same order, and
    every property other than [measures] untouched. *)
Definition section_kept (sec sec' : value) : Prop :=
  same_but ["measures"] sec sec' /\
  Forall2 measure_kept (elements (field "measures" sec))
    (elements (field "measures" sec')).

(** Where the recording stands. *)
Definition currentTime_of (s : State) : option Q :=
  option_map currentTime (audioRef s).

(** The page runs queued frame callbacks, one per pair of handle and
    clock reading. *)
Definition frame_events (ticks : list (nat * Q)) : list Event :=
  map (fun tick => AnimationFrame (fst tick) (snd tick)) ticks.

(** What of a state can be heard or seen. *)
Definition same_playback (s s' : State) : Prop :=
  isPlayingSynth s' = isPlayingSynth s /\
  isPlayingOriginal s' = isPlayingOriginal s /\
  nodes s' = nodes s /\ synthOscillators s' = synthOscillators s /\
  audioRef s' = audioRef s /\
  activeSectionIdx s' = activeSectionIdx s /\
  activeMeasureIdx s' = activeMeasureIdx s /\
  activePosIdx s' = activePosIdx s.

(** *** Texts *)


(** The text before the first colon and the text after it. *)
Fixpoint split_colon (s : string) : option (string * string) :=
  match s with
  | EmptyString => None
  | String c r =>
      if Ascii.eqb c ":" then Some (EmptyString, r)
      else match split_colon r with
           | Some (a, b) => Some (String c a, b)
           | None => None
           end
  end.

(** The seconds a clock text [m:ss] stands for. *)
Definition read_clock (s : string) : option nat :=
  match split_colon s with
  | Some (m, ss) =>
      match NilEmpty.uint_of_string m, NilEmpty.uint_of_string ss with
      | Some um, Some us => Some (60 * Nat.of_uint um + Nat.of_uint us)%nat
      | _, _ => None
      end
  | None => None
  end.

(** The seconds field of the timer reads back as [k] and has two
    characters. *)
Definition seconds_field_ok (k : nat) : bool :=
  match NilEmpty.uint_of_string (Recorder.padStart 2 (Recorder.decimal k)) with
  | Some u => Nat.eqb (Nat.of_uint u) k
              && Nat.eqb (String.length (Recorder.padStart 2 (Recorder.decimal k))) 2
  | None => false
  end.

(** *** The drawn measure *)

(** The cell of line [i] at column [j]; nothing outside the grid. *)
Definition cell (g : list Display.Line) (i j : nat) : option Display.RenderedNote :=
  match nth_error g i with
  | Some line => match nth_error line j with Some c => c | None => None end
  | None => None
  end.

(** Six lines of sixteen cells. *)
Definition six_by_sixteen (g : list Display.Line) : Prop :=
  List.length g = 6%nat /\ Forall (fun line => List.length line = 16%nat) g.

(** What a note is drawn as. *)
Definition shown {B : Builtins} (n : TabNote) : Display.RenderedNote :=
  {| Display.fret := fret_text (note_fret n);
     Display.confidence := note_confidence n |}.

(** The note is on string [k] at position [p]. *)
Definition at_cell (k p : Z) (n : TabNote) : bool :=
  Qeq_bool (note_string n) (inject_Z k) && Qeq_bool (note_position n) (inject_Z p).

(** A string number that selects a line index in 0..5 without being whole. *)
Definition between_lines (n : TabNote) : bool :=
  Qle_bool 1 (note_string n) && Qlt_bool (note_string n) 7
  && negb (Qeq_bool (inject_Z (Qfloor (note_string n))) (note_string n)).

(** *** The schedule, written out *)

Definition node (ctx : nat) (v : Voice) (t len : Q) : Oscillator :=
  {| osc_ctx := ctx; osc_voice := v; osc_start := t; osc_stop := (t + len)%Q |}.

(** The click of beat [beat] of a measure that starts at [t]. *)
Definition click_node (data : GuitarTabResult) (ctx : nat) (t : Q) (beat : Z)
  : Oscillator :=
  node ctx (Click (if beat =? 0 then 1200 else 800)%Q)
    (t + inject_Z beat * secondsPerBeat data) 0.06.

(** The tone of a note of a measure that starts at [t], if it has one. *)
Definition tone_nodes {B : Builtins} (data : GuitarTabResult) (ctx : nat) (t : Q)
    (note : TabNote) : list Oscillator :=
  match parseInt (fret_text (note_fret note)) with
  | None => []
  | Some fretNum =>
      match at_Q (tuningBaseFreqs data) (6 - note_string note) with
      | None => []
      | Some baseFreq =>
          [node ctx (Tone baseFreq fretNum)
             (t + note_position note * secondsPerPosition data) 0.5]
      end
  end.

(** The highest fret number taken to be playable: a hundred octaves
    above the open string, far below what a float holds. *)
Definition max_fret : Z := 1200.

(** The times and positions taken to be in range: up to [2^32], far
    below what a double holds. *)
Definition horizon : Q := inject_Z (2 ^ 32).

(** A session in range: the tempo is at least one beat a minute, so that
    the three durations are at most four minutes, and the start time is
    within the horizon and not negative. *)
Definition steady (data : GuitarTabResult) (t : Q) : Prop :=
  (1 <= tempo_of data)%Q /\ (0 <= t)%Q /\ (t <= horizon)%Q.

(** A note the scheduler can place: its position is within the horizon
    and not negative and, if its fret parses, the fret number is at most
    [max_fret] and its string is one of 1..6. *)
Definition playable {B : Builtins} (note : TabNote) : Prop :=
  (0 <= note_position note)%Q /\ (note_position note <= horizon)%Q /\
  (forall n, parseInt (fret_text (note_fret note)) = Some n ->
     n <= max_fret /\
     exists k, 1 <= k <= 6 /\ (note_string note == inject_Z k)%Q).


(** The tuning name of the data is not one that [TUNING_FREQS] inherits. *)
Definition plain_tuning (data : GuitarTabResult) : Prop :=
  inherited (tuning_name data) = false.

(** A node the session starts: in its context, not before [t], and
    stopped no earlier than it starts. *)
Definition started_from (ctx : nat) (t : Q) (o : Oscillator) : Prop :=
  osc_ctx o = ctx /\ (t <= osc_start o)%Q /\ (osc_start o <= osc_stop o)%Q.

Definition all_measures (d : GuitarTabResult) : list TabMeasure :=
  List.concat (map measures (sections d)).

Definition all_notes (d : GuitarTabResult) : list TabNote :=
  List.concat (map notes (all_measures d)).

End Props.

(* ================================================================== *)
(** ** Data for the closed examples                                    *)
(* ================================================================== *)

Module Examples.
Import Js Types TabRenderer.

(** Conversions that print and read decimal integers; the examples
    convert nothing else. *)
Definition print_integer (q : Q) : string :=
  NilZero.string_of_int (Z.to_int (Qfloor q)).

Definition read_integer (s : string) : number :=
  match NilZero.int_of_string s with
  | Some i => num_of_Z (Z.of_int i)
  | None => NaN
  end.

#[export] Instance integers : Builtins :=
  {| NumberToString := print_integer; StringToNumber := read_integer |}.

Definition note (s : Q) (f : string) (p : Q) : TabNote :=
  {| note_string := s; note_fret := FretText f; note_position := p;
     note_confidence := None |}.

Definition piece (t : option Q) (ss : list TabSection) : GuitarTabResult :=
  {| songTitle := "Example"; artist := None; key := None; tempo := t;
     tuning := Some "E Standard"; sections := ss; rawAscii := None |}.


(** Two sections of one measure each, one open note on string 1 at
    position 0 in each measure, tempo 120. *)
Definition two_sections : GuitarTabResult :=
  piece (Some 120%Q)
    [ {| title := "A"; measures := [ {| chords := []; notes := [note 1 "0" 0] |} ] |};
      {| title := "B"; measures := [ {| chords := []; notes := [note 1 "0" 0] |} ] |} ].

(** One measure whose second note names a seventh string. *)
Definition seventh_string : GuitarTabResult :=
  piece (Some 120%Q)
    [ {| title := "A";
         measures := [ {| chords := [];
                          notes := [note 1 "0" 0; note 7 "0" 4] |} ] |} ].

(** A raw measure as the service may receive it. *)
Definition raw_note (s p : Q) (f : option string) : value :=
  VObj ([("string", VNum (Num s))]
        ++ match f with Some t => [("fret", VStr t)] | None => [] end
        ++ [("position", VNum (Num p))]).

Definition raw_measure : value :=
  VObj [("notes",
         VArr [ raw_note 7.6 17.4 (Some "3");
                raw_note (-3) 2 None;
                raw_note 2 (-1) (Some "5");
                VNull;
                raw_note 3 2.6 (Some "7");
                raw_note 4 3.4 (Some "x") ] [])].

(** A reply with one section that holds the raw measure. *)
Definition raw_piece : value :=
  VObj [("songTitle", VStr "Example");
        ("sections",
         VArr [VObj [("title", VStr "A");
                     ("measures", VArr [raw_measure] [])]] [])].

Definition clean_note (s : Z) (f : string) (p : Z) : value :=
  VObj [("string", VNum (num_of_Z s)); ("fret", VStr f);
        ("position", VNum (num_of_Z p))].

Definition sanitized_measure : value :=
  VObj [("notes",
         VArr [ VObj [("string", VNum (num_of_Z 1));
                      ("position", VNum (num_of_Z 2)); ("fret", VStr "0")];
                clean_note 3 "7" 3;
                clean_note 4 "x" 3;
                clean_note 6 "3" 15 ] []);
        ("chords", VArr [] [])].

End Examples.

(* ================================================================== *)
(** ** Facts about the sort                                            *)
(* ================================================================== *)

Module SortFacts.
Import Js.

Section Keyed.
Context {A : Type} (key : A -> Q).

#[local] Abbreviation cmp := (by_key key).
#[local] Abbreviation le := (key_le key).

Lemma gt0_by_key a b : gt0 (cmp a b) = negb (Qle_bool (key a) (key b)).
Proof.
  unfold by_key, gt0. f_equal.
  destruct (Qle_bool (key a) (key b)) eqn:E.
  - apply Qle_bool_iff in E. apply Qle_bool_iff.
    apply (Qplus_le_l _ _ (key b)). ring_simplify. exact E.
  - destruct (Qle_bool (key a - key b) 0) eqn:E'; [|reflexivity].
    apply Qle_bool_iff in E'.
    assert (key a <= key b)%Q as H.
    { apply (Qplus_le_l _ _ (- key b)).
      setoid_replace (key b + - key b)%Q with 0%Q by ring. exact E'. }
    apply Qle_bool_iff in H. congruence.
Qed.

Lemma insert_cons x y r :
  insert_sorted cmp x (y :: r) =
  if Qle_bool (key x) (key y) then x :: y :: r else y :: insert_sorted cmp x r.
Proof.
  cbn [insert_sorted]. rewrite gt0_by_key.
  now destruct (Qle_bool (key x) (key y)).
Qed.

Lemma insert_perm x l : Permutation (insert_sorted cmp x l) (x :: l).
Proof.
  induction l as [|y r IH]; [reflexivity|].
  rewrite insert_cons. destruct (Qle_bool (key x) (key y)); [reflexivity|].
  rewrite IH. apply perm_swap.
Qed.

Lemma sort_perm l : Permutation (Array_sort cmp l) l.
Proof.
  induction l as [|x r IH]; cbn [Array_sort fold_right]; [reflexivity|].
  fold (Array_sort cmp r). rewrite insert_perm. now constructor.
Qed.

Lemma insert_front x l :
  Forall (le x) l -> insert_sorted cmp x l = x :: l.
Proof.
  destruct l as [|y r]; [reflexivity|]. intros H.
  rewrite insert_cons. inversion H as [|? ? Hy _]; subst.
  apply Qle_bool_iff in Hy. now rewrite Hy.
Qed.

Lemma insert_sorted_sorted x l :
  StronglySorted le l -> StronglySorted le (insert_sorted cmp x l).
Proof.
  induction 1 as [|y r Hr IH Hy].
  - constructor; constructor.
  - rewrite insert_cons. destruct (Qle_bool (key x) (key y)) eqn:E.
    + apply Qle_bool_iff in E. constructor.
      * now constructor.
      * constructor; [exact E|].
        eapply Forall_impl; [|exact Hy]. intros z Hz.
        unfold key_le in *. eapply Qle_trans; eassumption.
    + constructor; [exact IH|].
      assert (key y <= key x)%Q as Hyx.
      { destruct (Qlt_le_dec (key y) (key x)) as [H|H].
        - now apply Qlt_le_weak.
        - apply Qle_bool_iff in H. congruence. }
      eapply Permutation_Forall; [symmetry; apply insert_perm|].
      now constructor.
Qed.

Lemma sort_sorted l : StronglySorted le (Array_sort cmp l).
Proof.
  induction l; cbn [Array_sort fold_right]; [constructor|].
  now apply insert_sorted_sorted.
Qed.

(** Filtering commutes with the sort. *)
Lemma filter_insert (p : A -> bool) x l :
  StronglySorted le l ->
  filter p (insert_sorted cmp x l) =
  if p x then insert_sorted cmp x (filter p l) else filter p l.
Proof.
  induction 1 as [|y r Hr IH Hy].
  - cbn. now destruct (p x).
  - rewrite insert_cons.
    destruct (Qle_bool (key x) (key y)) eqn:E.
    + apply Qle_bool_iff in E.
      change (filter p (x :: y :: r)) with
        (if p x then x :: filter p (y :: r) else filter p (y :: r)).
      destruct (p x); [|reflexivity].
      symmetry. apply insert_front.
      apply Forall_forall. intros z Hz.
      apply filter_In in Hz. destruct Hz as [Hz _].
      destruct Hz as [<-|Hz]; [exact E|].
      rewrite Forall_forall in Hy. specialize (Hy z Hz).
      unfold key_le in *. eapply Qle_trans; eassumption.
    + cbn [filter]. rewrite IH.
      destruct (p y), (p x); try reflexivity.
      rewrite insert_cons, E. reflexivity.
Qed.

Lemma filter_sort (p : A -> bool) l :
  filter p (Array_sort cmp l) = Array_sort cmp (filter p l).
Proof.
  induction l as [|x r IH]; [reflexivity|].
  cbn [Array_sort fold_right]. fold (Array_sort cmp r).
  rewrite filter_insert by apply sort_sorted.
  cbn [filter]. destruct (p x); cbn [Array_sort fold_right]; now rewrite IH.
Qed.

(** A list whose keys are all equal is left as it is. *)
Lemma sort_constant k l :
  Forall (fun x => key x == k)%Q l -> Array_sort cmp l = l.
Proof.
  induction 1 as [|x r Hx Hr IH]; [reflexivity|].
  cbn [Array_sort fold_right]. fold (Array_sort cmp r).
  rewrite IH. apply insert_front.
  eapply Forall_impl; [|exact Hr]. intros z Hz. unfold key_le.
  rewrite Hx, Hz. apply Qle_refl.
Qed.

(** Stability: the elements of one key keep their order. *)
Lemma sort_stable k l :
  filter (fun x => Qeq_bool (key x) k) (Array_sort cmp l) =
  filter (fun x => Qeq_bool (key x) k) l.
Proof.
  rewrite filter_sort. apply sort_constant with (k := k).
  apply Forall_forall. intros x Hx. apply filter_In in Hx.
  now apply Qeq_bool_iff.
Qed.
End Keyed.

(** Two comparators that agree on a list sort it alike. *)
Lemma insert_ext {A} (c1 c2 : A -> A -> number) x l :
  (forall y, In y l -> c1 x y = c2 x y) ->
  insert_sorted c1 x l = insert_sorted c2 x l.
Proof.
  induction l as [|y r IH]; intros H; [reflexivity|].
  cbn [insert_sorted]. rewrite (H y) by now left.
  rewrite IH; [reflexivity|]. intros z Hz. apply H. now right.
Qed.

Lemma insert_In {A} (c : A -> A -> number) x y l :
  In y (insert_sorted c x l) -> y = x \/ In y l.
Proof.
  induction l as [|z r IH]; cbn [insert_sorted].
  - intros [<-|[]]. now left.
  - destruct (gt0 (c x z)).
    + intros [<-|H]; [right; now left|].
      destruct (IH H); [now left|right; now right].
    + intros [<-|H]; [now left|now right].
Qed.

Lemma sort_In {A} (c : A -> A -> number) y l :
  In y (Array_sort c l) -> In y l.
Proof.
  induction l as [|x r IH]; cbn [Array_sort fold_right]; [easy|].
  intros H. apply insert_In in H. destruct H as [->|H]; [now left|].
  right. now apply IH.
Qed.

Lemma sort_ext {A} (c1 c2 : A -> A -> number) l :
  (forall x y, In x l -> In y l -> c1 x y = c2 x y) ->
  Array_sort c1 l = Array_sort c2 l.
Proof.
  induction l as [|x r IH]; intros H; [reflexivity|].
  cbn [Array_sort fold_right]. fold (Array_sort c1 r) (Array_sort c2 r).
  rewrite IH by (intros; apply H; now right).
  apply insert_ext. intros y Hy.
  apply H; [now left|]. right. eapply sort_In; eassumption.
Qed.

End SortFacts.

(* ================================================================== *)
(** ** The playback controller                                         *)
(* ================================================================== *)

Module Controller.
Import Js Types TabRenderer Props.

Lemma stop_now_idem o : stop_now (stop_now o) = stop_now o.
Proof. reflexivity. Qed.

Lemma update_nth_length {A} (f : A -> A) i l :
  List.length (update_nth f i l) = List.length l.
Proof.
  revert i. induction l as [|x r IH]; intros [|i]; cbn; auto.
Qed.

Lemma nth_error_update_nth {A} (f : A -> A) i j l :
  nth_error (update_nth f i l) j =
  if Nat.eqb i j then option_map f (nth_error l j) else nth_error l j.
Proof.
  revert i j. induction l as [|x r IH]; intros [|i] [|j]; cbn; auto.
  - now destruct (Nat.eqb _ _).
Qed.

Lemma nth_error_stop_handles hs : forall ns j,
  nth_error (stop_handles hs ns) j =
  option_map (fun o => if existsb (Nat.eqb j) hs then stop_now o else o)
    (nth_error ns j).
Proof.
  unfold stop_handles.
  induction hs as [|h hs IH]; intros ns j; cbn [fold_left existsb].
  - now destruct (nth_error ns j).
  - rewrite IH, nth_error_update_nth, (Nat.eqb_sym j h).
    destruct (Nat.eqb h j); cbn [orb]; destruct (nth_error ns j); cbn; auto.
    now destruct (existsb _ hs).
Qed.

Lemma stop_handles_length hs : forall ns,
  List.length (stop_handles hs ns) = List.length ns.
Proof.
  unfold stop_handles. induction hs as [|h hs IH]; intros ns; cbn; auto.
  now rewrite IH, update_nth_length.
Qed.

Lemma clear_timeouts_nil pending : clear_timeouts [] pending = pending.
Proof.
  unfold clear_timeouts. induction pending as [|x r IH]; [reflexivity|].
  cbn in *. now f_equal.
Qed.

Lemma remove_frame_idem id fs :
  remove_frame id (remove_frame id fs) = remove_frame id fs.
Proof.
  unfold remove_frame. induction fs as [|f fs IH]; cbn; auto.
  destruct (Nat.eqb (fst f) id) eqn:E; cbn; auto. now rewrite E, IH.
Qed.


Lemma filter_true {A} (l : list A) : filter (fun _ => true) l = l.
Proof. induction l; cbn; congruence. Qed.

Lemma filter_idem {A} (p : A -> bool) l : filter p (filter p l) = filter p l.
Proof.
  induction l as [|x r IH]; cbn; auto.
  destruct (p x) eqn:E; cbn; auto. now rewrite E, IH.
Qed.

(** [stopAllPlayback] field by field. *)
Lemma stopAllPlayback_eq s :
  stopAllPlayback s =
  {| isPlayingOriginal := false; isPlayingSynth := false;
     metronomeEnabled := metronomeEnabled s;
     activeMeasureIdx := None; activePosIdx := None; activeSectionIdx := None;
     audioRef := option_map (fun _ => {| playing := false; currentTime := 0 |})
                   (audioRef s);
     synthContextRef := synthContextRef s;
     synthOscillators := [];
     synthTimeoutRefs := [];
     animationFrameRef := animationFrameRef s;
     synthStartTimeRef := synthStartTimeRef s;
     nodes := stop_handles (synthOscillators s) (nodes s);
     contexts := contexts s;
     frames := match animationFrameRef s with
               | Some (S n) => remove_frame (S n) (frames s)
               | _ => frames s
               end;
     lastFrame := lastFrame s;
     timers := clear_timeouts (synthTimeoutRefs s) (timers s);
     warnings := warnings s; uncaught := uncaught s |}.
Proof.
  unfold stopAllPlayback, cancelAnimationFrame.
  destruct s as [o1 y m am ap asx au cx hs ts fr st ns cs fs lf tm w u].
  now destruct au, fr as [[|?]|].
Qed.

Lemma stopAllPlayback_idem s : stopAllPlayback (stopAllPlayback s) = stopAllPlayback s.
Proof.
  rewrite (stopAllPlayback_eq (stopAllPlayback s)).
  rewrite (stopAllPlayback_eq s).
  cbn [isPlayingOriginal isPlayingSynth metronomeEnabled activeMeasureIdx
       activePosIdx activeSectionIdx audioRef synthContextRef synthOscillators
       synthTimeoutRefs animationFrameRef synthStartTimeRef nodes contexts
       frames lastFrame timers warnings uncaught stop_handles fold_left].
  rewrite clear_timeouts_nil.
  f_equal.
  - now destruct (audioRef s).
  - destruct (animationFrameRef s) as [[|n]|]; auto. apply remove_frame_idem.
Qed.


Lemma In_existsb_eqb j hs : In j hs -> existsb (Nat.eqb j) hs = true.
Proof.
  intros H. apply existsb_exists. exists j. split; [exact H|apply Nat.eqb_refl].
Qed.


(** *** The invariant *)

Lemma Forall_nth_error {A} (P : A -> Prop) l :
  (forall i x, nth_error l i = Some x -> P x) -> Forall P l.
Proof.
  intros H. apply Forall_forall. intros x Hx.
  apply In_nth_error in Hx. destruct Hx as [i Hi]. eauto.
Qed.

Lemma filter_none {A} (p : A -> bool) l :
  (forall x, In x l -> p x = false) -> filter p l = [].
Proof.
  induction l as [|x r IH]; intros H; [reflexivity|].
  cbn. rewrite (H x) by now left. apply IH. intros; apply H; now right.
Qed.

Lemma frames_cancelled s :
  (forall id r, In (id, r) (frames s) ->
     animationFrameRef s = Some id /\ id <> O /\ r_isPlayingSynth r = false) ->
  match animationFrameRef s with
  | Some (S n) => remove_frame (S n) (frames s)
  | _ => frames s
  end = [].
Proof.
  intros H. destruct (frames s) as [|[id r] fs] eqn:E;
    [now destruct (animationFrameRef s) as [[|?]|]|].
  destruct (H id r (or_introl eq_refl)) as (Href & Hid & _).
  rewrite Href. destruct id as [|n]; [easy|].
  apply filter_none. intros [id' r'] Hin.
  destruct (H _ _ Hin) as (H1 & _). rewrite Href in H1.
  injection H1 as <-. cbn. now rewrite Nat.eqb_refl.
Qed.

Lemma stop_handles_silenced s :
  (forall i o, nth_error (nodes s) i = Some o ->
     silenced o \/ In i (synthOscillators s)) ->
  Forall silenced (stop_handles (synthOscillators s) (nodes s)).
Proof.
  intros H. apply Forall_nth_error. intros i o.
  rewrite nth_error_stop_handles.
  destruct (nth_error (nodes s) i) as [o0|] eqn:E; [|easy].
  cbn. intros [= <-].
  destruct (existsb (Nat.eqb i) (synthOscillators s)) eqn:Ex; [reflexivity|].
  destruct (H _ _ E) as [Hs|Hin]; [exact Hs|].
  apply In_existsb_eqb in Hin. congruence.
Qed.

Lemma Inv_stopAllPlayback s : Inv s -> Inv (stopAllPlayback s).
Proof.
  intros I. rewrite stopAllPlayback_eq.
  pose proof (frames_cancelled s (inv_frames s I)) as Hf.
  pose proof (stop_handles_silenced s (inv_handles s I)) as Hn.
  destruct (inv_timers s I) as [Ht1 Ht2].
  constructor; cbn; unfold original_sounding, no_cursor; cbn.
  - now destruct (audioRef s).
  - easy.
  - intros _. now rewrite Hf.
  - rewrite Hf. easy.
  - intros i o Hi. left. rewrite Forall_forall in Hn.
    apply Hn. eapply nth_error_In; eassumption.
  - now rewrite Ht1, Ht2.
  - easy.
Qed.

Lemma stopAllPlayback_torn_down s :
  Inv s -> synth_torn_down (stopAllPlayback s) /\ Idle (stopAllPlayback s) /\
           original_sounding (stopAllPlayback s) = false.
Proof.
  intros I. pose proof (Inv_stopAllPlayback s I) as I'.
  assert (isPlayingSynth (stopAllPlayback s) = false) as Hy
    by now rewrite stopAllPlayback_eq.
  destruct (inv_idle_synth _ I' Hy) as (H1 & H2 & H3).
  destruct (inv_timers _ I') as [H4 H5].
  repeat split; auto.
  - now rewrite stopAllPlayback_eq.
  - rewrite stopAllPlayback_eq. unfold original_sounding. cbn.
    now destruct (audioRef s).
Qed.

Lemma Inv_mounted b : Inv (mounted b).
Proof.
  constructor; unfold original_sounding, no_cursor; cbn; try easy.
  - now destruct b.
  - intros [|i] o; easy.
Qed.

Lemma Inv_log w e s : Inv s -> Inv (log w e s).
Proof. intros [? ? ? ? ? ? ?]. constructor; auto. Qed.

Lemma Inv_pause a s :
  Inv s ->
  Inv (setIsPlayingOriginal false
         (set_audio (Some {| playing := false; currentTime := a |}) s)).
Proof.
  intros [H1 H2 H3 H4 H5 H6 H7]. constructor; auto; cbn; easy.
Qed.

Lemma Inv_play a s :
  Inv s -> isPlayingSynth s = false ->
  Inv (setIsPlayingOriginal true
         (set_audio (Some {| playing := true; currentTime := a |}) s)).
Proof.
  intros [H1 H2 H3 H4 H5 H6 H7] Hy. constructor; auto; cbn; easy.
Qed.

Lemma Inv_metronome b s : Inv s -> Inv (setMetronomeEnabled b s).
Proof. intros [? ? ? ? ? ? ?]. constructor; auto. Qed.

Lemma Inv_audio_stopped s : Inv s -> Inv (setIsPlayingOriginal false (audio_stopped s)).
Proof.
  intros I. unfold audio_stopped. destruct (audioRef s) as [a|] eqn:E.
  - now apply Inv_pause.
  - destruct I as [H1 H2 H3 H4 H5 H6 H7]. constructor; auto; try (cbn; easy).
    unfold original_sounding. cbn. now rewrite E.
Qed.

Lemma Inv_progress t s :
  Inv s ->
  Inv match audioRef s with
      | Some a =>
          if playing a then set_audio (Some {| playing := true; currentTime := t |}) s
          else s
      | None => s
      end.
Proof.
  intros I. destruct (audioRef s) as [[[] c]|] eqn:E; auto.
  destruct I as [H1 H2 H3 H4 H5 H6 H7]. constructor; auto.
  intros _. apply H1. unfold original_sounding. now rewrite E.
Qed.

Lemma Inv_dequeue id s :
  Inv s -> Inv (set_frames (animationFrameRef s) (remove_frame id (frames s)) (lastFrame s) s).
Proof.
  intros [H1 H2 H3 H4 H5 H6 H7]. constructor; auto; cbn.
  - intros Hy. destruct (H3 Hy) as (Ha & Hb & Hc). now rewrite Hb.
  - intros i r Hin. apply H4. unfold remove_frame in Hin.
    now apply filter_In in Hin.
Qed.

(** The end of [playSynth] on a state prepared for a new session. *)
Lemma Inv_started r os (res : result Q) s :
  isPlayingOriginal s = false -> original_sounding s = false ->
  isPlayingSynth s = true ->
  synthOscillators s = [] -> frames s = [] -> Forall silenced (nodes s) ->
  synthTimeoutRefs s = [] -> timers s = [] -> no_cursor s ->
  r_isPlayingSynth r = false ->
  Inv match res with
      | Ret _ => requestAnimationFrame r (push_nodes os s)
      | Throw e => log [] [e] (push_nodes os s)
      end.
Proof.
  intros Ho Hs Hy Hh Hf Hn Ht1 Ht2 Hc Hr.
  assert (forall i o, nth_error (nodes s ++ os) i = Some o ->
            silenced o \/ In i (synthOscillators s ++
                                seq (List.length (nodes s)) (List.length os))) as Hnew.
  { intros i o Hi. destruct (Nat.lt_ge_cases i (List.length (nodes s))) as [Hlt|Hge].
    - rewrite nth_error_app1 in Hi by exact Hlt. left.
      rewrite Forall_forall in Hn. apply Hn. eapply nth_error_In; eassumption.
    - right. apply in_or_app. right. apply in_seq. split; [exact Hge|].
      assert (nth_error (nodes s ++ os) i <> None) as Hne by congruence.
      apply nth_error_Some in Hne. now rewrite length_app in Hne. }
  destruct res as [t|e].
  - constructor; cbn; auto; try easy; try congruence.
    + unfold original_sounding in *. cbn. congruence.
    + rewrite Hf. cbn. intros id r' [[= <- <-]|[]]. auto.
  - constructor; cbn; auto; try easy; try congruence.
    + unfold original_sounding in *. cbn. congruence.
    + rewrite Hf. easy.
Qed.

Section Reach.
Context {B : Builtins} (data : GuitarTabResult).

Lemma Inv_toggleOriginalPlayback s :
  Inv s -> Inv (toggleOriginalPlayback (render_of s) s).
Proof.
  intros I. unfold toggleOriginalPlayback. cbn [render_of r_isPlayingSynth r_isPlayingOriginal].
  set (s1 := if isPlayingSynth s then stopAllPlayback s else s).
  assert (Inv s1) as I1.
  { unfold s1. destruct (isPlayingSynth s); [now apply Inv_stopAllPlayback|exact I]. }
  assert (isPlayingSynth s1 = false) as Hy1.
  { unfold s1. destruct (isPlayingSynth s) eqn:E; [|exact E].
    now rewrite stopAllPlayback_eq. }
  destruct (audioRef s1) as [a|].
  - destruct (isPlayingOriginal s); [now apply Inv_pause|now apply Inv_play].
  - now apply Inv_log.
Qed.

Lemma Inv_playSynth now s :
  Inv s -> Inv (playSynth data (render_of s) now s).
Proof.
  intros I. unfold playSynth. cbn [render_of r_isPlayingSynth r_isPlayingOriginal r_metronomeEnabled].
  set (s1 := if isPlayingOriginal s then stopAllPlayback s else s).
  assert (Inv s1) as I1.
  { unfold s1. destruct (isPlayingOriginal s); [now apply Inv_stopAllPlayback|exact I]. }
  destruct (isPlayingSynth s) eqn:Ey; [now apply Inv_stopAllPlayback|].
  assert (isPlayingOriginal s1 = false) as Ho1.
  { unfold s1. destruct (isPlayingOriginal s) eqn:E; [|exact E].
    now rewrite stopAllPlayback_eq. }
  assert (isPlayingSynth s1 = false) as Hy1.
  { unfold s1. destruct (isPlayingOriginal s); [|exact Ey].
    now rewrite stopAllPlayback_eq. }
  assert (original_sounding s1 = false) as Hs1.
  { destruct (original_sounding s1) eqn:E; [|reflexivity].
    apply (inv_sounding _ I1) in E. congruence. }
  destruct (inv_idle_synth _ I1 Hy1) as (Hh & Hf & Hn).
  destruct (inv_timers _ I1) as [Ht1 Ht2].
  destruct (schedule_sections _ _ _ _ _) as [os res].
  apply (Inv_started _ os res); auto.
  apply (inv_cursor _ I1).
Qed.

(** A callback created in a render that is not playing returns at once. *)
Lemma updatePlaybackProgress_stale r now s :
  r_isPlayingSynth r = false -> updatePlaybackProgress data r now s = s.
Proof.
  intros H. unfold updatePlaybackProgress. rewrite H.
  now destruct (synthContextRef s).
Qed.

Lemma Inv_step ev s : Inv s -> Inv (step data ev s).
Proof.
  intros I. destruct ev; cbn [step].
  - now apply Inv_toggleOriginalPlayback.
  - now apply Inv_playSynth.
  - now apply Inv_metronome.
  - destruct (find _ (frames s)) as [[id' r]|] eqn:E; [|exact I].
    apply find_some in E. destruct E as [Hin _].
    destruct (inv_frames s I _ _ Hin) as (_ & _ & Hr).
    rewrite updatePlaybackProgress_stale by exact Hr.
    now apply Inv_dequeue.
  - now apply Inv_audio_stopped.
  - now apply Inv_audio_stopped.
  - now apply Inv_audio_stopped.
  - now apply Inv_progress.
  - now apply Inv_stopAllPlayback.
Qed.

Lemma Inv_run evs : forall s, Inv s -> Inv (run data evs s).
Proof.
  unfold run. induction evs as [|ev evs IH]; intros s I; [exact I|].
  cbn [fold_left]. apply IH. now apply Inv_step.
Qed.

End Reach.

Section Exclusion.
Context {B : Builtins} (data : GuitarTabResult).

Lemma silent_while_synth s :
  Inv s -> isPlayingSynth s = true -> original_sounding s = false.
Proof.
  intros I Hy. destruct (original_sounding s) eqn:E; [|reflexivity].
  apply (inv_sounding _ I) in E. apply (inv_exclusive _ I) in E. congruence.
Qed.

Lemma torn_down_while_original s :
  Inv s -> original_sounding s = true ->
  isPlayingSynth s = false /\ synth_torn_down s.
Proof.
  intros I H. apply (inv_sounding _ I) in H. apply (inv_exclusive _ I) in H.
  destruct (inv_idle_synth _ I H) as (H1 & H2 & H3).
  destruct (inv_timers _ I) as [H4 H5]. now repeat split.
Qed.

Lemma playSynth_after_stop r now s :
  r_isPlayingOriginal r = true ->
  playSynth data r now s = playSynth data r now (stopAllPlayback s).
Proof.
  intros H. unfold playSynth. rewrite H. now rewrite !stopAllPlayback_idem.
Qed.

Lemma playSynth_keeps_audio r now s :
  r_isPlayingOriginal r = false -> r_isPlayingSynth r = false ->
  audioRef (playSynth data r now s) = audioRef s /\
  isPlayingOriginal (playSynth data r now s) = isPlayingOriginal s.
Proof.
  intros H1 H2. unfold playSynth. rewrite H1, H2.
  destruct (schedule_sections _ _ _ _ _) as [os [t|e]]; now split.
Qed.

Lemma playSynth_stops_audio r now s :
  r_isPlayingOriginal r = true -> r_isPlayingSynth r = false ->
  audioRef (playSynth data r now s) = audioRef (stopAllPlayback s) /\
  isPlayingOriginal (playSynth data r now s) = false.
Proof.
  intros H1 H2. unfold playSynth. rewrite H1, H2.
  pose proof (stopAllPlayback_eq s) as E.
  remember (stopAllPlayback s) as s0 eqn:Es0.
  assert (isPlayingOriginal s0 = false) as Ho by now rewrite E.
  clear E Es0.
  destruct (schedule_sections _ _ _ _ _) as [os [t|e]]; now split.
Qed.

Lemma synth_over_original now s :
  Inv s -> isPlayingOriginal s = true ->
  let s' := step data (ClickSynth now) s in
  s' = playSynth data (render_of s) now (stopAllPlayback s) /\
  original_sounding s' = false /\ isPlayingOriginal s' = false.
Proof.
  intros I Ho. cbv zeta.
  pose proof (inv_exclusive _ I Ho) as Hy.
  change (step data (ClickSynth now) s) with (playSynth data (render_of s) now s).
  destruct (playSynth_stops_audio (render_of s) now s Ho Hy) as [Ha Hb].
  split; [now apply playSynth_after_stop|].
  split; [|exact Hb].
  unfold original_sounding. rewrite Ha, stopAllPlayback_eq.
  cbn [audioRef]. now destruct (audioRef s).
Qed.

Lemma original_over_synth s :
  Inv s -> isPlayingSynth s = true ->
  let s' := step data ClickOriginal s in
  s' = toggleOriginalPlayback (render_of s) (stopAllPlayback s) /\
  synth_torn_down s' /\ isPlayingSynth s' = false.
Proof.
  intros I Hy. cbv zeta. cbn [step].
  unfold toggleOriginalPlayback. cbn [render_of r_isPlayingOriginal r_isPlayingSynth].
  rewrite Hy, stopAllPlayback_idem.
  split; [reflexivity|].
  destruct (stopAllPlayback_torn_down s I) as (T & (_ & Ty) & _).
  generalize dependent (stopAllPlayback s). intros s0 T Ty.
  destruct (audioRef s0); [destruct (isPlayingOriginal s)|];
    (split; [exact T|exact Ty]).
Qed.

End Exclusion.

(** C2. In every state the component reaches, original and synthesized
    playback are not both active: the two flags are never both set, a
    sounding recording means the synthesizer is torn down (no handle, no
    timer, no frame callback, every node stopped), and a live synthesizer
    means the recording is silent. Pressing Synth while the original plays
    is [playSynth] run on the stopped state (recording paused and rewound)
    and leaves the recording silent; pressing Original while the
    synthesizer plays is [toggleOriginalPlayback] run on the stopped state
    (torn down) and leaves the synthesizer torn down. *)
Theorem mutual_exclusion {B : Builtins} (data : GuitarTabResult)
    (hasAudio : bool) (evs : list Event) :
  let s := run data evs (mounted hasAudio) in
  (isPlayingOriginal s && isPlayingSynth s = false) /\
  (original_sounding s = true -> isPlayingSynth s = false /\ synth_torn_down s) /\
  (isPlayingSynth s = true -> original_sounding s = false) /\
  (forall now, isPlayingOriginal s = true ->
     let s' := step data (ClickSynth now) s in
     s' = playSynth data (render_of s) now (stopAllPlayback s) /\
     audioRef (stopAllPlayback s) =
       option_map (fun _ => {| playing := false; currentTime := 0 |}) (audioRef s) /\
     original_sounding s' = false /\ isPlayingOriginal s' = false) /\
  (isPlayingSynth s = true ->
     let s' := step data ClickOriginal s in
     s' = toggleOriginalPlayback (render_of s) (stopAllPlayback s) /\
     synth_torn_down (stopAllPlayback s) /\
     synth_torn_down s' /\ isPlayingSynth s' = false).
Proof.
  cbv zeta. set (s := run data evs (mounted hasAudio)).
  assert (Inv s) as I by (apply Inv_run, Inv_mounted).
  split; [|split; [|split; [|split]]].
  - destruct (isPlayingOriginal s) eqn:E; [|reflexivity].
    now rewrite (inv_exclusive _ I E).
  - now apply torn_down_while_original.
  - now apply silent_while_synth.
  - intros now Ho.
    destruct (synth_over_original data now s I Ho) as (H1 & H2 & H3).
    repeat split; auto. now rewrite stopAllPlayback_eq.
  - intros Hy.
    destruct (original_over_synth data s I Hy) as (H1 & H2 & H3).
    split; [exact H1|]. split; [apply (stopAllPlayback_torn_down s I)|].
    split; [exact H2|exact H3].
Qed.

(** *** The time grid *)
Section Grid.
Context {B : Builtins}.

Lemma grid_ext d d' :
  tempo_of d = tempo_of d' ->
  secondsPerBeat d = secondsPerBeat d' /\
  secondsPerMeasure d = secondsPerMeasure d' /\
  secondsPerPosition d = secondsPerPosition d'.
Proof.
  unfold secondsPerPosition, secondsPerMeasure, secondsPerBeat.
  now intros ->.
Qed.

Lemma forEach_ext {A} (f g : A -> result (list Oscillator)) l :
  (forall x, f x = g x) -> forEach f l = forEach g l.
Proof.
  intros H. induction l as [|x r IH]; [reflexivity|].
  cbn [forEach]. now rewrite H, IH.
Qed.

Lemma schedule_measure_ext d d' :
  tempo_of d = tempo_of d' -> tuning d = tuning d' ->
  forall m ctx t msr,
    schedule_measure d m ctx t msr = schedule_measure d' m ctx t msr.
Proof.
  intros Ht Hu m ctx t msr.
  destruct (grid_ext d d' Ht) as (Hb & Hm & Hp).
  unfold schedule_measure.
  rewrite (forEach_ext (schedule_click d ctx t) (schedule_click d' ctx t)).
  2:{ intros x. unfold schedule_click. now rewrite Hb. }
  rewrite (forEach_ext (schedule_note d ctx t) (schedule_note d' ctx t)).
  2:{ intros x. unfold schedule_note, tuningBaseFreqs, tuning_name.
      now rewrite Hp, Hu. }
  reflexivity.
Qed.

Lemma schedule_measures_ext d d' :
  tempo_of d = tempo_of d' -> tuning d = tuning d' ->
  forall m ctx ms t,
    schedule_measures d m ctx t ms = schedule_measures d' m ctx t ms.
Proof.
  intros Ht Hu m ctx ms.
  destruct (grid_ext d d' Ht) as (Hb & Hm & Hp).
  induction ms as [|x r IH]; intros t; [reflexivity|].
  cbn [schedule_measures].
  now rewrite (schedule_measure_ext d d' Ht Hu), Hm, IH.
Qed.

Lemma schedule_sections_ext d d' :
  tempo_of d = tempo_of d' -> tuning d = tuning d' ->
  forall m ctx ss t,
    schedule_sections d m ctx t ss = schedule_sections d' m ctx t ss.
Proof.
  intros Ht Hu m ctx ss.
  induction ss as [|x r IH]; intros t; [reflexivity|].
  cbn [schedule_sections].
  rewrite (schedule_measures_ext d d' Ht Hu).
  destruct (schedule_measures d' m ctx t (measures x)) as [os [t'|e]]; [|reflexivity].
  now rewrite IH.
Qed.

Lemma playSynth_ext d d' :
  tempo_of d = tempo_of d' -> tuning d = tuning d' -> sections d = sections d' ->
  forall r now s, playSynth d r now s = playSynth d' r now s.
Proof.
  intros Ht Hu Hs r now s. unfold playSynth.
  now rewrite (schedule_sections_ext d d' Ht Hu), Hs.
Qed.

Lemma updatePlaybackProgress_ext d d' :
  tempo_of d = tempo_of d' -> sections d = sections d' ->
  forall r now s, updatePlaybackProgress d r now s = updatePlaybackProgress d' r now s.
Proof.
  intros Ht Hs r now s. unfold updatePlaybackProgress, flatMeasures.
  destruct (grid_ext d d' Ht) as (Hb & Hm & Hp).
  now rewrite Hp, Hs.
Qed.

(** C4 (amended). When the tempo is absent or zero, the time grid is that
    of tempo 120: seconds per beat, per position and per measure, the
    whole of [playSynth] and every playhead tick are as for the same piece
    at tempo 120. A tempo that is not zero, negative ones included, is
    used as it stands. *)
Theorem falsy_tempo_is_120 (d : GuitarTabResult) :
  tempo d = None \/ (exists t, tempo d = Some t /\ t == 0)%Q ->
  let d120 := with_tempo (Some 120%Q) d in
  secondsPerBeat d = secondsPerBeat d120 /\
  secondsPerPosition d = secondsPerPosition d120 /\
  secondsPerMeasure d = secondsPerMeasure d120 /\
  (forall r now s, playSynth d r now s = playSynth d120 r now s) /\
  (forall r now s,
     updatePlaybackProgress d r now s = updatePlaybackProgress d120 r now s) /\
  (forall d' t, tempo d' = Some t -> ~ (t == 0)%Q -> tempo_of d' = t).
Proof.
  intros H. cbv zeta.
  assert (tempo_of d = tempo_of (with_tempo (Some 120%Q) d)) as Ht.
  { unfold tempo_of. cbn [tempo with_tempo].
    destruct H as [->|(t & -> & Hz)]; [reflexivity|].
    apply Qeq_bool_iff in Hz. now rewrite Hz. }
  destruct (grid_ext _ _ Ht) as (Hb & Hm & Hp).
  repeat split; auto.
  - now apply playSynth_ext.
  - now apply updatePlaybackProgress_ext.
  - intros d' t E Hz. unfold tempo_of. rewrite E.
    destruct (Qeq_bool t 0) eqn:Eb; [|reflexivity].
    apply Qeq_bool_iff in Eb. contradiction.
Qed.

End Grid.

(** The theorem at a piece with no tempo. *)
Lemma falsy_tempo_is_120_witness :
  tempo (Examples.piece None []) = None /\
  secondsPerBeat (Examples.piece None []) =
  secondsPerBeat (with_tempo (Some 120%Q) (Examples.piece None [])).
Proof.
  split; [reflexivity|].
  apply (@falsy_tempo_is_120 Examples.integers (Examples.piece None [])).
  left. reflexivity.
Defined.

(** C4, as stated, fails: a negative tempo is not replaced by 120. At
    tempo -60 a beat lasts -1 second, not half a second. *)
Lemma negative_tempo_kept :
  tempo (Examples.piece (Some (-60)%Q) []) = Some (-60)%Q /\
  (secondsPerBeat (Examples.piece (Some (-60)%Q) []) == -1)%Q /\
  (secondsPerBeat (with_tempo (Some 120%Q) (Examples.piece (Some (-60)%Q) [])) == 1 # 2)%Q /\
  ~ (secondsPerBeat (Examples.piece (Some (-60)%Q) []) ==
     secondsPerBeat (with_tempo (Some 120%Q) (Examples.piece (Some (-60)%Q) [])))%Q.
Proof.
  repeat split; try reflexivity. intros H. vm_compute in H. discriminate.
Qed.

(** *** Original playback without a recording *)

(** With no audio element, [toggleOriginalPlayback] never starts the
    recording and raises nothing: it logs one warning. When the render is
    not playing the synthesizer nothing else changes. *)
Lemma toggleOriginalPlayback_no_audio (r : Render) (s : State) :
  audioRef s = None ->
  let s' := toggleOriginalPlayback r s in
  let warning := "Original audio source is missing or invalid." in
  original_sounding s' = false /\
  uncaught s' = uncaught s /\
  warnings s' = warnings s ++ [warning] /\
  (r_isPlayingSynth r = false -> s' = log [warning] [] s).
Proof.
  intros Ha. cbv zeta. unfold toggleOriginalPlayback.
  destruct (r_isPlayingSynth r).
  - pose proof (stopAllPlayback_eq s) as E.
    remember (stopAllPlayback s) as s0 eqn:Es0.
    assert (audioRef s0 = None) as Ha' by (rewrite E; cbn; now rewrite Ha).
    assert (uncaught s0 = uncaught s /\ warnings s0 = warnings s)
      as (Hu & Hw) by (rewrite E; now repeat split).
    rewrite Ha'. unfold original_sounding.
    cbn [log audioRef uncaught warnings].
    rewrite Ha', Hu, Hw, app_nil_r. repeat split; easy.
  - rewrite Ha. unfold original_sounding.
    cbn [log audioRef uncaught warnings]. rewrite Ha, app_nil_r.
    repeat split; easy.
Qed.

Section Request.
Context {B : Builtins} (data : GuitarTabResult).

Lemma has_audio_stop s : has_audio (stopAllPlayback s) = has_audio s.
Proof.
  rewrite stopAllPlayback_eq. unfold has_audio. cbn. now destruct (audioRef s).
Qed.

Lemma has_audio_toggle r s : has_audio (toggleOriginalPlayback r s) = has_audio s.
Proof.
  unfold toggleOriginalPlayback.
  assert (has_audio (if r_isPlayingSynth r then stopAllPlayback s else s)
          = has_audio s) as H
    by (destruct (r_isPlayingSynth r); [apply has_audio_stop|reflexivity]).
  remember (if r_isPlayingSynth r then stopAllPlayback s else s) as s0 eqn:Es0.
  clear Es0. rewrite <- H. unfold has_audio.
  destruct (audioRef s0) eqn:E; [destruct (r_isPlayingOriginal r)|];
    cbn; rewrite ?E; reflexivity.
Qed.

Lemma has_audio_playSynth r now s : has_audio (playSynth data r now s) = has_audio s.
Proof.
  unfold playSynth.
  assert (has_audio (if r_isPlayingOriginal r then stopAllPlayback s else s)
          = has_audio s) as H
    by (destruct (r_isPlayingOriginal r); [apply has_audio_stop|reflexivity]).
  remember (if r_isPlayingOriginal r then stopAllPlayback s else s) as s0 eqn:Es0.
  clear Es0. rewrite <- H.
  destruct (r_isPlayingSynth r); [apply has_audio_stop|].
  destruct (schedule_sections _ _ _ _ _) as [os [t|e]]; reflexivity.
Qed.

Lemma has_audio_update r now s :
  has_audio (updatePlaybackProgress data r now s) = has_audio s.
Proof.
  unfold updatePlaybackProgress.
  destruct (synthContextRef s); [|reflexivity].
  destruct (negb (r_isPlayingSynth r)); [reflexivity|].
  destruct (Qlt_bool _ 0); [reflexivity|].
  destruct (_ <? _); [|apply has_audio_stop].
  destruct (at_Z _ _); reflexivity.
Qed.

(** No event gives the component an audio element or takes it away. *)
Lemma has_audio_step ev s : has_audio (step data ev s) = has_audio s.
Proof.
  destruct ev; cbn [step].
  - apply has_audio_toggle.
  - apply has_audio_playSynth.
  - reflexivity.
  - destruct (find _ _) as [[i r]|]; [|reflexivity].
    now rewrite has_audio_update.
  - unfold audio_stopped, has_audio.
    destruct (audioRef s) eqn:E; cbn; rewrite ?E; reflexivity.
  - unfold audio_stopped, has_audio.
    destruct (audioRef s) eqn:E; cbn; rewrite ?E; reflexivity.
  - unfold audio_stopped, has_audio.
    destruct (audioRef s) eqn:E; cbn; rewrite ?E; reflexivity.
  - unfold has_audio. destruct (audioRef s) as [a|] eqn:E; [|now rewrite E].
    destruct (playing a); cbn; now rewrite ?E.
  - apply has_audio_stop.
Qed.

Lemma has_audio_play url evs : forall s,
  has_audio (play data url evs s) = has_audio s.
Proof.
  induction evs as [|ev evs IH]; intros s; [reflexivity|].
  change (play data url (ev :: evs) s)
    with (play data url evs (deliver data url ev s)).
  rewrite IH.
  destruct ev; cbn [deliver]; try apply has_audio_step.
  destruct url; [apply has_audio_step|reflexivity].
Qed.

Lemma stopAllPlayback_not_original s : isPlayingOriginal (stopAllPlayback s) = false.
Proof. now rewrite stopAllPlayback_eq. Qed.

(** But for the click on Play Original, no event sets the flag of the
    recording. *)
Lemma not_original_step ev s :
  ev <> ClickOriginal -> isPlayingOriginal s = false ->
  isPlayingOriginal (step data ev s) = false.
Proof.
  intros Hev Hs. destruct ev; cbn [step]; try easy.
  - unfold playSynth.
    assert (isPlayingOriginal (if r_isPlayingOriginal (render_of s)
                               then stopAllPlayback s else s) = false) as H
      by (destruct (r_isPlayingOriginal _);
          [apply stopAllPlayback_not_original|exact Hs]).
    remember (if r_isPlayingOriginal (render_of s) then stopAllPlayback s else s)
      as s0 eqn:Es0.
    clear Es0.
    destruct (r_isPlayingSynth _); [apply stopAllPlayback_not_original|].
    destruct (schedule_sections _ _ _ _ _) as [os [t|e]]; exact H.
  - destruct (find _ _) as [[i r]|]; [|exact Hs].
    unfold updatePlaybackProgress. cbn.
    destruct (synthContextRef s); [|exact Hs].
    destruct (negb (r_isPlayingSynth r)); [exact Hs|].
    destruct (Qlt_bool _ 0); [exact Hs|].
    destruct (_ <? _); [|apply stopAllPlayback_not_original].
    destruct (at_Z _ _); exact Hs.
  - destruct (audioRef s) as [a|]; [|exact Hs].
    destruct (playing a); exact Hs.
  - apply stopAllPlayback_not_original.
Qed.

Lemma not_original_play evs : forall s,
  isPlayingOriginal s = false ->
  isPlayingOriginal (play data false evs s) = false.
Proof.
  induction evs as [|ev evs IH]; intros s Hs; [exact Hs|].
  change (play data false (ev :: evs) s)
    with (play data false evs (deliver data false ev s)).
  apply IH.
  destruct ev; cbn [deliver]; try (apply not_original_step; easy). exact Hs.
Qed.

End Request.

(** C8. Original playback is asked for by a click on the Play Original
    button, which is disabled when there is no recording, and there is an
    audio element exactly when there is a recording. So in every state
    the component reaches: with no recording the request is not
    delivered, the playback state is left exactly as it is, and the
    recording is not playing and not flagged as playing; with a recording
    the handler finds its audio element. The guard inside
    [toggleOriginalPlayback] agrees with this: run with no audio element
    it never starts the recording and raises nothing, it logs one
    warning, and in a render in which the synthesizer does not play it
    changes nothing else. *)
Theorem original_request_without_source {B : Builtins} (data : GuitarTabResult)
    (originalAudioUrl : bool) (evs : list Event) :
  let s := play data originalAudioUrl evs (mounted originalAudioUrl) in
  let warning := "Original audio source is missing or invalid." in
  (audioRef s = None <-> originalAudioUrl = false) /\
  (originalAudioUrl = false ->
     deliver data originalAudioUrl ClickOriginal s = s /\
     isPlayingOriginal s = false /\ original_sounding s = false) /\
  (forall r s0,
     audioRef s0 = None ->
     original_sounding (toggleOriginalPlayback r s0) = false /\
     uncaught (toggleOriginalPlayback r s0) = uncaught s0 /\
     warnings (toggleOriginalPlayback r s0) = warnings s0 ++ [warning] /\
     (r_isPlayingSynth r = false ->
      toggleOriginalPlayback r s0 = log [warning] [] s0 /\
      same_playback s0 (toggleOriginalPlayback r s0))).
Proof.
  cbv zeta.
  pose proof (has_audio_play data originalAudioUrl evs (mounted originalAudioUrl))
    as Ha.
  assert (audioRef (play data originalAudioUrl evs (mounted originalAudioUrl)) = None
          <-> originalAudioUrl = false) as Hiff.
  { unfold has_audio in Ha.
    destruct (audioRef (play data originalAudioUrl evs (mounted originalAudioUrl)));
      destruct originalAudioUrl; cbn in Ha; split; congruence. }
  split; [exact Hiff|]. split.
  - intros ->. split; [reflexivity|].
    split; [now apply not_original_play|].
    unfold original_sounding. now rewrite (proj2 Hiff eq_refl).
  - intros r s0 H0.
    destruct (toggleOriginalPlayback_no_audio r s0 H0) as (H1 & H2 & H3 & H4).
    split; [exact H1|]. split; [exact H2|]. split; [exact H3|].
    intros Hr. split; [now apply H4|]. rewrite (H4 Hr). now repeat split.
Qed.

(** The theorem after Synth is pressed on the example piece mounted with no
    recording: the click on Play Original changes nothing, and the
    synthesizer plays on. *)
Lemma original_request_without_source_witness :
  let s := play (B := Examples.integers) Examples.two_sections false
             [ClickSynth 0; ClickOriginal] (mounted false) in
  audioRef s = None /\ isPlayingSynth s = true /\
  deliver (B := Examples.integers) Examples.two_sections false ClickOriginal s = s /\
  original_sounding s = false.
Proof.
  cbv zeta.
  destruct (original_request_without_source (B := Examples.integers)
              Examples.two_sections false [ClickSynth 0; ClickOriginal])
    as (H1 & H2 & _).
  destruct (H2 eq_refl) as (H3 & _ & H4).
  split; [now apply H1|]. split; [reflexivity|]. split; [exact H3|exact H4].
Defined.

(** *** The playhead *)
Section Playhead.
Context (data : GuitarTabResult).

(** In a render in which [isPlayingSynth] is true, with a context in
    place, the body of [updatePlaybackProgress] is the tick of the design:
    before the start time it only asks for the next frame; from the start
    time on, at a positive tempo, it shows the entry of [flatMeasures] at
    [floor (floor (elapsed / secondsPerPosition) / 16)] with the position
    [floor (elapsed / secondsPerPosition) mod 16], or stops everything past
    the last measure. *)
Lemma updatePlaybackProgress_playing r now s ctx :
  synthContextRef s = Some ctx -> r_isPlayingSynth r = true ->
  let elapsed := (now - synthStartTimeRef s)%Q in
  let totalPositions := Qfloor (elapsed / secondsPerPosition data) in
  let absoluteMeasure := totalPositions / 16 in
  let positionInMeasure := totalPositions mod 16 in
  ((elapsed < 0)%Q ->
     updatePlaybackProgress data r now s = requestAnimationFrame r s) /\
  ((0 <= elapsed)%Q -> (0 < tempo_of data)%Q ->
     0 <= totalPositions /\ 0 <= absoluteMeasure /\ 0 <= positionInMeasure < 16 /\
     (forall fm, nth_error (flatMeasures data) (Z.to_nat absoluteMeasure) = Some fm ->
        updatePlaybackProgress data r now s =
        requestAnimationFrame r
          (set_cursor (Some (Z.of_nat (sectionIdx fm)))
                      (Some (Z.of_nat (measureIdx fm)))
                      (Some positionInMeasure) s)) /\
     (Z.of_nat (List.length (flatMeasures data)) <= absoluteMeasure ->
        updatePlaybackProgress data r now s = stopAllPlayback s)).
Proof.
  intros Hc Hr. cbv zeta. unfold updatePlaybackProgress. rewrite Hc, Hr.
  cbn [negb]. split.
  - intros Hneg. unfold Qlt_bool.
    destruct (Qle_bool 0 (now - synthStartTimeRef s)) eqn:E; [|reflexivity].
    apply Qle_bool_iff in E. exfalso. eapply Qlt_not_le; eassumption.
  - intros Hpos Htempo.
    assert (Qlt_bool (now - synthStartTimeRef s) 0 = false) as ->.
    { unfold Qlt_bool. apply Qle_bool_iff in Hpos. now rewrite Hpos. }
    set (tp := Qfloor ((now - synthStartTimeRef s) / secondsPerPosition data)).
    assert (0 <= tp) as Htp.
    { unfold tp. change 0 with (Qfloor 0). apply Qfloor_resp_le.
      apply Qle_shift_div_l.
      - unfold secondsPerPosition, secondsPerMeasure.
        apply Qlt_shift_div_l; [reflexivity|].
        rewrite Qmult_0_l.
        apply Qmult_lt_0_compat; [|reflexivity].
        apply Qlt_shift_div_l; [exact Htempo|]. rewrite Qmult_0_l. reflexivity.
      - now rewrite Qmult_0_l. }
    assert (0 <= tp / 16) as Ham by (apply Z.div_pos; lia).
    assert (Z.rem tp 16 = tp mod 16) as -> by (apply Z.rem_mod_nonneg; lia).
    split; [exact Htp|]. split; [exact Ham|].
    split; [apply Z.mod_pos_bound; lia|]. split.
    + intros fm Hfm.
      assert ((tp / 16 <? Z.of_nat (List.length (flatMeasures data))) = true) as ->.
      { apply Z.ltb_lt.
        assert (nth_error (flatMeasures data) (Z.to_nat (tp / 16)) <> None) as Hn
          by congruence.
        apply nth_error_Some in Hn. lia. }
      unfold at_Z.
      assert ((tp / 16 <? 0) = false) as -> by (apply Z.ltb_ge; lia).
      now rewrite Hfm.
    + intros Hend.
      assert ((tp / 16 <? Z.of_nat (List.length (flatMeasures data))) = false) as ->
        by (apply Z.ltb_ge; lia).
      reflexivity.
Qed.

End Playhead.

Section Stale.
Context {B : Builtins} (data : GuitarTabResult).

(** Every callback that [playSynth] or a tick hands to
    [requestAnimationFrame] belongs to a render in which [isPlayingSynth]
    is false, so a tick never gets past its first line: in whatever state
    the component reaches, no cursor is shown, and running a pending frame
    callback only removes it from the queue. *)
Lemma tick_never_reports (hasAudio : bool) (evs : list Event) (id : nat) (now : Q) :
  let s := run data evs (mounted hasAudio) in
  no_cursor s /\
  (forall r, In (id, r) (frames s) -> r_isPlayingSynth r = false) /\
  no_cursor (step data (AnimationFrame id now) s) /\
  (step data (AnimationFrame id now) s = s \/
   step data (AnimationFrame id now) s =
   set_frames (animationFrameRef s) (remove_frame id (frames s)) (lastFrame s) s).
Proof.
  cbv zeta. set (s := run data evs (mounted hasAudio)).
  assert (Inv s) as I by (apply Inv_run, Inv_mounted).
  split; [apply (inv_cursor _ I)|].
  split; [intros r Hin; apply (inv_frames _ I _ _ Hin)|].
  split; [apply (inv_cursor _ (Inv_step data _ s I))|].
  cbn [step]. destruct (find _ (frames s)) as [[id' r]|] eqn:E; [|now left].
  right. apply find_some in E. destruct E as [Hin _].
  destruct (inv_frames s I _ _ Hin) as (_ & _ & Hr).
  now apply updatePlaybackProgress_stale.
Qed.

End Stale.

(** C1, on the code. A piece of two sections of one measure each at tempo
    120 (a measure lasts 2 s, a position 0.125 s); Synth is pressed when
    the new context's clock reads 0, so playback starts at 0.2. The frame
    callback then runs at 2.21, that is 0.01 s into the second measure: the
    tick of the design shows section 1, measure 0, position 0 and asks for
    the next frame. The callback queued by [playSynth] is the one of the
    render in which [isPlayingSynth] was still false; it returns at its
    guard: no cursor is set and no further frame is requested, though the
    session goes on playing. Run in a render that is playing, the same
    body reports section 1, measure 0, position 0. *)
Theorem queued_tick_returns_at_guard :
  let s := step (B := Examples.integers) Examples.two_sections (ClickSynth 0)
             (mounted false) in
  let s' := step (B := Examples.integers) Examples.two_sections
              (AnimationFrame 1 2.21) s in
  let playing := {| r_isPlayingOriginal := false; r_isPlayingSynth := true;
                    r_metronomeEnabled := false |} in
  let s'' := updatePlaybackProgress Examples.two_sections playing 2.21%Q s in
  frames s = [(1%nat, render_of (mounted false))] /\
  isPlayingSynth s' = true /\
  activeSectionIdx s' = None /\ activeMeasureIdx s' = None /\
  activePosIdx s' = None /\ frames s' = [] /\
  activeSectionIdx s'' = Some 1 /\ activeMeasureIdx s'' = Some 0 /\
  activePosIdx s'' = Some 0.
Proof.
  cbv zeta. repeat split; vm_compute; reflexivity.
Qed.

End Controller.

(* ================================================================== *)
(** ** The scheduler                                                   *)
(* ================================================================== *)

Module Scheduler.
Import Js Types TabRenderer Props.

Section Skipping.
Context {B : Builtins} (data : GuitarTabResult).

Lemma schedule_note_unparsable ctx t note :
  fret_parses note = false -> schedule_note data ctx t note = Ret [].
Proof.
  unfold fret_parses, schedule_note.
  now destruct (parseInt (fret_text (note_fret note))).
Qed.

Lemma forEach_skip {A} (f : A -> result (list Oscillator)) (p : A -> bool) l :
  (forall x, p x = false -> f x = Ret []) ->
  forEach f l = forEach f (filter p l).
Proof.
  intros H. induction l as [|x r IH]; [reflexivity|].
  cbn [filter]. destruct (p x) eqn:E.
  - cbn [forEach]. now rewrite IH.
  - cbn [forEach]. rewrite (H x E), IH.
    now destruct (forEach f (filter p r)).
Qed.

Lemma schedule_measure_parsable metronome ctx t m :
  schedule_measure data metronome ctx t m =
  schedule_measure data metronome ctx t (parsable_only m).
Proof.
  unfold schedule_measure. cbn [notes parsable_only].
  change (@TabRenderer.by_position) with (by_key note_position).
  rewrite <- SortFacts.filter_sort.
  rewrite <- (forEach_skip (schedule_note data ctx t) fret_parses).
  - reflexivity.
  - intros x. apply schedule_note_unparsable.
Qed.

Lemma schedule_measures_parsable metronome ctx ms : forall t,
  schedule_measures data metronome ctx t ms =
  schedule_measures data metronome ctx t (map parsable_only ms).
Proof.
  induction ms as [|m r IH]; intros t; [reflexivity|].
  cbn [map schedule_measures].
  now rewrite <- schedule_measure_parsable, IH.
Qed.

Lemma schedule_sections_parsable metronome ctx ss : forall t,
  schedule_sections data metronome ctx t ss =
  schedule_sections data metronome ctx t (parsable_sections ss).
Proof.
  induction ss as [|sec r IH]; intros t; [reflexivity|].
  cbn [parsable_sections map schedule_sections measures].
  rewrite <- schedule_measures_parsable.
  destruct (schedule_measures _ _ _ _ _) as [os [t'|e]]; [|reflexivity].
  fold (parsable_sections r). now rewrite IH.
Qed.

End Skipping.

(** C9. A note whose fret text does not parse starts no oscillator, and
    the schedule is exactly the one without it: each measure schedules the
    same nodes at the same times as the measure with the unparsable notes
    removed, wherever they stand among the others, and the whole of
    [playSynth] (every onset, every measure start) is the same as on the
    piece without them. *)
Theorem unparsable_fret_shifts_nothing {B : Builtins} (data : GuitarTabResult) :
  (forall ctx t note, fret_parses note = false ->
     schedule_note data ctx t note = Ret []) /\
  (forall metronome ctx t cs before bad after,
     fret_parses bad = false ->
     schedule_measure data metronome ctx t
       {| chords := cs; notes := before ++ bad :: after |} =
     schedule_measure data metronome ctx t
       {| chords := cs; notes := before ++ after |}) /\
  (forall metronome ctx t m,
     schedule_measure data metronome ctx t m =
     schedule_measure data metronome ctx t (parsable_only m)) /\
  (forall r now s,
     playSynth data r now s = playSynth (without_unparsable data) r now s).
Proof.
  split; [|split; [|split]].
  - intros. now apply schedule_note_unparsable.
  - intros metronome ctx t cs before bad after Hbad.
    rewrite schedule_measure_parsable.
    rewrite (schedule_measure_parsable data metronome ctx t
               {| chords := cs; notes := before ++ after |}).
    unfold parsable_only. cbn [chords notes].
    rewrite !filter_app. cbn [filter]. now rewrite Hbad.
  - intros. apply schedule_measure_parsable.
  - intros r now s.
    unfold playSynth. cbn [sections without_unparsable].
    rewrite <- (Controller.schedule_sections_ext data (without_unparsable data))
      by reflexivity.
    now rewrite <- (schedule_sections_parsable data).
Qed.

(** *** parseInt *)











(** *** Open strings *)

Lemma inherited_not_a_key n : inherited n = true -> assoc n TUNING_FREQS = None.
Proof.
  unfold inherited, Object_prototype. cbn [existsb].
  repeat match goal with
         | |- context [String.eqb n ?k] =>
             let E := fresh "E" in
             destruct (String.eqb n k) eqn:E;
             [apply String.eqb_eq in E; subst n; reflexivity|]
         end.
  discriminate.
Qed.

Lemma tuningBaseFreqs_open_strings (data : GuitarTabResult) :
  plain_tuning data -> tuningBaseFreqs data = open_strings (tuning data).
Proof.
  unfold plain_tuning, tuningBaseFreqs, open_strings. intros ->.
  unfold tuning_name.
  destruct (tuning data) as [t|]; [|reflexivity].
  destruct (String.eqb t "") eqn:E; [|reflexivity].
  apply String.eqb_eq in E. subst t. reflexivity.
Qed.

(** Under an inherited name there is no open string at any index. *)
Lemma tuningBaseFreqs_inherited (data : GuitarTabResult) :
  inherited (tuning_name data) = true -> tuningBaseFreqs data = [].
Proof.
  intros H. unfold tuningBaseFreqs. now rewrite (inherited_not_a_key _ H), H.
Qed.

Lemma open_strings_six name : List.length (open_strings name) = 6%nat.
Proof.
  unfold open_strings. destruct name as [n|]; [|reflexivity].
  unfold TUNING_FREQS. cbn [assoc].
  repeat match goal with
         | |- context [String.eqb ?a ?b] => destruct (String.eqb a b)
         end; reflexivity.
Qed.

Lemma open_strings_bounds name :
  Forall (fun f => (0 < f)%Q /\ (f <= 330)%Q) (open_strings name).
Proof.
  unfold open_strings. destruct name as [n|].
  - unfold TUNING_FREQS. cbn [assoc].
    repeat match goal with
           | |- context [String.eqb ?a ?b] => destruct (String.eqb a b)
           end; repeat constructor; easy.
  - repeat constructor; easy.
Qed.

Lemma at_Q_integer {A} (l : list A) (q : Q) (z : Z) :
  (q == inject_Z z)%Q -> 0 <= z -> at_Q l q = nth_error l (Z.to_nat z).
Proof.
  intros Hq Hz. unfold at_Q, at_Z.
  assert (Qfloor q = z) as -> by (rewrite Hq; apply Qfloor_Z).
  assert (Qeq_bool (inject_Z z) q = true) as ->
    by (apply Qeq_bool_iff; now symmetry).
  now apply Z.ltb_ge in Hz as ->.
Qed.

(** The open string of string [k]. *)
Lemma open_string (data : GuitarTabResult) (s : Q) (k : Z) :
  plain_tuning data -> 1 <= k <= 6 -> (s == inject_Z k)%Q ->
  exists openFreq,
    nth_error (open_strings (tuning data)) (Z.to_nat (6 - k)) = Some openFreq /\
    at_Q (tuningBaseFreqs data) (6 - s) = Some openFreq /\
    (0 < openFreq)%Q /\ (openFreq <= 330)%Q.
Proof.
  intros Hp Hk Hs.
  destruct (nth_error (open_strings (tuning data)) (Z.to_nat (6 - k)))
    as [openFreq|] eqn:E.
  2:{ apply nth_error_None in E. rewrite open_strings_six in E. lia. }
  exists openFreq. split; [reflexivity|]. split.
  - rewrite (tuningBaseFreqs_open_strings data Hp).
    rewrite (at_Q_integer _ (6 - s) (6 - k)); [exact E| |lia].
    rewrite Hs. replace (6 - k) with (6 + - k) by lia.
    rewrite inject_Z_plus, inject_Z_opp. reflexivity.
  - pose proof (open_strings_bounds (tuning data)) as Hb.
    rewrite Forall_forall in Hb. apply Hb. eapply nth_error_In. exact E.
Qed.

(** *** Frequencies *)

Lemma Qlt_bool_iff a b : Qlt_bool a b = true <-> (a < b)%Q.
Proof.
  unfold Qlt_bool. split.
  - intros H. apply negb_true_iff in H. apply Qnot_le_lt. intros Hle.
    apply Qle_bool_iff in Hle. congruence.
  - intros H. apply negb_true_iff. destruct (Qle_bool b a) eqn:E; [|reflexivity].
    apply Qle_bool_iff in E. exfalso. eapply Qlt_not_le; eassumption.
Qed.

Lemma Q2R_2 : Q2R 2 = 2%R.
Proof. unfold Q2R. cbn. lra. Qed.

Lemma frequency_pos b n : (0 < b)%Q -> (0 < frequency b n)%R.
Proof.
  intros Hb. unfold frequency. apply Rmult_lt_0_compat.
  - replace 0%R with (Q2R 0) by (unfold Q2R; cbn; lra). now apply Qlt_Rlt.
  - apply exp_pos.
Qed.

Lemma Rpower_2_twelfth (n : Z) : (Rpower 2 (IZR n / 12) ^ 12 = powerRZ 2 n)%R.
Proof.
  rewrite <- (Rpower_pow 12) by apply exp_pos.
  rewrite Rpower_mult.
  replace (IZR n / 12 * INR 12)%R with (IZR n).
  - symmetry. apply powerRZ_Rpower. lra.
  - replace (INR 12) with 12%R by (cbn; lra). field.
Qed.

(** The twelfth power of the frequency is rational. *)
Lemma frequency_pow12 b n :
  (frequency b n ^ 12)%R = Q2R (Qpower b 12 * Qpower 2 n).
Proof.
  unfold frequency. rewrite Rpow_mult_distr, Rpower_2_twelfth.
  rewrite Q2R_mult.
  rewrite (RMicromega.Q2RpowerRZ b 12) by (right; lia).
  rewrite (RMicromega.Q2RpowerRZ 2 n) by (left; easy).
  rewrite Q2R_2. reflexivity.
Qed.

Lemma pow12_lt (x y : R) :
  (0 < x)%R -> (0 < y)%R -> (x ^ 12 < y ^ 12 <-> x < y)%R.
Proof.
  intros Hx Hy. split.
  - intros H. destruct (Rlt_le_dec x y) as [Hlt|Hle]; [exact Hlt|].
    exfalso. apply (Rlt_irrefl (x ^ 12)). eapply Rlt_le_trans; [exact H|].
    apply pow_incr. lra.
  - intros H. rewrite <- !(Rpower_pow 12) by assumption.
    apply Rlt_Rpower_l; [|lra]. replace (INR 12) with 12%R by (cbn; lra). lra.
Qed.

Lemma float_bound_pos : (0 < Q2R float_bound)%R.
Proof.
  replace 0%R with (Q2R 0) by (unfold Q2R; cbn; lra).
  apply Qlt_Rlt. reflexivity.
Qed.

(** What [is_float] decides: the frequency is below the bound. *)
Lemma is_float_spec b n :
  (0 < b)%Q -> (is_float b n = true <-> (frequency b n < Q2R float_bound)%R).
Proof.
  intros Hb. unfold is_float. rewrite Qlt_bool_iff.
  rewrite <- (pow12_lt _ _ (frequency_pos b n Hb) float_bound_pos).
  rewrite frequency_pow12.
  replace (Q2R float_bound ^ 12)%R with (Q2R (Qpower float_bound 12)).
  - split; [apply Qlt_Rlt|apply Rlt_Qlt].
  - rewrite (RMicromega.Q2RpowerRZ float_bound 12) by (right; lia). reflexivity.
Qed.



(** An open string of the tables, fretted no higher than [max_fret],
    sounds below [330 * 2^100], far below the bound. *)
Lemma is_float_playable f n :
  (0 < f)%Q -> (f <= 330)%Q -> n <= max_fret -> is_float f n = true.
Proof.
  intros Hf Hle Hn. apply (is_float_spec f n Hf).
  assert (frequency f n <= Q2R 330 * powerRZ 2 100)%R as H.
  { unfold frequency. apply Rmult_le_compat.
    - replace 0%R with (Q2R 0) by (unfold Q2R; cbn; lra).
      apply Qle_Rle. now apply Qlt_le_weak.
    - left. apply exp_pos.
    - now apply Qle_Rle.
    - rewrite powerRZ_Rpower by lra.
      apply Rle_Rpower; [lra|].
      unfold max_fret in Hn. apply IZR_le in Hn. lra. }
  eapply Rle_lt_trans; [exact H|].
  replace (Q2R 330 * powerRZ 2 100)%R with (Q2R (330 * Qpower 2 100)).
  - apply Qlt_Rlt. reflexivity.
  - rewrite Q2R_mult, (RMicromega.Q2RpowerRZ 2 100) by (left; easy).
    now rewrite Q2R_2.
Qed.

(** *** One tone *)
Section Tone.
Context {B : Builtins} (data : GuitarTabResult).



Lemma onset_nonneg t p :
  (0 < tempo_of data)%Q -> (0 <= t)%Q -> (0 <= p)%Q ->
  (0 <= t + p * secondsPerPosition data)%Q.
Proof.
  intros Hd Ht Hp. rewrite <- (Qplus_0_r 0). apply Qplus_le_compat; [exact Ht|].
  apply Qmult_le_0_compat; [exact Hp|].
  unfold secondsPerPosition, secondsPerMeasure.
  apply Qlt_le_weak, Qlt_shift_div_l; [reflexivity|]. rewrite Qmult_0_l.
  apply Qmult_lt_0_compat; [|reflexivity].
  apply Qlt_shift_div_l; [exact Hd|]. now rewrite Qmult_0_l.
Qed.

(** The tone of a note on string [k] whose fret parses to [n]. *)
Lemma schedule_note_tone ctx t note k n :
  plain_tuning data -> 1 <= k <= 6 -> (note_string note == inject_Z k)%Q ->
  parseInt (fret_text (note_fret note)) = Some n -> n <= max_fret ->
  (0 < tempo_of data)%Q -> (0 <= t)%Q -> (0 <= note_position note)%Q ->
  exists openFreq,
    nth_error (open_strings (tuning data)) (Z.to_nat (6 - k)) = Some openFreq /\
    schedule_note data ctx t note =
      Ret [node ctx (Tone openFreq n)
             (t + note_position note * secondsPerPosition data) 0.5].
Proof.
  intros Hplain Hk Hs Hp Hn Hd H0 Hpn.
  pose proof (onset_nonneg t (note_position note) Hd H0 Hpn) as Ht.
  destruct (open_string data (note_string note) k Hplain Hk Hs)
    as (openFreq & E & Eat & Hpos & Hle).
  exists openFreq. split; [exact E|].
  unfold schedule_note. rewrite Hp, Eat.
  rewrite (is_float_playable openFreq n Hpos Hle Hn).
  unfold start_node, Qlt_bool. apply Qle_bool_iff in Ht. now rewrite Ht.
Qed.

End Tone.







End Scheduler.

(* ================================================================== *)
(** ** The sanitizer                                                   *)
(* ================================================================== *)

Module Sanitizer.
Import Js GeminiService Props.

Lemma lookup_put_same k x ps : lookup k (put k x ps) = x.
Proof.
  induction ps as [|[k' v] r IH]; cbn [put lookup].
  - now rewrite String.eqb_refl.
  - destruct (String.eqb k k') eqn:E; cbn [lookup].
    + now rewrite String.eqb_refl.
    + now rewrite E.
Qed.

Lemma lookup_put_other k k' x ps :
  String.eqb k' k = false -> lookup k' (put k x ps) = lookup k' ps.
Proof.
  intros H. induction ps as [|[k0 v] r IH]; cbn [put lookup].
  - now rewrite H.
  - destruct (String.eqb k k0) eqn:E; cbn [lookup].
    + apply String.eqb_eq in E. subst k0. now rewrite H.
    + now rewrite IH.
Qed.

Lemma Get_object v k : is_object v = true -> Get v k = Ret (field k v).
Proof. now destruct v. Qed.

Lemma Get_truthy v k : truthy v = true -> Get v k = Ret (field k v).
Proof. now destruct v. Qed.

Lemma Set_object v k x :
  is_object v = true ->
  exists v', Set_ v k x = Ret v' /\ is_object v' = true /\ field k v' = x /\
             forall k', String.eqb k' k = false -> field k' v' = field k' v.
Proof.
  destruct v; try discriminate; intros _; eexists; cbn [Set_ is_object field];
    (split; [reflexivity|]); (split; [reflexivity|]);
    (split; [apply lookup_put_same|]); intros; now apply lookup_put_other.
Qed.

(** What the two monadic loops return when they return. *)
Lemma filterM_Ret {A} (f : A -> result bool) l kept :
  filterM f l = Ret kept ->
  kept = filter (fun x => match f x with Ret true => true | _ => false end) l /\
  forall x, In x l -> exists b, f x = Ret b.
Proof.
  revert kept. induction l as [|x r IH]; intros kept; cbn [filterM filter].
  - intros [= <-]. now split.
  - destruct (f x) as [b|e] eqn:E; cbn [bind]; [|discriminate].
    destruct (filterM f r) as [ys|e] eqn:Er; cbn [bind]; [|discriminate].
    intros [= <-]. destruct (IH ys eq_refl) as [-> Hall]. split.
    + now destruct b.
    + intros y [<-|Hy]; eauto.
Qed.

Lemma mapM_Ret {A C} (f : A -> result C) l out :
  mapM f l = Ret out -> Forall2 (fun x y => f x = Ret y) l out.
Proof.
  revert out. induction l as [|x r IH]; intros out; cbn [mapM].
  - intros [= <-]. constructor.
  - destruct (f x) as [y|e] eqn:E; cbn [bind]; [|discriminate].
    destruct (mapM f r) as [ys|e] eqn:Er; cbn [bind]; [|discriminate].
    intros [= <-]. constructor; auto.
Qed.

Lemma mapM_total {A C} (f : A -> result C) (P : C -> Prop) l :
  (forall x, In x l -> exists y, f x = Ret y /\ P y) ->
  exists out, mapM f l = Ret out /\ Forall P out.
Proof.
  induction l as [|x r IH]; intros H; cbn [mapM].
  - exists []. now split.
  - destruct (H x (or_introl eq_refl)) as (y & -> & Py).
    destruct IH as (ys & -> & Pys); [intros; apply H; now right|].
    exists (y :: ys). split; [reflexivity|now constructor].
Qed.

Lemma filterM_total {A} (f : A -> result bool) l :
  (forall x, In x l -> exists b, f x = Ret b) ->
  filterM f l =
  Ret (filter (fun x => match f x with Ret true => true | _ => false end) l).
Proof.
  induction l as [|x r IH]; intros H; cbn [filterM filter]; [reflexivity|].
  destruct (H x (or_introl eq_refl)) as (b & ->).
  rewrite IH by (intros; apply H; now right). now destruct b.
Qed.

(** *** Rounding and clamping *)

Lemma Qle_bool_inject a b : Qle_bool (inject_Z a) (inject_Z b) = (a <=? b).
Proof.
  destruct (a <=? b) eqn:E.
  - apply Qle_bool_iff. rewrite <- Zle_Qle. now apply Z.leb_le.
  - destruct (Qle_bool _ _) eqn:E'; [|reflexivity].
    apply Qle_bool_iff in E'. rewrite <- Zle_Qle in E'.
    apply Z.leb_le in E'. congruence.
Qed.

Lemma clamp_Num lo hi q :
  clamp lo hi (Num q) = num_of_Z (clamp_Z lo hi (round_Q q)).
Proof.
  unfold clamp, clamp_Z, Math_round, Math_max, Math_min, num_of_Z.
  rewrite Qle_bool_inject.
  destruct (lo <=? round_Q q) eqn:E1; rewrite Qle_bool_inject.
  - apply Z.leb_le in E1. rewrite Z.max_r by exact E1.
    destruct (round_Q q <=? hi) eqn:E2.
    + apply Z.leb_le in E2. now rewrite Z.min_l.
    + apply Z.leb_gt in E2. rewrite Z.min_r by lia. reflexivity.
  - apply Z.leb_gt in E1. rewrite Z.max_l by lia.
    destruct (lo <=? hi) eqn:E2.
    + apply Z.leb_le in E2. now rewrite Z.min_l.
    + apply Z.leb_gt in E2. rewrite Z.min_r by lia. reflexivity.
Qed.

Lemma clamp_Z_range lo hi z : lo <= hi -> lo <= clamp_Z lo hi z <= hi.
Proof. unfold clamp_Z. lia. Qed.

(** *** One note *)
Section Notes.
Context {B : Builtins}.

Lemma keep_note_true n :
  keep_note n = Ret true ->
  truthy n = true /\
  (exists x, field "string" n = VNum x) /\
  (exists p, ToNumber (field "position" n) = Ret (Num p) /\ (0 <= p)%Q).
Proof.
  unfold keep_note. destruct (truthy n) eqn:Et; cbn [negb]; [|discriminate].
  rewrite !(Get_truthy n _ Et). cbn [bind].
  destruct (field "string" n) eqn:Es; cbn [typeof_number negb]; try discriminate.
  destruct (ToNumber (field "position" n)) as [[|p]|e]; cbn [bind ge0];
    try discriminate.
  intros [= H]. apply Qle_bool_iff in H. eauto 8.
Qed.

Lemma keep_note_not_number n :
  typeof_number (field "string" n) = false -> survives n = false.
Proof.
  unfold survives, keep_note. destruct (truthy n) eqn:Et; cbn [negb]; [|reflexivity].
  rewrite !(Get_truthy n _ Et). cbn [bind]. now intros ->.
Qed.

Lemma keep_note_negative n q :
  ToNumber (field "position" n) = Ret (Num q) -> (q < 0)%Q -> survives n = false.
Proof.
  intros Hp Hq.
  unfold survives, keep_note. destruct (truthy n) eqn:Et; cbn [negb]; [|reflexivity].
  rewrite !(Get_truthy n _ Et). cbn [bind].
  destruct (typeof_number (field "string" n)); cbn [negb]; [|reflexivity].
  rewrite Hp. cbn [bind ge0].
  destruct (Qle_bool 0 q) eqn:E; [|reflexivity].
  apply Qle_bool_iff in E. exfalso. eapply Qlt_not_le; eassumption.
Qed.

Lemma fix_note_sanitized n m :
  keep_note n = Ret true -> fix_note n = Ret m -> sanitized_from n m.
Proof.
  intros Hk Hf. destruct (keep_note_true n Hk) as (Et & (x & Hx) & (p & Hp & Hp0)).
  unfold fix_note in Hf. rewrite !(Get_truthy n _ Et) in Hf. cbn [bind] in Hf.
  rewrite Hx, Hp in Hf. cbn [ToNumber bind] in Hf.
  destruct (opt_toString (field "fret" n)) as [ft|e] eqn:Eft; cbn [bind] in Hf;
    [|discriminate].
  injection Hf as <-. unfold sanitized_from. cbn [field].
  split; [exact Et|]. split; [|split; [|split; [|split]]].
  - exists x. split; [exact Hx|].
    rewrite lookup_put_other, lookup_put_other, lookup_put_same by reflexivity.
    split; [reflexivity|]. intros q ->. now rewrite clamp_Num.
  - exists p. split; [exact Hp|]. split; [exact Hp0|].
    rewrite lookup_put_other, lookup_put_same by reflexivity.
    now rewrite clamp_Num.
  - rewrite lookup_put_same. unfold opt_toString in Eft.
    intros [E|E]; rewrite E in Eft; now injection Eft as <-.
  - rewrite lookup_put_same. intros t H1 H2 Ht.
    unfold opt_toString in Eft. rewrite Ht in Eft.
    destruct (field "fret" n); try easy; cbn [bind] in Eft;
      injection Eft as <-; cbn [truthy]; now destruct (String.eqb t "").
  - intros k H1 H2 H3. now rewrite !lookup_put_other.
Qed.

End Notes.

(** *** One measure *)
Section Measures.
Context {B : Builtins}.

(** [if (!v.k) v.k = []]. *)
Lemma ensure_list v k :
  is_object v = true ->
  exists v',
    (if truthy (field k v) then Ret v else Set_ v k (VArr [] [])) = Ret v' /\
    is_object v' = true /\
    field k v' = (if truthy (field k v) then field k v else VArr [] []) /\
    forall k', String.eqb k' k = false -> field k' v' = field k' v.
Proof.
  intros Ho. destruct (truthy (field k v)).
  - exists v. now repeat split.
  - now apply Set_object.
Qed.

Lemma sanitize_measure_object m m' :
  sanitize_measure m = Ret m' -> is_object m = true.
Proof.
  unfold sanitize_measure. destruct m; cbn [Get bind lookup truthy Set_]; easy.
Qed.

(** What a measure looks like when [sanitize_measure] returns. *)
Lemma sanitize_measure_Ret m m' :
  sanitize_measure m = Ret m' ->
  exists out,
    sanitize_notes (raw_notes m) = Ret out /\
    field "notes" m' = VArr out [] /\
    field "chords" m' =
      (if truthy (field "chords" m) then field "chords" m else VArr [] []).
Proof.
  intros H. pose proof (sanitize_measure_object m m' H) as Ho.
  unfold sanitize_measure in H. rewrite (Get_object m _ Ho) in H. cbn [bind] in H.
  destruct (ensure_list m "notes" Ho) as (m1 & E1 & Ho1 & Hn1 & Hk1).
  rewrite E1 in H. cbn [bind] in H.
  rewrite (Get_object m1 _ Ho1) in H. cbn [bind] in H.
  destruct (ensure_list m1 "chords" Ho1) as (m2 & E2 & Ho2 & Hc2 & Hk2).
  rewrite E2 in H. cbn [bind] in H.
  rewrite (Get_object m2 _ Ho2) in H. cbn [bind] in H.
  rewrite (Hk2 "notes" eq_refl), Hn1 in H.
  assert (exists l ps,
            (if truthy (field "notes" m) then field "notes" m else VArr [] [])
            = VArr l ps /\ has "filter" ps = false /\ raw_notes m = l /\
            exists out, sanitize_notes l = Ret out /\
                        Set_ m2 "notes" (VArr out []) = Ret m')
    as (l & ps & El & Hps & Hraw & out & Hout & Hset).
  { unfold raw_notes.
    destruct (if truthy (field "notes" m) then field "notes" m else VArr [] [])
      as [| | | | |l ps|] eqn:El; try discriminate.
    destruct (has "filter" ps) eqn:Hps; [discriminate|].
    destruct (sanitize_notes l) as [out|e] eqn:Hout; cbn [bind] in H; [|discriminate].
    exists l, ps. repeat split; eauto.
    destruct (truthy (field "notes" m)) eqn:Et.
    - now rewrite El.
    - injection El as <- <-. now destruct (field "notes" m). }
  destruct (Set_object m2 "notes" (VArr out []) Ho2) as (m3 & E3 & _ & Hn3 & Hk3).
  rewrite E3 in Hset. injection Hset as <-.
  exists out. rewrite Hraw. split; [exact Hout|]. split; [exact Hn3|].
  now rewrite (Hk3 "chords" eq_refl), Hc2, (Hk1 "chords" eq_refl).
Qed.

End Measures.

(** *** The notes of a measure *)
Section SortedNotes.
Context {B : Builtins}.

Lemma fix_note_position n m :
  keep_note n = Ret true -> fix_note n = Ret m ->
  position_of m = Num (position_key m).
Proof.
  intros Hk Hf. destruct (keep_note_true n Hk) as (Et & (x & Hx) & (p & Hp & Hp0)).
  unfold fix_note in Hf. rewrite !(Get_truthy n _ Et) in Hf. cbn [bind] in Hf.
  rewrite Hx, Hp in Hf. cbn [ToNumber bind] in Hf.
  destruct (opt_toString (field "fret" n)) as [ft|e]; cbn [bind] in Hf; [|discriminate].
  injection Hf as <-. unfold position_of, position_key. cbn [field].
  rewrite lookup_put_other, lookup_put_same by reflexivity.
  now rewrite clamp_Num.
Qed.

Lemma sanitize_notes_Ret l out :
  sanitize_notes l = Ret out ->
  exists mapped,
    Forall2 (fun n m => keep_note n = Ret true /\ fix_note n = Ret m)
      (filter survives l) mapped /\
    out = Array_sort (by_key position_key) mapped.
Proof.
  unfold sanitize_notes.
  destruct (filterM keep_note l) as [kept|e] eqn:Ek; cbn [bind]; [|discriminate].
  destruct (mapM fix_note kept) as [mapped|e] eqn:Em; cbn [bind]; [|discriminate].
  intros [= <-]. exists mapped.
  apply filterM_Ret in Ek. destruct Ek as [-> _].
  apply mapM_Ret in Em. fold (@survives B) in Em.
  assert (Forall2 (fun n m => keep_note n = Ret true /\ fix_note n = Ret m)
            (filter survives l) mapped) as HF.
  { assert (Forall (fun n => keep_note n = Ret true) (filter survives l)) as Hall.
    { apply Forall_forall. intros n Hn. apply filter_In in Hn.
      destruct Hn as [_ Hn]. unfold survives in Hn.
      now destruct (keep_note n) as [[]|]. }
    revert Hall. induction Em; intros Hall; constructor.
    - inversion Hall; subst. now split.
    - apply IHEm. now inversion Hall. }
  split; [exact HF|].
  apply SortFacts.sort_ext. intros a b Ha Hb.
  assert (forall y, In y mapped -> position_of y = Num (position_key y)) as Hpos.
  { clear -HF. induction HF as [|n m ns ms [Hk Hf] _ IH]; intros y Hy; [easy|].
    destruct Hy as [<-|Hy]; [now apply (fix_note_position n)|now apply IH]. }
  unfold GeminiService.by_position, by_key. now rewrite !Hpos.
Qed.

End SortedNotes.

Lemma Forall2_In_r {A C} (R : A -> C -> Prop) l1 l2 y :
  Forall2 R l1 l2 -> In y l2 -> exists x, In x l1 /\ R x y.
Proof.
  induction 1 as [|a b l1 l2 Hab _ IH]; [easy|].
  intros [<-|Hy].
  - exists a. split; [now left|exact Hab].
  - destruct (IH Hy) as (x & Hx & Hr). exists x. split; [now right|exact Hr].
Qed.

(** C5 (amended). When [sanitize_measure] returns, the notes of the
    measure are those raw notes that pass the filter, each in sanitized
    form and sorted by position: every note has its string rounded and
    clamped into 1..6, its position rounded and clamped into 0..15, its
    fret as text, with "0" when the fret is missing or when its text is
    empty; a raw note whose string is not a number, or whose position is
    negative, does not pass; the notes come in ascending position, those of
    equal position in the order they had in the input. *)
Theorem sanitized_measure_notes {B : Builtins} (m m' : value) :
  sanitize_measure m = Ret m' ->
  exists out mapped,
    field "notes" m' = VArr out [] /\
    Forall2 sanitized_from (filter survives (raw_notes m)) mapped /\
    Permutation mapped out /\
    StronglySorted (key_le position_key) out /\
    (forall p, filter (fun x => Qeq_bool (position_key x) p) out =
               filter (fun x => Qeq_bool (position_key x) p) mapped) /\
    (forall x, In x out ->
       exists n, In n (raw_notes m) /\ survives n = true /\ sanitized_from n x) /\
    (forall n, typeof_number (field "string" n) = false -> survives n = false) /\
    (forall n q, ToNumber (field "position" n) = Ret (Num q) -> (q < 0)%Q ->
       survives n = false).
Proof.
  intros H. destruct (sanitize_measure_Ret m m' H) as (out & Hs & Hn & _).
  destruct (sanitize_notes_Ret _ _ Hs) as (mapped & HF & ->).
  assert (Forall2 sanitized_from (filter survives (raw_notes m)) mapped) as HS.
  { eapply Forall2_impl; [|exact HF]. intros n x [Hk Hf].
    now apply fix_note_sanitized. }
  exists (Array_sort (by_key position_key) mapped), mapped.
  split; [exact Hn|]. split; [exact HS|].
  split; [symmetry; apply SortFacts.sort_perm|].
  split; [apply SortFacts.sort_sorted|].
  split; [intros p; apply SortFacts.sort_stable|].
  split; [|split].
  - intros x Hx.
    apply (Permutation_in _ (SortFacts.sort_perm position_key mapped)) in Hx.
    destruct (Forall2_In_r _ _ _ _ HS Hx) as (n & Hin & Hr).
    apply filter_In in Hin. destruct Hin as [Hin Hsv]. eauto.
  - apply keep_note_not_number.
  - apply keep_note_negative.
Qed.

(** The theorem at a measure with the notes [string 7.6, position 17.4],
    [string -3, position 2], [string 2, position -1] (dropped), [null]
    (dropped), a note with no fret and two notes that round to position
    3. *)
Lemma sanitized_measure_notes_witness :
  sanitize_measure (B := Examples.integers) Examples.raw_measure
    = Ret Examples.sanitized_measure /\
  exists out mapped,
    field "notes" Examples.sanitized_measure = VArr out [] /\
    Forall2 (sanitized_from (B := Examples.integers))
      (filter (survives (B := Examples.integers)) (raw_notes Examples.raw_measure))
      mapped /\
    Permutation mapped out /\
    StronglySorted (key_le position_key) out /\
    (forall p, filter (fun x => Qeq_bool (position_key x) p) out =
               filter (fun x => Qeq_bool (position_key x) p) mapped) /\
    (forall x, In x out ->
       exists n, In n (raw_notes Examples.raw_measure) /\
                 survives (B := Examples.integers) n = true /\
                 sanitized_from (B := Examples.integers) n x) /\
    (forall n, typeof_number (field "string" n) = false ->
               survives (B := Examples.integers) n = false) /\
    (forall n q, ToNumber (B := Examples.integers) (field "position" n) = Ret (Num q) ->
                 (q < 0)%Q -> survives (B := Examples.integers) n = false).
Proof.
  split; [reflexivity|].
  apply (sanitized_measure_notes (B := Examples.integers) Examples.raw_measure
           Examples.sanitized_measure).
  reflexivity.
Defined.

(** C5, as stated, fails: a fret that is present as the empty text has the
    empty text as its textual form, yet the sanitized note carries "0". *)
Lemma empty_fret_becomes_0 :
  let n := VObj [("string", VNum (Num 1)); ("fret", VStr "");
                 ("position", VNum (Num 0))] in
  field "fret" n = VStr "" /\
  ToString (B := Examples.integers) (field "fret" n) = Ret "" /\
  sanitize_measure (B := Examples.integers) (VObj [("notes", VArr [n] [])]) =
  Ret (VObj [("notes",
              VArr [VObj [("string", VNum (Num 1)); ("fret", VStr "0");
                          ("position", VNum (Num 0))]] []);
             ("chords", VArr [] [])]).
Proof. cbv zeta. repeat split; reflexivity. Qed.

(** *** What the pass throws *)
Section Throws.
Context {B : Builtins}.

Definition only_TypeError {A} (m : result A) : Prop :=
  forall e, m = Throw e -> e = TypeError.

Lemma only_bind {A C} (m : result A) (k : A -> result C) :
  only_TypeError m -> (forall a, only_TypeError (k a)) -> only_TypeError (bind m k).
Proof.
  intros Hm Hk e. destruct m as [a|e']; cbn [bind].
  - apply Hk.
  - intros [= <-]. now apply Hm.
Qed.

Lemma only_Ret {A} (a : A) : only_TypeError (Ret a).
Proof. intros e; discriminate. Qed.

Lemma only_Throw {A} : only_TypeError (@Throw A TypeError).
Proof. now intros e [= <-]. Qed.

Lemma only_Get v k : only_TypeError (Get v k).
Proof. destruct v; cbn; auto using only_Ret, only_Throw. Qed.

Lemma only_Set v k x : only_TypeError (Set_ v k x).
Proof. destruct v; cbn; auto using only_Ret, only_Throw. Qed.

Lemma only_mapM {A C} (f : A -> result C) l :
  (forall x, only_TypeError (f x)) -> only_TypeError (mapM f l).
Proof.
  intros H. induction l as [|x r IH]; cbn [mapM]; [apply only_Ret|].
  apply only_bind; [apply H|]. intros y.
  apply only_bind; [exact IH|]. intros ys. apply only_Ret.
Qed.

Lemma only_filterM {A} (f : A -> result bool) l :
  (forall x, only_TypeError (f x)) -> only_TypeError (filterM f l).
Proof.
  intros H. induction l as [|x r IH]; cbn [filterM]; [apply only_Ret|].
  apply only_bind; [apply H|]. intros y.
  apply only_bind; [exact IH|]. intros ys. apply only_Ret.
Qed.

Lemma value_elems_ind (P : value -> Prop) :
  P VUndefined -> P VNull -> (forall b, P (VBool b)) -> (forall n, P (VNum n)) ->
  (forall s, P (VStr s)) ->
  (forall l ps, Forall P l -> P (VArr l ps)) ->
  (forall ps, P (VObj ps)) ->
  forall v, P v.
Proof.
  intros HU HN HB HM HS HA HO.
  refine (fix IH (v : value) : P v :=
            match v with
            | VUndefined => HU
            | VNull => HN
            | VBool b => HB b
            | VNum n => HM n
            | VStr s => HS s
            | VArr l ps =>
                HA l ps
                  ((fix go (l : list value) : Forall P l :=
                      match l with
                      | [] => Forall_nil P
                      | x :: r => Forall_cons x (IH x) (go r)
                      end) l)
            | VObj ps => HO ps
            end).
Qed.

Lemma only_ToString : forall v, only_TypeError (ToString v).
Proof.
  induction v as [| |b|n|s0|l ps IHl|ps] using value_elems_ind; cbn [ToString].
  - apply only_Ret.
  - apply only_Ret.
  - destruct b; apply only_Ret.
  - destruct n; apply only_Ret.
  - apply only_Ret.
  - destruct (has "toString" ps); [apply only_Throw|].
    destruct (has "join" ps); [apply only_Ret|].
    induction IHl as [|x r Hx _ IHr]; [apply only_Ret|].
    apply only_bind.
    + destruct x; try apply only_Ret; exact Hx.
    + intros s1. destruct r; [apply only_Ret|].
      apply only_bind; [exact IHr|]. intros; apply only_Ret.
  - destruct (has "toString" ps); [apply only_Throw|apply only_Ret].
Qed.

Lemma only_ToNumber v : only_TypeError (ToNumber v).
Proof.
  destruct v as [| |b|n|s0|l ps|ps]; cbn [ToNumber]; try apply only_Ret.
  - destruct b; apply only_Ret.
  - apply only_bind; [apply only_ToString|intros; apply only_Ret].
  - apply only_bind; [apply only_ToString|intros; apply only_Ret].
Qed.

Lemma only_keep_note n : only_TypeError (keep_note n).
Proof.
  unfold keep_note. destruct (negb (truthy n)); [apply only_Ret|].
  apply only_bind; [apply only_Get|]. intros s0.
  destruct (negb (typeof_number s0)); [apply only_Ret|].
  apply only_bind; [apply only_Get|]. intros p.
  apply only_bind; [apply only_ToNumber|]. intros; apply only_Ret.
Qed.

Lemma only_fix_note n : only_TypeError (fix_note n).
Proof.
  unfold fix_note.
  repeat (apply only_bind;
          [first [apply only_Get | apply only_ToNumber
                 | unfold opt_toString;
                   match goal with
                   | |- only_TypeError (match ?f with _ => _ end) =>
                       destruct f; try apply only_Ret;
                       (apply only_bind; [apply only_ToString|intros; apply only_Ret])
                   end]
          | intros ?]).
  apply only_Ret.
Qed.

Lemma only_sanitize_notes l : only_TypeError (sanitize_notes l).
Proof.
  unfold sanitize_notes.
  apply only_bind; [apply only_filterM, only_keep_note|]. intros kept.
  apply only_bind; [apply only_mapM, only_fix_note|]. intros; apply only_Ret.
Qed.

Lemma only_sanitize_measure m : only_TypeError (sanitize_measure m).
Proof.
  unfold sanitize_measure.
  apply only_bind; [apply only_Get|]. intros n0.
  apply only_bind; [destruct (truthy n0); [apply only_Ret|apply only_Set]|].
  intros m1.
  apply only_bind; [apply only_Get|]. intros c0.
  apply only_bind; [destruct (truthy c0); [apply only_Ret|apply only_Set]|].
  intros m2.
  apply only_bind; [apply only_Get|]. intros ns.
  destruct ns; try apply only_Throw.
  destruct (has "filter" props); [apply only_Throw|].
  apply only_bind; [apply only_sanitize_notes|]. intros; apply only_Set.
Qed.

Lemma only_sanitize_section sec : only_TypeError (sanitize_section sec).
Proof.
  unfold sanitize_section.
  apply only_bind; [apply only_Get|]. intros m0.
  apply only_bind; [destruct (truthy m0); [apply only_Ret|apply only_Set]|].
  intros s1.
  apply only_bind; [apply only_Get|]. intros ms.
  destruct ms; try apply only_Throw.
  destruct (has "forEach" props); [apply only_Throw|].
  apply only_bind; [apply only_mapM, only_sanitize_measure|].
  intros; apply only_Set.
Qed.

Lemma sanitize_sequence l ps raw :
  field "sections" raw = VArr l ps ->
  sanitize raw =
  if has "forEach" ps then Throw TypeError
  else bind (mapM sanitize_section l) (fun l' => Set_ raw "sections" (VArr l' ps)).
Proof.
  intros H. unfold sanitize.
  assert (is_object raw = true) as Ho by (destruct raw; try discriminate; reflexivity).
  rewrite (Get_object raw _ Ho), H. reflexivity.
Qed.

Lemma orb_negb_false_r b : b || negb false = true.
Proof. now destruct b. Qed.

(** The structural failure is raised for exactly one reason. *)
Lemma sanitize_INVALID_STRUCTURE raw :
  sanitize raw = Throw (TranscriptionError INVALID_STRUCTURE) <->
  raw <> VNull /\ raw <> VUndefined /\ isArray (field "sections" raw) = false.
Proof.
  destruct (isArray (field "sections" raw)) eqn:Ea.
  - split; [|intros (_ & _ & H); discriminate].
    destruct (field "sections" raw) as [| | | | |l ps|] eqn:E; try discriminate.
    rewrite (sanitize_sequence l ps raw E). intros H. exfalso.
    assert (TranscriptionError INVALID_STRUCTURE = TypeError) as Habs; [|discriminate].
    revert H. generalize (TranscriptionError INVALID_STRUCTURE). intros e.
    destruct (has "forEach" ps); [apply only_Throw|].
    apply only_bind; [apply only_mapM, only_sanitize_section|intros; apply only_Set].
  - unfold sanitize. destruct raw as [| |b|n|s0|l ps|ps]; cbn [Get bind].
    + split; [discriminate|intros (_ & H & _); congruence].
    + split; [discriminate|intros (H & _); congruence].
    + split; [intros _; repeat split; discriminate|reflexivity].
    + split; [intros _; repeat split; discriminate|reflexivity].
    + split; [intros _; repeat split; discriminate|reflexivity].
    + cbn [field] in Ea. rewrite Ea, orb_negb_false_r.
      split; [intros _; repeat split; discriminate|reflexivity].
    + cbn [field] in Ea. rewrite Ea, orb_negb_false_r.
      split; [intros _; repeat split; discriminate|reflexivity].
Qed.

End Throws.

(** *** Inputs the pass repairs *)
Section Repairs.
Context {B : Builtins}.

Lemma ToNumber_primitive v : is_primitive v = true -> exists x, ToNumber v = Ret x.
Proof. destruct v as [| |[]| | | |]; cbn; try discriminate; eauto. Qed.

Lemma opt_toString_primitive v :
  is_primitive v = true -> exists ft, opt_toString v = Ret ft.
Proof. destruct v as [| |[]|[]| | |]; cbn; try discriminate; eauto. Qed.

Lemma keep_note_shaped n : note_shaped n = true -> exists b, keep_note n = Ret b.
Proof.
  unfold note_shaped. intros H. apply andb_prop in H. destruct H as [Hp _].
  unfold keep_note. destruct (truthy n) eqn:Et; cbn [negb]; [|eauto].
  rewrite !(Get_truthy n _ Et). cbn [bind].
  destruct (typeof_number (field "string" n)); cbn [negb]; [|eauto].
  destruct (ToNumber_primitive _ Hp) as (x & ->). cbn [bind]. eauto.
Qed.

Lemma fix_note_shaped n :
  note_shaped n = true -> keep_note n = Ret true -> exists m, fix_note n = Ret m.
Proof.
  unfold note_shaped. intros H Hk. apply andb_prop in H. destruct H as [Hp Hf].
  destruct (keep_note_true n Hk) as (Et & (x & Hx) & (p & Hpn & _)).
  unfold fix_note. rewrite !(Get_truthy n _ Et). cbn [bind].
  rewrite Hx, Hpn. cbn [ToNumber bind].
  destruct (opt_toString_primitive _ Hf) as (ft & ->). cbn [bind]. eauto.
Qed.

Lemma sanitize_notes_shaped l :
  forallb note_shaped l = true -> exists out, sanitize_notes l = Ret out.
Proof.
  intros H. rewrite forallb_forall in H. unfold sanitize_notes.
  rewrite filterM_total by (intros x Hx; now apply keep_note_shaped, H).
  cbn [bind].
  destruct (mapM_total fix_note (fun _ => True)
              (filter (fun x => match keep_note x with Ret true => true | _ => false end) l))
    as (mapped & -> & _).
  - intros x Hx. apply filter_In in Hx. destruct Hx as [Hin Hk].
    destruct (keep_note x) as [[]|] eqn:E; try discriminate.
    destruct (fix_note_shaped x (H x Hin) E) as (m & ->). eauto.
  - cbn [bind]. eauto.
Qed.

Lemma list_or_missing_cases ok v :
  list_or_missing ok v = true ->
  (exists l, v = VArr l [] /\ forallb ok l = true) \/
  (truthy v = false /\ isArray v = false).
Proof.
  unfold list_or_missing. destruct v as [| |b|n|s0|l [|p ps]|ps]; cbn [truthy negb isArray];
    intros H; try discriminate; eauto.
  all: right; split; [now apply negb_true_iff in H|reflexivity].
Qed.

Lemma sanitize_measure_shaped m :
  measure_shaped m = true ->
  exists m', sanitize_measure m = Ret m' /\ complete_measure m' = true.
Proof.
  unfold measure_shaped. intros H.
  apply andb_prop in H. destruct H as [H Hc].
  apply andb_prop in H. destruct H as [Ho Hn].
  unfold sanitize_measure. rewrite (Get_object m _ Ho). cbn [bind].
  destruct (ensure_list m "notes" Ho) as (m1 & -> & Ho1 & Hn1 & Hk1). cbn [bind].
  rewrite (Get_object m1 _ Ho1). cbn [bind].
  destruct (ensure_list m1 "chords" Ho1) as (m2 & -> & Ho2 & Hc2 & Hk2). cbn [bind].
  rewrite (Get_object m2 _ Ho2). cbn [bind].
  rewrite (Hk2 "notes" eq_refl), Hn1.
  assert (exists l, (if truthy (field "notes" m) then field "notes" m else VArr [] [])
                    = VArr l [] /\ forallb note_shaped l = true) as (l & -> & Hl).
  { destruct (list_or_missing_cases _ _ Hn) as [(l & E & Hl)|(Et & _)].
    - rewrite E. cbn [truthy]. eauto.
    - rewrite Et. exists []. now split. }
  cbn [has]. destruct (sanitize_notes_shaped l Hl) as (out & ->). cbn [bind].
  destruct (Set_object m2 "notes" (VArr out []) Ho2) as (m3 & -> & _ & Hn3 & Hk3).
  exists m3. split; [reflexivity|]. unfold complete_measure.
  rewrite Hn3, (Hk3 "chords" eq_refl), Hc2, (Hk1 "chords" eq_refl).
  destruct (list_or_missing_cases _ _ Hc) as [(cs & E & _)|(Et & _)].
  - now rewrite E.
  - now rewrite Et.
Qed.

Lemma sanitize_section_shaped sec :
  section_shaped sec = true ->
  exists sec', sanitize_section sec = Ret sec' /\ complete_section sec' = true.
Proof.
  unfold section_shaped. intros H. apply andb_prop in H. destruct H as [Ho Hm].
  unfold sanitize_section. rewrite (Get_object sec _ Ho). cbn [bind].
  destruct (ensure_list sec "measures" Ho) as (s1 & -> & Ho1 & Hm1 & Hk1). cbn [bind].
  rewrite (Get_object s1 _ Ho1). cbn [bind]. rewrite Hm1.
  assert (exists l, (if truthy (field "measures" sec) then field "measures" sec
                     else VArr [] []) = VArr l [] /\
                    forallb measure_shaped l = true) as (l & -> & Hl).
  { destruct (list_or_missing_cases _ _ Hm) as [(l & E & Hl)|(Et & _)].
    - rewrite E. cbn [truthy]. eauto.
    - rewrite Et. exists []. now split. }
  cbn [has]. rewrite forallb_forall in Hl.
  destruct (mapM_total sanitize_measure (fun m' => complete_measure m' = true) l)
    as (l' & -> & Hl').
  { intros x Hx. now apply sanitize_measure_shaped, Hl. }
  cbn [bind].
  destruct (Set_object s1 "measures" (VArr l' []) Ho1) as (s2 & -> & _ & Hm2 & _).
  exists s2. split; [reflexivity|]. unfold complete_section. rewrite Hm2.
  apply forallb_forall. now apply Forall_forall.
Qed.

Lemma sanitize_well_shaped raw :
  well_shaped raw = true ->
  exists out, sanitize raw = Ret out /\ complete out = true.
Proof.
  unfold well_shaped. intros H.
  destruct (field "sections" raw) as [| | | | |l [|p ps]|] eqn:E; try discriminate.
  rewrite (sanitize_sequence l [] raw E). cbn [has].
  rewrite forallb_forall in H.
  destruct (mapM_total sanitize_section (fun s' => complete_section s' = true) l)
    as (l' & -> & Hl').
  { intros x Hx. now apply sanitize_section_shaped, H. }
  cbn [bind].
  assert (is_object raw = true) as Ho by (destruct raw; try discriminate; reflexivity).
  destruct (Set_object raw "sections" (VArr l' []) Ho) as (out & -> & _ & Hs & _).
  exists out. split; [reflexivity|]. unfold complete. rewrite Hs.
  apply forallb_forall. now apply Forall_forall.
Qed.

End Repairs.

(** *** Inputs the pass rejects *)
Section Rejections.
Context {B : Builtins}.

Lemma mapM_fails {A C} (f : A -> result C) l :
  (exists x, In x l /\ exists e, f x = Throw e) -> exists e, mapM f l = Throw e.
Proof.
  induction l as [|y r IH]; intros (x & Hin & e & Hx); [destruct Hin|].
  cbn [mapM]. destruct (f y) as [fy|e'] eqn:Ey; cbn [bind]; [|eauto].
  destruct Hin as [->|Hin]; [congruence|].
  destruct IH as (e2 & ->); [eauto|]. cbn [bind]. eauto.
Qed.

Lemma mapM_TypeError {A C} (f : A -> result C) l :
  (forall x, only_TypeError (f x)) ->
  (exists x, In x l /\ exists e, f x = Throw e) -> mapM f l = Throw TypeError.
Proof.
  intros Ho H. destruct (mapM_fails f l H) as (e & He).
  rewrite He. f_equal. revert He. now apply only_mapM.
Qed.

Lemma throws_TypeError {A} (m : result A) :
  only_TypeError m -> (forall a, m <> Ret a) -> m = Throw TypeError.
Proof.
  intros Ho Hn. destruct m as [a|e]; [now destruct (Hn a)|].
  f_equal. now apply Ho.
Qed.

Lemma Get_primitive v k :
  is_object v = false -> Get v k = Throw TypeError \/
                         (Get v k = Ret VUndefined /\
                          forall x, Set_ v k x = Throw TypeError).
Proof. destruct v; cbn; try discriminate; auto. Qed.

Lemma bad_list_spec v :
  bad_list v = true -> truthy v = true /\ forall l ps, v <> VArr l ps.
Proof.
  unfold bad_list. intros H. apply andb_prop in H. destruct H as [Ht Ha].
  split; [exact Ht|]. intros l ps ->. discriminate.
Qed.

Lemma sanitize_measure_bad m :
  bad_measure m = true -> sanitize_measure m = Throw TypeError.
Proof.
  unfold bad_measure. intros H.
  apply throws_TypeError; [apply only_sanitize_measure|]. intros m' Hm.
  unfold sanitize_measure in Hm.
  destruct (is_object m) eqn:Ho.
  - cbn [negb orb] in H. apply bad_list_spec in H. destruct H as [Ht Hna].
    rewrite (Get_object m _ Ho) in Hm. cbn [bind] in Hm.
    rewrite Ht in Hm. cbn [bind] in Hm.
    rewrite (Get_object m _ Ho) in Hm. cbn [bind] in Hm.
    destruct (ensure_list m "chords" Ho) as (m2 & E2 & Ho2 & _ & Hk2).
    rewrite E2 in Hm. cbn [bind] in Hm.
    rewrite (Get_object m2 _ Ho2), (Hk2 "notes" eq_refl) in Hm. cbn [bind] in Hm.
    destruct (field "notes" m) as [| | | | |l ps|]; try discriminate.
    now destruct (Hna l ps).
  - destruct (Get_primitive m "notes" Ho) as [E|[E Es]];
      rewrite E in Hm; cbn [bind truthy] in Hm; [discriminate|].
    rewrite Es in Hm. discriminate.
Qed.

Lemma sanitize_section_bad sec :
  bad_section sec = true -> sanitize_section sec = Throw TypeError.
Proof.
  unfold bad_section. intros H.
  apply throws_TypeError; [apply only_sanitize_section|]. intros sec' Hs.
  unfold sanitize_section in Hs.
  destruct (is_object sec) eqn:Ho.
  - cbn [negb orb] in H.
    rewrite (Get_object sec _ Ho) in Hs. cbn [bind] in Hs.
    destruct (ensure_list sec "measures" Ho) as (s1 & E1 & Ho1 & Hm1 & _).
    rewrite E1 in Hs. cbn [bind] in Hs.
    rewrite (Get_object s1 _ Ho1), Hm1 in Hs. cbn [bind] in Hs.
    apply orb_prop in H. destruct H as [H|H].
    + apply bad_list_spec in H. destruct H as [Ht Hna]. rewrite Ht in Hs.
      destruct (field "measures" sec) as [| | | | |l ps|]; try discriminate.
      now destruct (Hna l ps).
    + destruct (field "measures" sec) as [| | | | |l ps|]; try discriminate.
      cbn [truthy elements] in Hs, H.
      destruct (has "forEach" ps); [discriminate|].
      apply existsb_exists in H. destruct H as (m & Hin & Hb).
      rewrite (mapM_TypeError sanitize_measure l only_sanitize_measure) in Hs;
        [discriminate|].
      exists m. split; [exact Hin|]. exists TypeError.
      now apply sanitize_measure_bad.
  - destruct (Get_primitive sec "measures" Ho) as [E|[E Es]];
      rewrite E in Hs; cbn [bind truthy] in Hs; [discriminate|].
    rewrite Es in Hs. discriminate.
Qed.

(** One bad section or measure anywhere makes the whole pass throw. *)
Lemma sanitize_bad secs ps raw :
  field "sections" raw = VArr secs ps ->
  existsb bad_section secs = true -> sanitize raw = Throw TypeError.
Proof.
  intros E H. rewrite (sanitize_sequence secs ps raw E).
  destruct (has "forEach" ps); [reflexivity|].
  apply existsb_exists in H. destruct H as (sec & Hin & Hb).
  rewrite (mapM_TypeError sanitize_section secs only_sanitize_section);
    [reflexivity|].
  exists sec. split; [exact Hin|]. exists TypeError.
  now apply sanitize_section_bad.
Qed.

End Rejections.

(** C3, as stated, fails: the reply [null] has no [sections] yet is
    rejected with a [TypeError], not [INVALID_STRUCTURE]; and a reply whose
    [sections] is a sequence is rejected as a whole when one section is
    [null], when one measure is [null], or when the notes of one measure
    are not a sequence. A measure whose [chords] is a number is accepted
    with that number left in place. *)
Lemma malformed_measure_rejects_all :
  sanitize (B := Examples.integers) VNull = Throw TypeError /\
  sanitize (B := Examples.integers) (VObj [("sections", VArr [VNull] [])])
    = Throw TypeError /\
  sanitize (B := Examples.integers)
    (VObj [("sections", VArr [VObj [("measures", VArr [VNull] [])]] [])])
    = Throw TypeError /\
  sanitize (B := Examples.integers)
    (VObj [("sections",
            VArr [VObj [("measures", VArr [VObj [("notes", VStr "x")]] [])]] [])])
    = Throw TypeError /\
  (exists out,
     sanitize (B := Examples.integers)
       (VObj [("sections",
               VArr [VObj [("measures",
                            VArr [VObj [("chords", VNum (Num 5))]] [])]] [])])
     = Ret out /\ complete out = false).
Proof.
  repeat split; try reflexivity. eexists. split; reflexivity.
Qed.

End Sanitizer.

(* ================================================================== *)
(** ** The flattened measures and the time grid                        *)
(* ================================================================== *)

Module Flattening.
Import Js Types TabRenderer Props.

Lemma map_mapi {A C D} (g : C -> D) (f : A -> nat -> C) l : forall i,
  map g (mapi f i l) = mapi (fun x j => g (f x j)) i l.
Proof. induction l as [|x r IH]; intros i; cbn [mapi map]; [|rewrite IH]; reflexivity. Qed.

Lemma mapi_map {A C} (h : A -> C) l : forall i, mapi (fun x _ => h x) i l = map h l.
Proof. induction l as [|x r IH]; intros i; cbn [mapi map]; [|rewrite IH]; reflexivity. Qed.

Lemma mapi_index {A} (l : list A) : forall i,
  mapi (fun _ j => j) i l = seq i (List.length l).
Proof. induction l as [|x r IH]; intros i; cbn [mapi seq List.length]; [|rewrite IH]; reflexivity. Qed.

Lemma mapi_length {A C} (f : A -> nat -> C) l : forall i,
  List.length (mapi f i l) = List.length l.
Proof. induction l as [|x r IH]; intros i; cbn [mapi List.length]; [|rewrite IH]; reflexivity. Qed.

Lemma Forall_mapi {A C} (P : C -> Prop) (f : A -> nat -> C) l : forall i,
  (forall k x, nth_error l k = Some x -> P (f x (i + k)%nat)) ->
  Forall P (mapi f i l).
Proof.
  induction l as [|x r IH]; intros i H; cbn [mapi]; constructor.
  - rewrite <- (Nat.add_0_r i). now apply H.
  - apply IH. intros k y Hk. rewrite Nat.add_succ_comm. now apply H.
Qed.

Lemma Forall_concat {A} (P : A -> Prop) ll :
  Forall (Forall P) ll -> Forall P (List.concat ll).
Proof.
  induction 1 as [|l ll Hl _ IH]; cbn [List.concat]; [constructor|].
  apply Forall_app. now split.
Qed.

Lemma sections_measures (ss : list TabSection) : forall i,
  map (map fm_measure)
    (mapi (fun section sIdx =>
             mapi (fun measure mIdx =>
                     {| fm_measure := measure; sectionIdx := sIdx;
                        measureIdx := mIdx; absoluteIdx := 0 |}) 0
               (measures section)) i ss)
  = map measures ss.
Proof.
  induction ss as [|sec r IH]; intros i; cbn [mapi map]; [reflexivity|].
  rewrite IH. f_equal. rewrite map_mapi. cbn [fm_measure].
  rewrite mapi_map. apply map_id.
Qed.

(** X1. [flatMeasures] lists the measures of the piece in document order,
    numbers them 0, 1, 2, ... in [absoluteIdx], and gives each the index
    of its section and its index inside that section. *)
Theorem flatMeasures_index (data : GuitarTabResult) :
  map fm_measure (flatMeasures data) = List.concat (map measures (sections data)) /\
  map absoluteIdx (flatMeasures data) = seq 0 (List.length (flatMeasures data)) /\
  Forall (fun fm =>
            exists sec, nth_error (sections data) (sectionIdx fm) = Some sec /\
                        nth_error (measures sec) (measureIdx fm) = Some (fm_measure fm))
    (flatMeasures data).
Proof.
  unfold flatMeasures. split; [|split].
  - rewrite map_mapi. cbn [fm_measure]. rewrite mapi_map, concat_map. f_equal.
    apply sections_measures.
  - rewrite map_mapi. cbn [absoluteIdx]. rewrite mapi_index, mapi_length. reflexivity.
  - apply Forall_mapi. intros k m Hk. cbn [sectionIdx measureIdx fm_measure].
    apply nth_error_In in Hk. revert m Hk. apply Forall_forall.
    apply Forall_concat. apply Forall_mapi. intros si sec Hsec.
    apply Forall_mapi. intros mi measure Hm.
    cbn [sectionIdx measureIdx fm_measure]. exists sec. now split.
Qed.

Lemma durations_positive (data : GuitarTabResult) :
  (0 < tempo_of data)%Q ->
  (0 < secondsPerBeat data)%Q /\ (0 < secondsPerMeasure data)%Q /\
  (0 < secondsPerPosition data)%Q.
Proof.
  intros Ht.
  assert (0 < secondsPerBeat data)%Q as Hb.
  { unfold secondsPerBeat. apply Qlt_shift_div_l; [exact Ht|].
    rewrite Qmult_0_l. reflexivity. }
  assert (0 < secondsPerMeasure data)%Q as Hm.
  { unfold secondsPerMeasure. apply Qmult_lt_0_compat; [exact Hb|reflexivity]. }
  split; [exact Hb|]. split; [exact Hm|].
  unfold secondsPerPosition. apply Qlt_shift_div_l; [reflexivity|].
  now rewrite Qmult_0_l.
Qed.

(** X2. The grid never divides by zero, sixteen positions make a measure and
    four beats make a measure, whatever the tempo; at a positive tempo the
    three durations are positive. *)
Theorem grid_identities (data : GuitarTabResult) :
  ~ (tempo_of data == 0)%Q /\
  (secondsPerPosition data * 16 == secondsPerMeasure data)%Q /\
  (secondsPerMeasure data == secondsPerBeat data * 4)%Q /\
  ((0 < tempo_of data)%Q ->
   (0 < secondsPerBeat data)%Q /\ (0 < secondsPerMeasure data)%Q /\
   (0 < secondsPerPosition data)%Q).
Proof.
  split; [|split; [|split]].
  - unfold tempo_of. destruct (tempo data) as [t|]; [|easy].
    destruct (Qeq_bool t 0) eqn:E; [easy|].
    intros H. apply Qeq_bool_iff in H. congruence.
  - unfold secondsPerPosition. field.
  - reflexivity.
  - apply durations_positive.
Qed.

End Flattening.

(* ================================================================== *)
(** ** The schedule of a playable piece                                *)
(* ================================================================== *)

Module Timeline.
Import Js Types TabRenderer Props.

Lemma Qlt_bool_nonneg x : (0 <= x)%Q -> Qlt_bool x 0 = false.
Proof. intros H. unfold Qlt_bool. apply Qle_bool_iff in H. now rewrite H. Qed.

Lemma start_node_nonneg ctx v t len :
  (0 <= t)%Q -> start_node ctx v t len = Ret [node ctx v t len].
Proof. intros H. unfold start_node. now rewrite Qlt_bool_nonneg. Qed.

Lemma forEach_all {A} (f : A -> result (list Oscillator)) (g : A -> list Oscillator) l :
  (forall x, In x l -> f x = Ret (g x)) -> forEach f l = (flat_map g l, None).
Proof.
  induction l as [|x r IH]; intros H; [reflexivity|].
  cbn [forEach flat_map]. rewrite (H x) by now left.
  now rewrite IH by (intros; apply H; now right).
Qed.

Section Playable.
Context {B : Builtins} (data : GuitarTabResult).
Hypothesis tempo_positive : (0 < tempo_of data)%Q.
Hypothesis plain : plain_tuning data.

Lemma spb_pos : (0 < secondsPerBeat data)%Q.
Proof. now apply (Flattening.durations_positive data). Qed.

Lemma spm_pos : (0 < secondsPerMeasure data)%Q.
Proof. now apply (Flattening.durations_positive data). Qed.

Lemma spp_pos : (0 < secondsPerPosition data)%Q.
Proof. now apply (Flattening.durations_positive data). Qed.

Lemma schedule_click_at ctx t beat :
  (0 <= t)%Q -> 0 <= beat ->
  schedule_click data ctx t beat = Ret [click_node data ctx t beat].
Proof.
  intros Ht Hb. unfold schedule_click, click_node. apply start_node_nonneg.
  rewrite <- (Qplus_0_r 0). apply Qplus_le_compat; [exact Ht|].
  apply Qmult_le_0_compat; [|apply Qlt_le_weak, spb_pos].
  change 0%Q with (inject_Z 0). now rewrite <- Zle_Qle.
Qed.

(** The tone of a playable note whose fret parses. *)
Lemma tone_nodes_playable ctx t note n :
  playable note -> parseInt (fret_text (note_fret note)) = Some n ->
  exists openFreq,
    tone_nodes data ctx t note =
    [node ctx (Tone openFreq n)
       (t + note_position note * secondsPerPosition data) 0.5].
Proof.
  intros (_ & _ & Hs) E. destruct (Hs n E) as (_ & k & Hk & Hq).
  destruct (Scheduler.open_string data _ k plain Hk Hq) as (f & _ & Eat & _).
  exists f. unfold tone_nodes. now rewrite E, Eat.
Qed.

Lemma schedule_note_at ctx t note :
  (0 <= t)%Q -> playable note ->
  schedule_note data ctx t note = Ret (tone_nodes data ctx t note).
Proof.
  intros Ht Hpl.
  destruct (parseInt (fret_text (note_fret note))) as [n|] eqn:E.
  - pose proof Hpl as (Hp & _ & Hs).
    destruct (Hs n E) as (Hn & k & Hk & Hq).
    destruct (Scheduler.open_string data _ k plain Hk Hq) as (f & Ef & Eat & _).
    destruct (Scheduler.schedule_note_tone data ctx t note k n plain Hk Hq E Hn
                tempo_positive Ht Hp) as (f' & Ef' & ->).
    rewrite Ef in Ef'. injection Ef' as <-.
    unfold tone_nodes. now rewrite E, Eat.
  - unfold schedule_note, tone_nodes. now rewrite E.
Qed.

Lemma sorted_playable (ns : list TabNote) :
  Forall playable ns -> Forall playable (Array_sort by_position ns).
Proof.
  intros H. eapply Permutation_Forall; [|exact H].
  symmetry. apply (SortFacts.sort_perm note_position).
Qed.

Lemma schedule_measure_at metronome ctx t m :
  (0 <= t)%Q -> Forall playable (notes m) ->
  schedule_measure data metronome ctx t m =
  ((if metronome then map (click_node data ctx t) [0; 1; 2; 3] else [])
   ++ flat_map (tone_nodes data ctx t) (Array_sort by_position (notes m)),
   None).
Proof.
  intros Ht Hn. unfold schedule_measure.
  assert (forEach (schedule_note data ctx t) (Array_sort by_position (notes m)) =
          (flat_map (tone_nodes data ctx t) (Array_sort by_position (notes m)), None))
    as Etones.
  { apply forEach_all. intros x Hx. apply schedule_note_at; [exact Ht|].
    pose proof (sorted_playable _ Hn) as Hs. rewrite Forall_forall in Hs. now apply Hs. }
  destruct metronome.
  - rewrite (forEach_all _ (fun beat => [click_node data ctx t beat])).
    + cbn [flat_map app map]. now rewrite Etones.
    + intros beat Hb. apply schedule_click_at; [exact Ht|].
      cbn in Hb. lia.
  - now rewrite Etones.
Qed.

End Playable.

Lemma started_from_later ctx t t' o :
  (t <= t')%Q -> started_from ctx t' o -> started_from ctx t o.
Proof.
  intros H (H1 & H2 & H3). repeat split; auto. eapply Qle_trans; eassumption.
Qed.

Lemma node_started ctx v t len d :
  (0 <= d)%Q -> (0 <= len)%Q -> started_from ctx t (node ctx v (t + d) len).
Proof.
  intros Hd Hl. unfold started_from, node. cbn. split; [reflexivity|]. split.
  - rewrite <- (Qplus_0_r t) at 1. now apply Qplus_le_r.
  - rewrite <- (Qplus_0_r (t + d)) at 1. now apply Qplus_le_r.
Qed.

Section Counting.
Context {B : Builtins} (data : GuitarTabResult).
Hypothesis tempo_positive : (0 < tempo_of data)%Q.
Hypothesis plain : plain_tuning data.

Lemma tone_nodes_count ctx t l :
  Forall playable l ->
  List.length (flat_map (tone_nodes data ctx t) l)
  = List.length (filter fret_parses l).
Proof.
  induction 1 as [|note r Hpl _ IH]; [reflexivity|].
  cbn [flat_map filter]. rewrite length_app, IH.
  destruct (parseInt (fret_text (note_fret note))) as [n|] eqn:E.
  - destruct (tone_nodes_playable data plain ctx t note n Hpl E) as (f & ->).
    assert (fret_parses note = true) as -> by (unfold fret_parses; now rewrite E).
    reflexivity.
  - assert (fret_parses note = false) as -> by (unfold fret_parses; now rewrite E).
    unfold tone_nodes. now rewrite E.
Qed.

Lemma tone_nodes_started ctx t l :
  Forall playable l ->
  Forall (started_from ctx t) (flat_map (tone_nodes data ctx t) l).
Proof.
  induction 1 as [|note r (Hp & _ & Hs) _ IH]; [constructor|].
  cbn [flat_map]. apply Forall_app. split; [|exact IH].
  unfold tone_nodes.
  destruct (parseInt _); [|constructor].
  destruct (at_Q _ _); [|constructor].
  constructor; [|constructor]. apply node_started; [|easy].
  apply Qmult_le_0_compat; [exact Hp|apply Qlt_le_weak, (spp_pos data tempo_positive)].
Qed.

Lemma sorted_parsable_count (l : list TabNote) :
  List.length (filter fret_parses (Array_sort by_position l))
  = List.length (filter fret_parses l).
Proof.
  change (@TabRenderer.by_position) with (by_key note_position).
  rewrite SortFacts.filter_sort.
  apply Permutation_length, SortFacts.sort_perm.
Qed.

Lemma measure_nodes metronome ctx t m :
  (0 <= t)%Q -> Forall playable (notes m) ->
  exists ns,
    schedule_measure data metronome ctx t m = (ns, None) /\
    Forall (started_from ctx t) ns /\
    List.length ns =
      ((if metronome then 4 else 0) + List.length (filter fret_parses (notes m)))%nat.
Proof.
  intros Ht Hn. eexists. split; [now apply schedule_measure_at|]. split.
  - apply Forall_app. split.
    + destruct metronome; [|constructor].
      repeat constructor; apply node_started; try easy;
        (apply Qmult_le_0_compat;
         [easy|apply Qlt_le_weak, (spb_pos data tempo_positive)]).
    + apply tone_nodes_started. now apply sorted_playable.
  - rewrite length_app, tone_nodes_count by now apply sorted_playable.
    rewrite sorted_parsable_count. now destruct metronome.
Qed.

Lemma measures_nodes metronome ctx ms : forall t,
  (0 <= t)%Q -> Forall (fun m => Forall playable (notes m)) ms ->
  exists ns t',
    schedule_measures data metronome ctx t ms = (ns, Ret t') /\
    (t <= t')%Q /\
    Forall (started_from ctx t) ns /\
    List.length ns =
      ((if metronome then 4 * List.length ms else 0)
       + List.length (filter fret_parses (List.concat (map notes ms))))%nat.
Proof.
  induction ms as [|m r IH]; intros t Ht Hall.
  - exists [], t. cbn. repeat split; try constructor.
    + apply Qle_refl.
    + now destruct metronome.
  - inversion Hall as [|? ? Hm Hr]; subst.
    destruct (measure_nodes metronome ctx t m Ht Hm) as (ns & E & Hs & Hl).
    pose proof (spm_pos data tempo_positive) as Hspm.
    assert (t <= t + secondsPerMeasure data)%Q as Hle.
    { rewrite <- (Qplus_0_r t) at 1. apply Qplus_le_r. now apply Qlt_le_weak. }
    assert (0 <= t + secondsPerMeasure data)%Q as Ht'
      by (eapply Qle_trans; eassumption).
    destruct (IH _ Ht' Hr) as (ns' & t' & E' & Ht'' & Hs' & Hl').
    exists (ns ++ ns'), t'. cbn [schedule_measures]. rewrite E, E'.
    split; [reflexivity|]. split; [|split].
    + eapply Qle_trans; eassumption.
    + apply Forall_app. split; [exact Hs|].
      eapply Forall_impl; [|exact Hs']. intros o.
      now apply started_from_later.
    + rewrite length_app, Hl, Hl'. cbn [map List.concat List.length].
      rewrite filter_app, length_app. destruct metronome; lia.
Qed.

Lemma sections_nodes metronome ctx ss : forall t,
  (0 <= t)%Q ->
  Forall (fun m => Forall playable (notes m)) (List.concat (map measures ss)) ->
  exists ns t',
    schedule_sections data metronome ctx t ss = (ns, Ret t') /\
    (t <= t')%Q /\
    Forall (started_from ctx t) ns /\
    List.length ns =
      ((if metronome then 4 * List.length (List.concat (map measures ss)) else 0)
       + List.length
           (filter fret_parses
              (List.concat (map notes (List.concat (map measures ss))))))%nat.
Proof.
  induction ss as [|sec r IH]; intros t Ht Hall.
  - exists [], t. cbn. repeat split; try constructor.
    + apply Qle_refl.
    + now destruct metronome.
  - cbn [map List.concat] in Hall. apply Forall_app in Hall. destruct Hall as [Hm Hr].
    destruct (measures_nodes metronome ctx (measures sec) t Ht Hm)
      as (ns & t1 & E & Hle & Hs & Hl).
    assert (0 <= t1)%Q as Ht1' by (eapply Qle_trans; eassumption).
    destruct (IH _ Ht1' Hr) as (ns' & t' & E' & Ht'' & Hs' & Hl').
    exists (ns ++ ns'), t'. cbn [schedule_sections]. rewrite E, E'.
    split; [reflexivity|]. split; [|split].
    + eapply Qle_trans; eassumption.
    + apply Forall_app. split; [exact Hs|].
      eapply Forall_impl; [|exact Hs']. intros o. now apply started_from_later.
    + rewrite length_app, Hl, Hl'. cbn [map List.concat].
      rewrite map_app, concat_app, filter_app, !length_app.
      destruct metronome; lia.
Qed.

End Counting.

Lemma tone_nodes_onset {B : Builtins} data ctx t note o :
  In o (tone_nodes data ctx t note) ->
  osc_start o = (t + note_position note * secondsPerPosition data)%Q.
Proof.
  unfold tone_nodes. destruct (parseInt _); [|easy].
  destruct (at_Q _ _); [|easy]. intros [<-|[]]. reflexivity.
Qed.

Lemma tones_ascending {B : Builtins} data ctx t l :
  (0 < tempo_of data)%Q ->
  StronglySorted (key_le note_position) l ->
  StronglySorted (fun a b => (osc_start a <= osc_start b)%Q)
    (flat_map (tone_nodes data ctx t) l).
Proof.
  intros Ht. induction 1 as [|x r Hr IH Hx]; cbn [flat_map]; [constructor|].
  assert (Forall (fun b => forall a, In a (tone_nodes data ctx t x) ->
                           (osc_start a <= osc_start b)%Q)
            (flat_map (tone_nodes data ctx t) r)) as Hall.
  { apply Forall_forall. intros b Hb a Ha.
    apply in_flat_map in Hb. destruct Hb as (y & Hy & Hb).
    rewrite Forall_forall in Hx. specialize (Hx y Hy).
    rewrite (tone_nodes_onset _ _ _ _ _ Ha), (tone_nodes_onset _ _ _ _ _ Hb).
    apply Qplus_le_r. apply Qmult_le_compat_r; [exact Hx|].
    apply Qlt_le_weak, (spp_pos data Ht). }
  unfold tone_nodes at 1. unfold tone_nodes at 1 in Hall.
  destruct (parseInt _); [|exact IH].
  destruct (at_Q _ _); [|exact IH].
  cbn [app]. constructor; [exact IH|].
  eapply Forall_impl; [|exact Hall]. intros b Hb. apply Hb. now left.
Qed.

Lemma Forall_concat_inv {A} (P : A -> Prop) ll :
  Forall P (List.concat ll) -> Forall (Forall P) ll.
Proof.
  induction ll as [|l ll IH]; cbn [List.concat]; intros H; [constructor|].
  apply Forall_app in H. destruct H as [H1 H2]. constructor; auto.
Qed.

Lemma playable_measures {B : Builtins} (ms : list TabMeasure) :
  Forall playable (List.concat (map notes ms)) ->
  Forall (fun m => Forall playable (notes m)) ms.
Proof.
  intros H. apply Forall_concat_inv in H. now rewrite Forall_map in H.
Qed.

Lemma steady_positive data t : steady data t -> (0 < tempo_of data)%Q /\ (0 <= t)%Q.
Proof.
  intros (H & H0 & _). split; [|exact H0].
  eapply Qlt_le_trans; [|exact H]. reflexivity.
Qed.

(** X3. A measure of playable notes, in a session in range and a tuning
    whose name is not an inherited one, is scheduled without an
    exception: with the metronome on, the four clicks of beats 0 to 3
    come first, then one tone for each note whose fret parses, in
    ascending order of onset (ties in the order of the measure). *)
Theorem measure_schedule {B : Builtins} (data : GuitarTabResult)
    (metronome : bool) (ctx : nat) (t : Q) (m : TabMeasure) :
  steady data t -> plain_tuning data -> Forall playable (notes m) ->
  let tones := flat_map (tone_nodes data ctx t) (Array_sort by_position (notes m)) in
  schedule_measure data metronome ctx t m =
    ((if metronome then map (click_node data ctx t) [0; 1; 2; 3] else []) ++ tones,
     None) /\
  StronglySorted (fun a b => (osc_start a <= osc_start b)%Q) tones /\
  List.length tones = List.length (filter fret_parses (notes m)) /\
  (forall k, filter (fun n => Qeq_bool (note_position n) k)
               (Array_sort by_position (notes m))
             = filter (fun n => Qeq_bool (note_position n) k) (notes m)).
Proof.
  intros Hst Hpl Hn. destruct (steady_positive data t Hst) as [Ht H0].
  cbv zeta. split; [now apply schedule_measure_at|].
  split; [|split].
  - apply tones_ascending; [exact Ht|].
    apply (SortFacts.sort_sorted note_position).
  - rewrite (tone_nodes_count data Hpl) by now apply sorted_playable.
    apply sorted_parsable_count.
  - intros k. apply (SortFacts.sort_stable note_position).
Qed.

Lemma open_note_playable :
  playable (B := Examples.integers) (Examples.note 1 "0" 0).
Proof.
  split; [discriminate|]. split; [discriminate|].
  intros n Hn. vm_compute in Hn. injection Hn as <-.
  split; [discriminate|]. exists 1. split; [lia|reflexivity].
Qed.

Lemma two_sections_steady t :
  (0 <= t)%Q -> (t <= horizon)%Q -> steady Examples.two_sections t.
Proof. intros H0 H1. split; [discriminate|]. now split. Qed.

(** The theorem at the first measure of the example piece, metronome on,
    from clock 0.2. *)
Lemma measure_schedule_witness :
  steady Examples.two_sections 0.2 /\ plain_tuning Examples.two_sections /\
  Forall (playable (B := Examples.integers)) [Examples.note 1 "0" 0] /\
  List.length
    (fst (schedule_measure (B := Examples.integers) Examples.two_sections true 0 0.2
            {| chords := []; notes := [Examples.note 1 "0" 0] |})) = 5%nat.
Proof.
  assert (Forall (playable (B := Examples.integers)) [Examples.note 1 "0" 0]) as Hp
    by (constructor; [exact open_note_playable|constructor]).
  assert (steady Examples.two_sections 0.2) as Hst
    by (apply two_sections_steady; discriminate).
  split; [exact Hst|]. split; [reflexivity|]. split; [exact Hp|].
  rewrite (proj1 (measure_schedule (B := Examples.integers) Examples.two_sections
                    true 0 0.2 {| chords := []; notes := [Examples.note 1 "0" 0] |}
                    Hst eq_refl Hp)).
  reflexivity.
Defined.

(** X4. The whole piece, when its notes are playable, in a session in
    range and a tuning whose name is not an inherited one: the two loops
    end without an exception, the running start time has not gone back,
    every node started lives in the session's context, starts no earlier
    than the session and stops no earlier than it starts, and there are
    four clicks per measure (metronome on) plus one tone per note whose
    fret parses. *)
Theorem piece_schedule {B : Builtins} (data : GuitarTabResult)
    (metronome : bool) (ctx : nat) (t : Q) :
  steady data t -> plain_tuning data -> Forall playable (all_notes data) ->
  exists ns t',
    schedule_sections data metronome ctx t (sections data) = (ns, Ret t') /\
    (t <= t')%Q /\
    Forall (started_from ctx t) ns /\
    List.length ns =
      ((if metronome then 4 * List.length (all_measures data) else 0)
       + List.length (filter fret_parses (all_notes data)))%nat.
Proof.
  intros Hst Hpl Hp. destruct (steady_positive data t Hst) as [Ht H0].
  apply (sections_nodes data Ht Hpl); [exact H0|].
  now apply playable_measures.
Qed.

Lemma two_sections_playable :
  Forall (playable (B := Examples.integers)) (all_notes Examples.two_sections).
Proof.
  change (Forall (playable (B := Examples.integers))
            [Examples.note 1 "0" 0; Examples.note 1 "0" 0]).
  repeat (constructor; [exact open_note_playable|]). constructor.
Qed.

(** The theorem at the example piece, metronome on, from clock 0.2. *)
Lemma piece_schedule_witness :
  steady Examples.two_sections 0.2 /\ plain_tuning Examples.two_sections /\
  Forall (playable (B := Examples.integers)) (all_notes Examples.two_sections) /\
  exists ns t',
    schedule_sections (B := Examples.integers) Examples.two_sections true 0 0.2
      (sections Examples.two_sections) = (ns, Ret t') /\
    (0.2 <= t')%Q /\ List.length ns = 10%nat.
Proof.
  assert (steady Examples.two_sections 0.2) as Hst
    by (apply two_sections_steady; discriminate).
  split; [exact Hst|]. split; [reflexivity|]. split; [exact two_sections_playable|].
  destruct (piece_schedule (B := Examples.integers) Examples.two_sections true 0 0.2
              Hst eq_refl two_sections_playable)
    as (ns & t' & E & Ht' & _ & Hl).
  exists ns, t'. split; [exact E|]. split; [exact Ht'|exact Hl].
Defined.

(** X5. Pressing Synth in a render in which nothing plays, on a piece whose
    notes are playable, with the tempo at least 1, the clock within the
    horizon and a tuning whose name is not an inherited one: no exception
    leaves the handler; the session gets a fresh context and starts 0.2 s
    after the reading of its clock; the flag is set; the nodes started
    are appended to the page's nodes, each held by a new handle; and
    exactly one frame callback, the one of the pressing render, is queued
    and remembered. The recording is not touched. *)
Theorem playSynth_starts_session {B : Builtins} (data : GuitarTabResult)
    (r : Render) (now : Q) (s : State) :
  r_isPlayingOriginal r = false -> r_isPlayingSynth r = false ->
  steady data now -> plain_tuning data -> Forall playable (all_notes data) ->
  let s' := playSynth data r now s in
  exists ns,
    nodes s' = nodes s ++ ns /\
    synthOscillators s' =
      synthOscillators s ++ seq (List.length (nodes s)) (List.length ns) /\
    Forall (started_from (contexts s) (now + 0.2)) ns /\
    isPlayingSynth s' = true /\
    synthContextRef s' = Some (contexts s) /\ contexts s' = S (contexts s) /\
    synthStartTimeRef s' = (now + 0.2)%Q /\
    frames s' = frames s ++ [(S (lastFrame s), r)] /\
    animationFrameRef s' = Some (S (lastFrame s)) /\
    uncaught s' = uncaught s /\
    audioRef s' = audioRef s /\ isPlayingOriginal s' = isPlayingOriginal s.
Proof.
  intros Ho Hy Hst Hpl Hp. destruct (steady_positive data now Hst) as [Ht Hn].
  cbv zeta. unfold playSynth. rewrite Ho, Hy.
  assert (0 <= now + 0.2)%Q as H0.
  { rewrite <- (Qplus_0_r 0). apply Qplus_le_compat; [exact Hn|easy]. }
  destruct (sections_nodes data Ht Hpl (r_metronomeEnabled r) (contexts s)
              (sections data) (now + 0.2) H0 (playable_measures _ Hp))
    as (ns & t' & E & _ & Hs & _).
  rewrite E. exists ns. repeat split; try reflexivity. exact Hs.
Qed.

(** The theorem at the freshly mounted component and the example piece. *)
Lemma playSynth_starts_session_witness :
  r_isPlayingOriginal (render_of (mounted false)) = false /\
  r_isPlayingSynth (render_of (mounted false)) = false /\
  steady Examples.two_sections 0 /\ plain_tuning Examples.two_sections /\
  Forall (playable (B := Examples.integers)) (all_notes Examples.two_sections) /\
  uncaught (playSynth (B := Examples.integers) Examples.two_sections
              (render_of (mounted false)) 0 (mounted false)) = [].
Proof.
  assert (steady Examples.two_sections 0) as Hst
    by (apply two_sections_steady; discriminate).
  split; [reflexivity|]. split; [reflexivity|]. split; [exact Hst|].
  split; [reflexivity|]. split; [exact two_sections_playable|].
  destruct (playSynth_starts_session (B := Examples.integers) Examples.two_sections
              (render_of (mounted false)) 0 (mounted false)
              eq_refl eq_refl Hst eq_refl two_sections_playable)
    as (ns & _ & _ & _ & _ & _ & _ & _ & _ & _ & Hu & _).
  exact Hu.
Defined.

Section Sections.
Context {B : Builtins} (data : GuitarTabResult).

Lemma schedule_measures_app metronome ctx ms ms' : forall t,
  schedule_measures data metronome ctx t (ms ++ ms') =
  match schedule_measures data metronome ctx t ms with
  | (os, Throw e) => (os, Throw e)
  | (os, Ret t1) =>
      let '(os', t') := schedule_measures data metronome ctx t1 ms' in
      (os ++ os', t')
  end.
Proof.
  induction ms as [|m r IH]; intros t; cbn [app schedule_measures].
  - now destruct (schedule_measures data metronome ctx t ms').
  - destruct (schedule_measure data metronome ctx t m) as [os [e|]]; [reflexivity|].
    rewrite IH.
    destruct (schedule_measures data metronome ctx _ r) as [os1 [t1|e]];
      [|reflexivity].
    destruct (schedule_measures data metronome ctx t1 ms') as [os2 t2].
    now rewrite app_assoc.
Qed.

Lemma schedule_sections_flat metronome ctx ss : forall t,
  schedule_sections data metronome ctx t ss =
  schedule_measures data metronome ctx t (List.concat (map measures ss)).
Proof.
  induction ss as [|sec r IH]; intros t; [reflexivity|].
  cbn [schedule_sections map List.concat]. rewrite schedule_measures_app.
  destruct (schedule_measures data metronome ctx t (measures sec)) as [os [t1|e]];
    [|reflexivity].
  now rewrite IH.
Qed.

End Sections.

(** X6. Sections are transparent to the scheduler: scheduling the sections of
    a piece is scheduling the flat list of its measures, exceptions
    included; how the measures are grouped into sections changes nothing
    of what is played or when. *)
Theorem sections_are_transparent {B : Builtins} (data : GuitarTabResult)
    (metronome : bool) (ctx : nat) (t : Q) (ss : list TabSection) :
  schedule_sections data metronome ctx t ss =
  schedule_measures data metronome ctx t (List.concat (map measures ss)) /\
  forall ss',
    List.concat (map measures ss') = List.concat (map measures ss) ->
    schedule_sections data metronome ctx t ss' =
    schedule_sections data metronome ctx t ss.
Proof.
  split; [apply schedule_sections_flat|].
  intros ss' E. rewrite !schedule_sections_flat. now rewrite E.
Qed.

End Timeline.

(* ================================================================== *)
(** ** Rounding down                                                   *)
(* ================================================================== *)

Module Rounding.

Lemma Qfloor_between (x : Q) (n : Z) :
  (inject_Z n <= x)%Q -> (x < inject_Z (n + 1))%Q -> Qfloor x = n.
Proof.
  intros Hlo Hhi.
  assert (n <= Qfloor x) as H1.
  { rewrite <- (Qfloor_Z n). now apply Qfloor_resp_le. }
  assert (Qfloor x < n + 1) as H2.
  { rewrite Zlt_Qlt. eapply Qle_lt_trans; [apply Qfloor_le|exact Hhi]. }
  lia.
Qed.

End Rounding.

(* ================================================================== *)
(** ** Sanitizing what is sanitized                                    *)
(* ================================================================== *)

Module Idempotence.
Import Js Types GeminiService Props.

Lemma bind_inv {A C} (m : result A) (k : A -> result C) y :
  bind m k = Ret y -> exists x, m = Ret x /\ k x = Ret y.
Proof. destruct m as [x|e]; cbn [bind]; [eauto|discriminate]. Qed.

Lemma has_put_same k x ps : has k (put k x ps) = true.
Proof.
  induction ps as [|[k' v] r IH]; cbn [put has].
  - now rewrite String.eqb_refl.
  - destruct (String.eqb k k') eqn:E; cbn [has].
    + now rewrite String.eqb_refl.
    + now rewrite E.
Qed.

Lemma has_put_other k k' x ps : has k' ps = true -> has k' (put k x ps) = true.
Proof.
  induction ps as [|[k0 v] r IH]; cbn [put has]; [discriminate|].
  destruct (String.eqb k k0) eqn:E; cbn [has].
  - apply String.eqb_eq in E. now subst k0.
  - destruct (String.eqb k' k0); [reflexivity|exact IH].
Qed.

(** Writing to a property the value it holds changes nothing. *)
Lemma put_same k x ps : has k ps = true -> lookup k ps = x -> put k x ps = ps.
Proof.
  induction ps as [|[k' v] r IH]; cbn [put has lookup]; [discriminate|].
  destruct (String.eqb k k') eqn:E; cbn [orb].
  - apply String.eqb_eq in E. now intros _ ->; subst k'.
  - intros H1 H2. now rewrite IH.
Qed.

Lemma Set_same v k x :
  is_object v = true -> owns k v = true -> field k v = x -> Set_ v k x = Ret v.
Proof.
  destruct v; try discriminate; cbn [owns field Set_]; intros _ H1 H2;
    now rewrite put_same.
Qed.

Lemma Set_owns v k x v' :
  Set_ v k x = Ret v' ->
  is_object v' = true /\ owns k v' = true /\ field k v' = x.
Proof.
  destruct v; try discriminate; cbn [Set_]; intros [= <-];
    cbn [is_object owns field]; repeat split;
    try apply has_put_same; apply Sanitizer.lookup_put_same.
Qed.

Lemma round_Q_inject z : round_Q (inject_Z z) = z.
Proof.
  unfold round_Q. apply Rounding.Qfloor_between.
  - rewrite <- (Qplus_0_r (inject_Z z)) at 1. now apply Qplus_le_r.
  - rewrite inject_Z_plus. now apply Qplus_lt_r.
Qed.

Lemma clamp_idem lo hi x : lo <= hi -> clamp lo hi (clamp lo hi x) = clamp lo hi x.
Proof.
  intros H. destruct x as [|q]; [reflexivity|].
  rewrite Sanitizer.clamp_Num. unfold num_of_Z.
  rewrite Sanitizer.clamp_Num, round_Q_inject. unfold num_of_Z.
  do 2 f_equal. unfold clamp_Z. lia.
Qed.

Lemma sorted_sort_id {A} (key : A -> Q) l :
  StronglySorted (key_le key) l -> Array_sort (by_key key) l = l.
Proof.
  induction 1 as [|x r Hr IH Hx]; [reflexivity|].
  cbn [Array_sort fold_right]. fold (Array_sort (by_key key) r).
  rewrite IH. now apply SortFacts.insert_front.
Qed.

Lemma mapM_fixed {A} (f : A -> result A) l :
  Forall (fun y => f y = Ret y) l -> mapM f l = Ret l.
Proof.
  induction 1 as [|y r Hy _ IH]; cbn [mapM]; [reflexivity|].
  now rewrite Hy, IH.
Qed.

Lemma mapM_outputs_fixed {A} (f : A -> result A) l out :
  (forall x y, In x l -> f x = Ret y -> f y = Ret y) ->
  mapM f l = Ret out -> mapM f out = Ret out.
Proof.
  intros H E. apply mapM_fixed. apply Sanitizer.mapM_Ret in E.
  induction E as [|x y l out Hxy _ IH]; constructor.
  - apply (H x); [now left|exact Hxy].
  - apply IH. intros x' y' Hx'. apply H. now right.
Qed.

Section Pass.
Context {B : Builtins}.

Lemma opt_toString_cases v ft :
  opt_toString v = Ret ft -> ft = VUndefined \/ exists t, ft = VStr t.
Proof.
  unfold opt_toString. destruct v; try (intros [= <-]; now left);
    intros H; apply bind_inv in H; destruct H as (t & _ & [= <-]); eauto.
Qed.

(** The map function yields settled notes. *)
Lemma fix_note_settled n m :
  keep_note n = Ret true -> fix_note n = Ret m -> settled_note m.
Proof.
  intros Hk Hf.
  destruct (Sanitizer.keep_note_true n Hk) as (Et & (x & Hx) & (p & Hp & Hp0)).
  unfold fix_note in Hf. rewrite !(Sanitizer.Get_truthy n _ Et) in Hf.
  cbn [bind] in Hf. rewrite Hx, Hp in Hf. cbn [ToNumber bind] in Hf.
  destruct (opt_toString (field "fret" n)) as [ft|e] eqn:Eft; cbn [bind] in Hf;
    [|discriminate].
  injection Hf as <-.
  assert (exists t, (if truthy ft then ft else VStr "0") = VStr t /\
                    String.eqb t "" = false) as (t & Eft' & Ht).
  { destruct (opt_toString_cases _ _ Eft) as [->|(t & ->)].
    - now exists "0"%string.
    - cbn [truthy]. destruct (String.eqb t "") eqn:E; cbn [negb].
      + now exists "0"%string.
      + now exists t. }
  rewrite Eft'.
  eexists _, (clamp 1 6 x), (inject_Z (clamp_Z 0 15 (round_Q p))), t.
  split; [reflexivity|].
  split; [apply has_put_other, has_put_other, has_put_same|].
  split; [apply has_put_other, has_put_same|].
  split; [apply has_put_same|].
  rewrite Sanitizer.lookup_put_other, Sanitizer.lookup_put_other,
    Sanitizer.lookup_put_same by reflexivity.
  split; [reflexivity|]. split; [now apply clamp_idem|].
  rewrite Sanitizer.lookup_put_other, Sanitizer.lookup_put_same by reflexivity.
  rewrite Sanitizer.clamp_Num. split; [reflexivity|].
  split.
  - change (Num (inject_Z (clamp_Z 0 15 (round_Q p))))
      with (num_of_Z (clamp_Z 0 15 (round_Q p))).
    rewrite <- Sanitizer.clamp_Num. now apply clamp_idem.
  - rewrite Sanitizer.lookup_put_same. now split.
Qed.

(** A settled note passes the filter and is mapped to itself. *)
Lemma settled_note_fixed m :
  settled_note m ->
  keep_note m = Ret true /\ fix_note m = Ret m /\
  position_of m = Num (position_key m).
Proof.
  intros (ps & x & q & t & -> & Hs & Hp & Hf & Es & Cs & Ep & Cp & Ef & Ht).
  assert (0 <= q)%Q as Hq.
  { rewrite Sanitizer.clamp_Num in Cp. injection Cp as <-.
    change 0%Q with (inject_Z 0). rewrite <- Zle_Qle.
    apply Sanitizer.clamp_Z_range. lia. }
  split; [|split].
  - unfold keep_note. cbn [truthy negb Get bind]. rewrite Es, Ep.
    cbn [typeof_number negb ToNumber bind ge0].
    apply Qle_bool_iff in Hq. now rewrite Hq.
  - unfold fix_note. cbn [Get bind]. rewrite Es, Ep, Ef.
    cbn [ToNumber opt_toString ToString bind truthy]. rewrite Ht. cbn [negb].
    rewrite Cs, Cp. cbn [spread].
    rewrite (put_same "string") by assumption.
    rewrite (put_same "position") by assumption.
    now rewrite (put_same "fret") by assumption.
  - unfold position_of, position_key. cbn [field]. now rewrite Ep.
Qed.

(** The notes the sanitizer leaves are settled and in ascending
    position. *)
Lemma sanitize_notes_settled l out :
  sanitize_notes l = Ret out ->
  Forall settled_note out /\ StronglySorted (key_le position_key) out.
Proof.
  intros H. apply Sanitizer.sanitize_notes_Ret in H.
  destruct H as (mapped & HF & ->). split.
  - eapply Permutation_Forall;
      [symmetry; apply (SortFacts.sort_perm position_key)|].
    clear -HF. induction HF as [|n m ns ms [Hk Hf] _ IH]; constructor; auto.
    now apply (fix_note_settled n).
  - apply SortFacts.sort_sorted.
Qed.

(** On such notes the filter, the map and the sort change nothing. *)
Lemma sanitize_notes_fixed l :
  Forall settled_note l -> StronglySorted (key_le position_key) l ->
  sanitize_notes l = Ret l.
Proof.
  intros Hall Hsorted. unfold sanitize_notes.
  assert (filterM keep_note l = Ret l) as ->.
  { clear Hsorted. induction Hall as [|m r Hm _ IH]; cbn [filterM]; [reflexivity|].
    destruct (settled_note_fixed m Hm) as (-> & _). cbn [bind]. now rewrite IH. }
  cbn [bind].
  assert (mapM fix_note l = Ret l) as ->.
  { apply mapM_fixed. eapply Forall_impl; [|exact Hall].
    intros m Hm. apply (settled_note_fixed m Hm). }
  cbn [bind]. f_equal.
  rewrite (SortFacts.sort_ext _ (by_key position_key)).
  - now apply sorted_sort_id.
  - intros a b Ha Hb. rewrite Forall_forall in Hall.
    unfold GeminiService.by_position, by_key.
    destruct (settled_note_fixed a (Hall a Ha)) as (_ & _ & ->).
    destruct (settled_note_fixed b (Hall b Hb)) as (_ & _ & ->).
    reflexivity.
Qed.

Lemma sanitize_measure_fixed m m' :
  sanitize_measure m = Ret m' -> sanitize_measure m' = Ret m'.
Proof.
  intros H.
  destruct (Sanitizer.sanitize_measure_Ret m m' H) as (out & Hout & Hn & Hc).
  assert (is_object m' = true /\ owns "notes" m' = true) as [Ho Hw].
  { unfold sanitize_measure in H.
    apply bind_inv in H. destruct H as (n0 & _ & H).
    apply bind_inv in H. destruct H as (m1 & _ & H).
    apply bind_inv in H. destruct H as (c0 & _ & H).
    apply bind_inv in H. destruct H as (m2 & _ & H).
    apply bind_inv in H. destruct H as (notes & _ & H).
    destruct notes as [| | | | |l ps|]; try discriminate.
    destruct (has "filter" ps); [discriminate|].
    apply bind_inv in H. destruct H as (l' & _ & H).
    apply Set_owns in H. now destruct H as (H1 & H2 & _). }
  assert (truthy (field "chords" m') = true) as Hct.
  { rewrite Hc. now destruct (truthy (field "chords" m)) eqn:E. }
  destruct (sanitize_notes_settled _ _ Hout) as [Hall Hsorted].
  unfold sanitize_measure.
  rewrite !(Sanitizer.Get_object m' _ Ho). cbn [bind]. rewrite Hn. cbn [truthy bind].
  rewrite !(Sanitizer.Get_object m' _ Ho). cbn [bind]. rewrite Hct. cbn [bind].
  rewrite !(Sanitizer.Get_object m' _ Ho). cbn [bind]. rewrite Hn. cbn [has].
  rewrite (sanitize_notes_fixed out Hall Hsorted). cbn [bind].
  now apply Set_same.
Qed.

Lemma sanitize_section_fixed sec sec' :
  sanitize_section sec = Ret sec' -> sanitize_section sec' = Ret sec'.
Proof.
  intros H. unfold sanitize_section in H.
  apply bind_inv in H. destruct H as (m0 & _ & H).
  apply bind_inv in H. destruct H as (s1 & _ & H).
  apply bind_inv in H. destruct H as (ms & _ & H).
  destruct ms as [| | | | |l ps|]; try discriminate.
  destruct (has "forEach" ps) eqn:Hps; [discriminate|].
  apply bind_inv in H. destruct H as (l' & Hl & H).
  apply Set_owns in H. destruct H as (Ho & Hw & Hf).
  unfold sanitize_section.
  rewrite !(Sanitizer.Get_object sec' _ Ho). cbn [bind]. rewrite Hf. cbn [truthy bind].
  rewrite !(Sanitizer.Get_object sec' _ Ho). cbn [bind]. rewrite Hf, Hps.
  rewrite (mapM_outputs_fixed sanitize_measure l l'); [| |exact Hl].
  - cbn [bind]. now apply Set_same.
  - intros x y _. apply sanitize_measure_fixed.
Qed.

End Pass.

(** X10. The sanitizing pass is idempotent: whatever it returns, it returns
    unchanged when given it again. So a result that went through the
    service can be validated again (or stored and reloaded through the
    same pass) without any further change. *)
Theorem sanitize_idempotent {B : Builtins} (raw out : value) :
  sanitize raw = Ret out -> sanitize out = Ret out.
Proof.
  intros H. unfold sanitize in H.
  apply bind_inv in H. destruct H as (secs & _ & H).
  destruct (negb (truthy secs) || negb (isArray secs)); [discriminate|].
  destruct secs as [| | | | |l ps|]; try discriminate.
  destruct (has "forEach" ps) eqn:Hps; [discriminate|].
  apply bind_inv in H. destruct H as (l' & Hl & H).
  apply Set_owns in H. destruct H as (Ho & Hw & Hf).
  unfold sanitize.
  rewrite !(Sanitizer.Get_object out _ Ho). cbn [bind]. rewrite Hf.
  cbn [truthy isArray negb orb]. rewrite Hps.
  rewrite (mapM_outputs_fixed sanitize_section l l'); [| |exact Hl].
  - cbn [bind]. now apply Set_same.
  - intros x y _. apply sanitize_section_fixed.
Qed.

(** The theorem at a reply whose measure has notes to drop, round, clamp
    and reorder. *)
Lemma sanitize_idempotent_witness :
  exists out,
    sanitize (B := Examples.integers) Examples.raw_piece = Ret out /\
    out <> Examples.raw_piece /\
    sanitize (B := Examples.integers) out = Ret out.
Proof.
  eexists. split; [vm_compute; reflexivity|]. split; [discriminate|].
  apply (sanitize_idempotent (B := Examples.integers) Examples.raw_piece).
  vm_compute. reflexivity.
Defined.

End Idempotence.

(* ================================================================== *)
(** ** What the sanitizer leaves alone                                 *)
(* ================================================================== *)

Module Preservation.
Import Js Types GeminiService Props.

Lemma Get_Ret v k x : Get v k = Ret x -> x = field k v.
Proof. destruct v; cbn [Get field]; now intros [= <-]. Qed.

Lemma Set_Ret v k x v' :
  Set_ v k x = Ret v' ->
  field k v' = x /\ same_but [k] v v'.
Proof.
  destruct v; try discriminate; cbn [Set_]; intros [= <-]; cbn [field];
    (split; [apply Sanitizer.lookup_put_same|]);
    intros k' Hk'; cbn [existsb orb] in Hk'; rewrite orb_false_r in Hk';
    cbn [field]; now apply Sanitizer.lookup_put_other.
Qed.

(** [if (!v.k) v.k = []]: the list that is there, or an empty one. *)
Lemma defaulted v k v' :
  (if truthy (field k v) then Ret v else Set_ v k (VArr [] [])) = Ret v' ->
  same_but [k] v v' /\
  elements (field k v') = elements (field k v) /\
  (truthy (field k v) = true -> field k v' = field k v).
Proof.
  destruct (truthy (field k v)) eqn:Et.
  - intros [= <-]. now repeat split.
  - intros H. apply Set_Ret in H. destruct H as [E Hs].
    split; [exact Hs|]. split; [|discriminate].
    rewrite E. now destruct (field k v).
Qed.

Lemma same_but_trans ks ks' a b c :
  same_but ks a b -> same_but ks' b c -> same_but (ks ++ ks') a c.
Proof.
  intros H1 H2 k Hk. rewrite existsb_app in Hk. apply orb_false_iff in Hk.
  destruct Hk as [Hk Hk']. now rewrite (H2 k Hk'), (H1 k Hk).
Qed.

Lemma same_but_more ks ks' a b :
  (forall k, existsb (String.eqb k) ks' = false -> existsb (String.eqb k) ks = false) ->
  same_but ks a b -> same_but ks' a b.
Proof. intros H H1 k Hk. apply H1, H, Hk. Qed.

Section Pass.
Context {B : Builtins}.

Lemma sanitize_measure_kept m m' :
  sanitize_measure m = Ret m' -> measure_kept m m'.
Proof.
  intros H. split.
  - unfold sanitize_measure in H.
    apply Idempotence.bind_inv in H. destruct H as (n0 & E0 & H).
    apply Get_Ret in E0. subst n0.
    apply Idempotence.bind_inv in H. destruct H as (m1 & E1 & H).
    apply defaulted in E1. destruct E1 as (S1 & _).
    apply Idempotence.bind_inv in H. destruct H as (c0 & E0 & H).
    apply Get_Ret in E0. subst c0.
    apply Idempotence.bind_inv in H. destruct H as (m2 & E2 & H).
    apply defaulted in E2. destruct E2 as (S2 & _).
    apply Idempotence.bind_inv in H. destruct H as (notes & _ & H).
    destruct notes as [| | | | |l ps|]; try discriminate.
    destruct (has "filter" ps); [discriminate|].
    apply Idempotence.bind_inv in H. destruct H as (l' & _ & H).
    apply Set_Ret in H. destruct H as [_ S3].
    pose proof (same_but_trans _ _ _ _ _ (same_but_trans _ _ _ _ _ S1 S2) S3) as S.
    eapply same_but_more; [|exact S].
    intros k. cbn [app existsb]. rewrite !orb_false_r.
    intros Hk. apply orb_false_iff in Hk. destruct Hk as [-> ->]. reflexivity.
  - intros Hc.
    destruct (Sanitizer.sanitize_measure_Ret m m' H) as (_ & _ & _ & E).
    now rewrite Hc in E.
Qed.

Lemma sanitize_section_kept sec sec' :
  sanitize_section sec = Ret sec' -> section_kept sec sec'.
Proof.
  intros H. unfold sanitize_section in H.
  apply Idempotence.bind_inv in H. destruct H as (m0 & E0 & H).
  apply Get_Ret in E0. subst m0.
  apply Idempotence.bind_inv in H. destruct H as (s1 & E1 & H).
  apply defaulted in E1. destruct E1 as (S1 & El & _).
  apply Idempotence.bind_inv in H. destruct H as (ms & Ems & H).
  apply Get_Ret in Ems.
  destruct ms as [| | | | |l ps|]; try discriminate.
  destruct (has "forEach" ps); [discriminate|].
  apply Idempotence.bind_inv in H. destruct H as (l' & Hl & H).
  apply Set_Ret in H. destruct H as [Ef S2].
  split.
  - eapply same_but_more; [|exact (same_but_trans _ _ _ _ _ S1 S2)].
    intros k. cbn [app existsb]. rewrite !orb_false_r. now intros ->.
  - rewrite <- El, <- Ems, Ef. cbn [elements].
    apply Sanitizer.mapM_Ret in Hl.
    eapply Forall2_impl; [|exact Hl]. intros a b. apply sanitize_measure_kept.
Qed.

End Pass.

(** X11. The pass neither drops nor reorders nor adds a section or a measure,
    and touches nothing but the three lists and the notes: when it
    returns, every top-level property other than [sections] (title,
    tempo, tuning, ...) is as it was, the sections are as many and in the
    same order with the same extra properties on the sequence, each with
    its properties other than [measures] as they were and with as many
    measures in the same order, each measure with its chords as they were
    when it had some and all its other properties but [notes] as they
    were. In particular the tempo is handed on unchecked. *)
Theorem sanitize_keeps_structure {B : Builtins} (raw out : value) :
  sanitize raw = Ret out ->
  same_but ["sections"] raw out /\
  field "tempo" out = field "tempo" raw /\
  exists secs secs' ps,
    field "sections" raw = VArr secs ps /\
    field "sections" out = VArr secs' ps /\
    List.length secs' = List.length secs /\
    Forall2 section_kept secs secs'.
Proof.
  intros H. unfold sanitize in H.
  apply Idempotence.bind_inv in H. destruct H as (secs & E0 & H).
  apply Get_Ret in E0.
  destruct (negb (truthy secs) || negb (isArray secs)); [discriminate|].
  destruct secs as [| | | | |l ps|]; try discriminate.
  destruct (has "forEach" ps); [discriminate|].
  apply Idempotence.bind_inv in H. destruct H as (l' & Hl & H).
  apply Set_Ret in H. destruct H as [Ef S].
  split; [exact S|]. split; [now apply S|].
  exists l, l', ps. split; [now symmetry|]. split; [exact Ef|].
  apply Sanitizer.mapM_Ret in Hl.
  assert (Forall2 section_kept l l') as HF.
  { eapply Forall2_impl; [|exact Hl]. intros a b. apply sanitize_section_kept. }
  split; [symmetry; eapply Forall2_length; exact HF|exact HF].
Qed.

(** The theorem at the reply of the examples. *)
Lemma sanitize_keeps_structure_witness :
  exists out,
    sanitize (B := Examples.integers) Examples.raw_piece = Ret out /\
    field "songTitle" out = VStr "Example" /\
    exists secs', field "sections" out = VArr secs' [] /\ List.length secs' = 1%nat.
Proof.
  assert (exists out, sanitize (B := Examples.integers) Examples.raw_piece = Ret out)
    as (out & E) by (eexists; vm_compute; reflexivity).
  exists out. split; [exact E|].
  destruct (sanitize_keeps_structure (B := Examples.integers) _ _ E)
    as (S & _ & secs & secs' & ps & E1 & E2 & El & _).
  split; [now rewrite (S "songTitle" eq_refl)|].
  injection E1 as <- <-. now exists secs'.
Defined.

End Preservation.

(* ================================================================== *)
(** ** The drawn measure                                               *)
(* ================================================================== *)

Module Tablature.
Import Js Types TabRenderer Display Props.

Lemma Qeq_bool_inject a b : Qeq_bool (inject_Z a) (inject_Z b) = (a =? b).
Proof.
  destruct (a =? b) eqn:E.
  - apply Z.eqb_eq in E. subst b. apply Qeq_bool_iff. reflexivity.
  - destruct (Qeq_bool _ _) eqn:E'; [|reflexivity].
    apply Qeq_bool_iff in E'. rewrite inject_Z_injective in E'.
    apply Z.eqb_eq in E'. congruence.
Qed.

Lemma minus_1_inject k : (inject_Z k - 1 == inject_Z (k - 1))%Q.
Proof.
  replace (k - 1) with (k + -1) by lia. rewrite inject_Z_plus. reflexivity.
Qed.

Lemma Qfloor_minus_1 (q : Q) : Qfloor (q - 1) = Qfloor q - 1.
Proof.
  apply Rounding.Qfloor_between.
  - rewrite <- minus_1_inject. unfold Qminus. apply Qplus_le_l. apply Qfloor_le.
  - replace (Qfloor q - 1 + 1) with (Qfloor q + 1 + -1) by lia.
    rewrite inject_Z_plus. unfold Qminus. apply Qplus_lt_l. apply Qlt_floor.
Qed.

(** A number is whole exactly when the number before it is. *)
Lemma whole_minus_1 (q : Q) :
  Qeq_bool (inject_Z (Qfloor (q - 1))) (q - 1) = Qeq_bool (inject_Z (Qfloor q)) q.
Proof.
  rewrite Qfloor_minus_1.
  destruct (Qeq_bool (inject_Z (Qfloor q)) q) eqn:E.
  - apply Qeq_bool_iff in E. apply Qeq_bool_iff.
    rewrite <- minus_1_inject. now rewrite E.
  - destruct (Qeq_bool (inject_Z (Qfloor q - 1)) (q - 1)) eqn:E'; [|reflexivity].
    apply Qeq_bool_iff in E'. rewrite <- minus_1_inject in E'.
    assert (inject_Z (Qfloor q) == q)%Q as H.
    { apply (Qplus_inj_r _ _ (- (1))). exact E'. }
    apply Qeq_bool_iff in H. congruence.
Qed.

Lemma cell_blank i j : cell blank i j = None.
Proof.
  unfold cell, blank. destruct (nth_error _ i) as [line|] eqn:E; [|reflexivity].
  apply nth_error_In, repeat_spec in E. subst line.
  destruct (nth_error _ j) as [c|] eqn:E; [|reflexivity].
  now apply nth_error_In, repeat_spec in E.
Qed.

Lemma blank_six_by_sixteen : six_by_sixteen blank.
Proof.
  split; [reflexivity|]. apply Forall_forall. intros line H.
  apply repeat_spec in H. now subst line.
Qed.

Lemma Forall_update_nth {A} (P : A -> Prop) (f : A -> A) i l :
  (forall x, P x -> P (f x)) -> Forall P l -> Forall P (update_nth f i l).
Proof.
  intros Hf H. revert i. induction H as [|x r Hx Hr IH]; intros [|i];
    cbn [update_nth]; constructor; auto.
Qed.

Lemma set_cell_six_by_sixteen (c : option RenderedNote) i j g :
  six_by_sixteen g ->
  six_by_sixteen (update_nth (update_nth (fun _ => c) j) i g).
Proof.
  intros [H6 H16]. split.
  - now rewrite Controller.update_nth_length.
  - apply Forall_update_nth; [|exact H16].
    intros line Hl. now rewrite Controller.update_nth_length.
Qed.

Lemma cell_set_cell (c : option RenderedNote) i j g i' j' :
  cell g i j = None -> (i < List.length g)%nat ->
  (forall line, nth_error g i = Some line -> (j < List.length line)%nat) ->
  cell (update_nth (update_nth (fun _ => c) j) i g) i' j' =
  if Nat.eqb i i' && Nat.eqb j j' then c else cell g i' j'.
Proof.
  intros Hnone Hi Hj. unfold cell in *.
  rewrite Controller.nth_error_update_nth.
  destruct (Nat.eqb i i') eqn:Ei; cbn [andb]; [|reflexivity].
  apply Nat.eqb_eq in Ei. subst i'.
  destruct (nth_error g i) as [line|] eqn:El; cbn [option_map];
    [|apply nth_error_None in El; lia].
  rewrite Controller.nth_error_update_nth.
  destruct (Nat.eqb j j') eqn:Ej; [|reflexivity].
  apply Nat.eqb_eq in Ej. subst j'.
  specialize (Hj line eq_refl).
  destruct (nth_error line j) as [x|] eqn:Ex; [reflexivity|].
  apply nth_error_None in Ex. lia.
Qed.

Section Notes.
Context {B : Builtins}.

(** [Math.min(Math.max(0, p), 15)] is a number. *)
Lemma clamped_position (p : Q) :
  exists pos, Math_min (Math_max (Num 0) (Num p)) (Num 15) = Num pos.
Proof.
  cbn [Math_max]. destruct (Qle_bool 0 p); cbn [Math_min];
    match goal with |- context [Qle_bool ?a ?b] => destruct (Qle_bool a b) end;
    eauto.
Qed.

(** Placing a note keeps the six lines of sixteen cells. *)
Lemma place_six_by_sixteen n g g' :
  six_by_sixteen g -> place n g = Ret g' -> six_by_sixteen g'.
Proof.
  intros Hg. unfold place.
  destruct (clamped_position (note_position n)) as (pos & ->).
  destruct (_ && _); [|now intros [= <-]].
  destruct (at_Q g _) as [line|]; [|discriminate].
  destruct (at_Q line pos) as [[c|]|]; intros [= <-]; auto.
  now apply set_cell_six_by_sixteen.
Qed.

(** A note between two lines breaks the drawing. *)
Lemma place_between_lines n g :
  between_lines n = true -> place n g = Throw TypeError.
Proof.
  unfold between_lines. intros H.
  apply andb_prop in H. destruct H as [H Hw].
  apply andb_prop in H. destruct H as [H1 H7].
  unfold place. destruct (clamped_position (note_position n)) as (pos & ->).
  assert (Qle_bool 0 (note_string n - 1) = true) as ->.
  { apply Qle_bool_iff. apply Qle_bool_iff in H1.
    apply (Qplus_le_l _ _ 1). ring_simplify. exact H1. }
  assert (Qlt_bool (note_string n - 1) 6 = true) as ->.
  { unfold Qlt_bool in *. apply negb_true_iff. apply negb_true_iff in H7.
    destruct (Qle_bool 6 _) eqn:E; [|reflexivity].
    apply Qle_bool_iff in E.
    assert (7 <= note_string n)%Q as H.
    { apply (Qplus_le_l _ _ (- (1))). exact E. }
    apply Qle_bool_iff in H. congruence. }
  cbn [andb]. unfold at_Q. rewrite whole_minus_1.
  apply negb_true_iff in Hw. now rewrite Hw.
Qed.

(** Any other note is placed. *)
Lemma place_otherwise n g :
  six_by_sixteen g -> between_lines n = false -> exists g', place n g = Ret g'.
Proof.
  intros [H6 H16] Hb. unfold place.
  destruct (clamped_position (note_position n)) as (pos & ->).
  destruct (Qle_bool 0 (note_string n - 1)) eqn:E0; cbn [andb]; [|eauto].
  destruct (Qlt_bool (note_string n - 1) 6) eqn:E6; [|eauto].
  assert (Qle_bool 1 (note_string n) = true) as H1.
  { apply Qle_bool_iff. apply Qle_bool_iff in E0.
    apply (Qplus_le_l _ _ (- (1))). exact E0. }
  assert (Qlt_bool (note_string n) 7 = true) as H7.
  { unfold Qlt_bool in *. apply negb_true_iff. apply negb_true_iff in E6.
    destruct (Qle_bool 7 _) eqn:E; [|reflexivity].
    apply Qle_bool_iff in E.
    assert (6 <= note_string n - 1)%Q as H.
    { apply (Qplus_le_l _ _ 1). ring_simplify. exact E. }
    apply Qle_bool_iff in H. congruence. }
  unfold between_lines in Hb. rewrite H1, H7 in Hb. cbn [andb] in Hb.
  apply negb_false_iff in Hb.
  unfold at_Q at 1. rewrite whole_minus_1, Hb. unfold at_Z.
  assert (0 <= Qfloor (note_string n - 1) < 6) as Hr.
  { split.
    - change 0 with (Qfloor 0). apply Qfloor_resp_le. now apply Qle_bool_iff.
    - unfold Qlt_bool in E6. apply negb_true_iff in E6.
      destruct (Z_lt_le_dec (Qfloor (note_string n - 1)) 6) as [Hlt|Hge]; [exact Hlt|].
      exfalso. rewrite Zle_Qle in Hge.
      assert (6 <= note_string n - 1)%Q as H
        by (eapply Qle_trans; [exact Hge|apply Qfloor_le]).
      apply Qle_bool_iff in H. congruence. }
  assert ((Qfloor (note_string n - 1) <? 0) = false) as -> by (apply Z.ltb_ge; lia).
  destruct (nth_error g _) as [line|] eqn:El;
    [|apply nth_error_None in El; lia].
  destruct (at_Q line pos) as [[c|]|]; eauto.
Qed.

(** A note on string [k] at position [p] of the grid fills its cell if
    the cell is empty and changes nothing otherwise. *)
Lemma place_on_grid n g k p :
  six_by_sixteen g -> 1 <= k <= 6 -> 0 <= p <= 15 ->
  note_string n = inject_Z k -> note_position n = inject_Z p ->
  exists g',
    place n g = Ret g' /\ six_by_sixteen g' /\
    forall i j,
      cell g' i j =
      if Nat.eqb (Z.to_nat (k - 1)) i && Nat.eqb (Z.to_nat p) j
      then match cell g i j with Some c => Some c | None => Some (shown n) end
      else cell g i j.
Proof.
  intros Hg Hk Hp Es Ep. pose proof Hg as [H6 H16].
  unfold place. rewrite Es, Ep. cbn [Math_max].
  change 0%Q with (inject_Z 0). rewrite Sanitizer.Qle_bool_inject.
  assert ((0 <=? p) = true) as -> by (apply Z.leb_le; lia).
  cbn [Math_min]. change 15%Q with (inject_Z 15). rewrite Sanitizer.Qle_bool_inject.
  assert ((p <=? 15) = true) as -> by (apply Z.leb_le; lia).
  change (inject_Z 0) with 0%Q.
  assert (Qle_bool 0 (inject_Z k - 1) = true) as ->.
  { apply Qle_bool_iff. rewrite minus_1_inject.
    change 0%Q with (inject_Z 0). rewrite <- Zle_Qle. lia. }
  assert (Qlt_bool (inject_Z k - 1) 6 = true) as ->.
  { unfold Qlt_bool. apply negb_true_iff.
    destruct (Qle_bool 6 _) eqn:E; [|reflexivity].
    apply Qle_bool_iff in E. rewrite minus_1_inject in E.
    change 6%Q with (inject_Z 6) in E. rewrite <- Zle_Qle in E. lia. }
  cbn [andb].
  rewrite (Scheduler.at_Q_integer g _ (k - 1) (minus_1_inject k)) by lia.
  destruct (nth_error g (Z.to_nat (k - 1))) as [line|] eqn:El;
    [|apply nth_error_None in El; lia].
  assert (List.length line = 16%nat) as Hline.
  { rewrite Forall_forall in H16. apply H16. eapply nth_error_In; eassumption. }
  rewrite (Scheduler.at_Q_integer line _ p (Qeq_refl _)) by lia.
  destruct (nth_error line (Z.to_nat p)) as [c|] eqn:Ec;
    [|apply nth_error_None in Ec; lia].
  destruct c as [c|].
  - exists g. split; [reflexivity|]. split; [exact Hg|].
    intros i j.
    destruct (Nat.eqb (Z.to_nat (k - 1)) i) eqn:Ei; cbn [andb]; [|reflexivity].
    destruct (Nat.eqb (Z.to_nat p) j) eqn:Ej; [|reflexivity].
    apply Nat.eqb_eq in Ei, Ej. subst i j. unfold cell. now rewrite El, Ec.
  - eexists. split; [reflexivity|]. split; [now apply set_cell_six_by_sixteen|].
    intros i j. rewrite (Qfloor_comp _ _ (minus_1_inject k)), !Qfloor_Z.
    rewrite cell_set_cell.
    + destruct (_ && _) eqn:E; [|reflexivity].
      apply andb_prop in E. destruct E as [Ei Ej].
      apply Nat.eqb_eq in Ei, Ej. subst i j. unfold cell. now rewrite El, Ec.
    + unfold cell. now rewrite El, Ec.
    + lia.
    + intros line' El'. rewrite El in El'. injection El' as <-. lia.
Qed.

Lemma at_cell_on_grid n k0 p0 k p :
  note_string n = inject_Z k0 -> note_position n = inject_Z p0 ->
  at_cell k p n = (k0 =? k) && (p0 =? p).
Proof.
  intros Es Ep. unfold at_cell. now rewrite Es, Ep, !Qeq_bool_inject.
Qed.

Lemma place_all_on_grid ns : forall g,
  six_by_sixteen g -> Forall on_grid ns ->
  exists g',
    place_all ns g = Ret g' /\ six_by_sixteen g' /\
    forall k p, 1 <= k <= 6 -> 0 <= p <= 15 ->
      cell g' (Z.to_nat (k - 1)) (Z.to_nat p) =
      match cell g (Z.to_nat (k - 1)) (Z.to_nat p) with
      | Some c => Some c
      | None => option_map shown (find (at_cell k p) ns)
      end.
Proof.
  induction ns as [|n r IH]; intros g Hg Hall.
  - exists g. split; [reflexivity|]. split; [exact Hg|].
    intros k p _ _. cbn [find option_map]. now destruct (cell g _ _).
  - inversion Hall as [|? ? (k0 & p0 & Hk0 & Hp0 & Es & Ep) Hr]; subst.
    destruct (place_on_grid n g k0 p0 Hg Hk0 Hp0 Es Ep) as (g1 & E1 & Hg1 & Hc1).
    destruct (IH g1 Hg1 Hr) as (g' & E' & Hg' & Hc').
    exists g'. cbn [place_all]. rewrite E1. cbn [bind].
    split; [exact E'|]. split; [exact Hg'|].
    intros k p Hk Hp. rewrite (Hc' k p Hk Hp), Hc1.
    cbn [find]. rewrite (at_cell_on_grid n k0 p0 k p Es Ep).
    destruct (k0 =? k) eqn:Ek.
    + apply Z.eqb_eq in Ek. subst k0. rewrite Nat.eqb_refl. cbn [andb].
      destruct (p0 =? p) eqn:Epp.
      * apply Z.eqb_eq in Epp. subst p0. rewrite Nat.eqb_refl.
        now destruct (cell g _ _).
      * assert (Nat.eqb (Z.to_nat p0) (Z.to_nat p) = false) as ->.
        { apply Nat.eqb_neq. apply Z.eqb_neq in Epp. lia. }
        reflexivity.
    + assert (Nat.eqb (Z.to_nat (k0 - 1)) (Z.to_nat (k - 1)) = false) as ->.
      { apply Nat.eqb_neq. apply Z.eqb_neq in Ek. lia. }
      reflexivity.
Qed.

Lemma place_all_breaks ns : forall g,
  six_by_sixteen g ->
  (existsb between_lines ns = true -> place_all ns g = Throw TypeError) /\
  (existsb between_lines ns = false ->
   exists g', place_all ns g = Ret g' /\ six_by_sixteen g').
Proof.
  induction ns as [|n r IH]; intros g Hg; cbn [existsb place_all].
  - split; [discriminate|]. intros _. now exists g.
  - destruct (between_lines n) eqn:Eb; cbn [orb].
    + split; [|discriminate]. intros _.
      now rewrite (place_between_lines n g Eb).
    + destruct (place_otherwise n g Hg Eb) as (g1 & E1).
      rewrite E1. cbn [bind]. apply IH.
      eapply place_six_by_sixteen; eassumption.
Qed.

End Notes.

(** X12. The drawn measure shows, for notes on the grid, the first note of
    each cell. When every note of the measure is on the grid (string in
    1..6, position in 0..15, both whole: what the sanitizer hands over),
    the drawing does not throw, has six lines of sixteen cells, line
    [k - 1] being string [k], and the cell of string [k] at position [p]
    shows the fret text and the confidence of the first note of the
    measure (in the order of the measure) on that string at that position,
    and is empty when there is none. A later note of the same cell is not
    drawn. *)
Theorem drawn_measure_shows_first_notes {B : Builtins} (m : TabMeasure) :
  Forall on_grid (notes m) ->
  exists g,
    stringLines m = Ret g /\ six_by_sixteen g /\
    forall k p, 1 <= k <= 6 -> 0 <= p <= 15 ->
      cell g (Z.to_nat (k - 1)) (Z.to_nat p) =
      option_map shown (find (at_cell k p) (notes m)).
Proof.
  intros Hall.
  destruct (place_all_on_grid (notes m) blank blank_six_by_sixteen Hall)
    as (g & E & Hg & Hc).
  exists g. split; [exact E|]. split; [exact Hg|].
  intros k p Hk Hp. rewrite (Hc k p Hk Hp). now rewrite cell_blank.
Qed.

(** The theorem at a measure with two notes in one cell: the first is
    drawn. *)
Lemma drawn_measure_shows_first_notes_witness :
  Forall on_grid [Examples.note 1 "3" 0; Examples.note 1 "5" 0] /\
  exists g,
    stringLines (B := Examples.integers)
      {| chords := []; notes := [Examples.note 1 "3" 0; Examples.note 1 "5" 0] |}
    = Ret g /\
    cell g 0 0 = Some {| fret := "3"; confidence := None |}.
Proof.
  assert (Forall on_grid [Examples.note 1 "3" 0; Examples.note 1 "5" 0]) as H.
  { repeat constructor; exists 1, 0; repeat split; lia. }
  split; [exact H|].
  destruct (drawn_measure_shows_first_notes (B := Examples.integers)
              {| chords := []; notes := [Examples.note 1 "3" 0; Examples.note 1 "5" 0] |}
              H) as (g & E & _ & Hc).
  exists g. split; [exact E|].
  exact (Hc 1 0 ltac:(lia) ltac:(lia)).
Defined.

(** X13. When the drawing throws. [renderMeasure] throws a [TypeError] exactly
    when some note of the measure has a string number from 1 up to but
    not including 7 that is not whole (it selects no line, and a cell of
    no line is read); with no such note it draws six lines of sixteen
    cells, whatever the strings and positions are otherwise. *)
Theorem drawing_throws_between_lines {B : Builtins} (m : TabMeasure) :
  (existsb between_lines (notes m) = true -> stringLines m = Throw TypeError) /\
  (existsb between_lines (notes m) = false ->
   exists g, stringLines m = Ret g /\ six_by_sixteen g).
Proof. apply place_all_breaks, blank_six_by_sixteen. Qed.

End Tablature.

(* ================================================================== *)
(** ** From the service to the renderer                                *)
(* ================================================================== *)

Module Handover.
Import Js Types GeminiService TabRenderer Display Props.



Section Note.
Context {B : Builtins}.


End Note.



End Handover.

(* ================================================================== *)
(** ** Labels and pitches                                              *)
(* ================================================================== *)

Module Tunings.
Import Js Types TabRenderer Display Props.

Lemma rev_six {A} (l : list A) (k : Z) :
  List.length l = 6%nat -> 1 <= k <= 6 ->
  nth_error (rev l) (Z.to_nat (k - 1)) = nth_error l (Z.to_nat (6 - k)).
Proof.
  intros Hl Hk.
  destruct l as [|a [|b [|c [|d [|e [|f [|g r]]]]]]]; try discriminate.
  assert (k = 1 \/ k = 2 \/ k = 3 \/ k = 4 \/ k = 5 \/ k = 6) as H by lia.
  destruct H as [->|[->|[->|[->|[->| ->]]]]]; reflexivity.
Qed.

Lemma inherited_cases n : inherited n = true -> In n Object_prototype.
Proof.
  unfold inherited. intros H. apply existsb_exists in H.
  destruct H as (k & Hin & E). apply String.eqb_eq in E. now subst k.
Qed.

Lemma plain_names {B : Builtins} (data : GuitarTabResult) :
  plain_tuning data ->
  exists t,
    currentTuning data = Some t /\ In t TUNINGS /\
    assoc (t_name t) TUNING_FREQS = Some (tuningBaseFreqs data) /\
    List.length (t_notes t) = 6%nat.
Proof.
  intros Hpl. rewrite (Scheduler.tuningBaseFreqs_open_strings data Hpl).
  unfold currentTuning, open_strings.
  destruct (tuning data) as [n|].
  - unfold TUNINGS, TUNING_FREQS. cbn [find t_name assoc].
    rewrite !(String.eqb_sym n).
    destruct (String.eqb "E Standard" n);
      [eexists; split; [reflexivity|]; split; [cbn; tauto|]; now split|].
    destruct (String.eqb "Drop D" n);
      [eexists; split; [reflexivity|]; split; [cbn; tauto|]; now split|].
    destruct (String.eqb "D Standard" n);
      [eexists; split; [reflexivity|]; split; [cbn; tauto|]; now split|].
    destruct (String.eqb "Open G" n);
      [eexists; split; [reflexivity|]; split; [cbn; tauto|]; now split|].
    destruct (String.eqb "DADGAD" n);
      eexists; (split; [reflexivity|]); (split; [cbn; tauto|]); now split.
  - eexists. split; [reflexivity|]. split; [cbn; tauto|]. now split.
Qed.

Lemma inherited_names {B : Builtins} (data : GuitarTabResult) :
  inherited (tuning_name data) = true ->
  currentTuning data = nth_error TUNINGS 0.
Proof.
  unfold tuning_name, currentTuning. intros H.
  destruct (tuning data) as [n|]; [|reflexivity].
  destruct (String.eqb n ""); [discriminate|].
  apply inherited_cases in H. cbn [In Object_prototype] in H.
  repeat (destruct H as [<-|H]; [reflexivity|]). destruct H.
Qed.

(** X15. The labels drawn and the pitches played: where they come from the
    same tuning. Whatever the [tuning] of the data, the tuning whose
    labels are drawn is an entry of [TUNINGS] of six strings, and the
    label of the line of string [k] (line [k - 1] from the top) is the
    name at index [6 - k]. When the tuning name is not one [TUNING_FREQS]
    inherits (absent, empty, unknown or one of the five names), the
    open-string frequencies the scheduler uses are the entry of
    [TUNING_FREQS] under the name of that same tuning, six of them, and
    the scheduler reads the frequency of string [k] at that same index
    [6 - k]. Under an inherited name the two part: the labels drawn are
    those of E Standard, and the scheduler finds no open frequency for
    any string. *)
Theorem labels_match_pitches {B : Builtins} (data : GuitarTabResult) :
  exists t,
    currentTuning data = Some t /\ In t TUNINGS /\
    stringLabels data = Some (rev (t_notes t)) /\
    List.length (t_notes t) = 6%nat /\
    (forall k, 1 <= k <= 6 ->
       nth_error (rev (t_notes t)) (Z.to_nat (k - 1))
       = nth_error (t_notes t) (Z.to_nat (6 - k))) /\
    (inherited (tuning_name data) = false ->
       assoc (t_name t) TUNING_FREQS = Some (tuningBaseFreqs data) /\
       List.length (tuningBaseFreqs data) = 6%nat /\
       forall k, 1 <= k <= 6 ->
         at_Q (tuningBaseFreqs data) (6 - inject_Z k)
         = nth_error (tuningBaseFreqs data) (Z.to_nat (6 - k))) /\
    (inherited (tuning_name data) = true ->
       nth_error TUNINGS 0 = Some t /\
       assoc (tuning_name data) TUNING_FREQS = None /\
       tuningBaseFreqs data = [] /\
       forall s, at_Q (tuningBaseFreqs data) (6 - s) = None).
Proof.
  destruct (inherited (tuning_name data)) eqn:Ei.
  - pose proof (inherited_names data Ei) as Hc.
    eexists. split; [rewrite Hc; reflexivity|].
    split; [cbn; tauto|].
    split; [unfold stringLabels; rewrite Hc; reflexivity|].
    split; [reflexivity|].
    split; [intros k Hk; now apply rev_six|].
    split; [discriminate|]. intros _.
    split; [reflexivity|].
    split; [now apply Scheduler.inherited_not_a_key|].
    rewrite (Scheduler.tuningBaseFreqs_inherited data Ei).
    split; [reflexivity|]. intros s. unfold at_Q, at_Z.
    destruct (Qeq_bool _ _); [|reflexivity].
    destruct (Qfloor (6 - s) <? 0); [reflexivity|].
    now destruct (Z.to_nat (Qfloor (6 - s))).
  - destruct (plain_names data Ei) as (t & Hc & Hin & Hf & Hl).
    exists t. split; [exact Hc|]. split; [exact Hin|].
    split; [unfold stringLabels; now rewrite Hc|]. split; [exact Hl|].
    split; [intros k Hk; now apply rev_six|].
    split; [|discriminate]. intros _.
    split; [exact Hf|].
    split; [rewrite (Scheduler.tuningBaseFreqs_open_strings data Ei);
            apply Scheduler.open_strings_six|].
    intros k Hk. apply Scheduler.at_Q_integer; [|lia].
    replace (6 - k) with (6 + - k) by lia.
    rewrite inject_Z_plus, inject_Z_opp. reflexivity.
Qed.

End Tunings.

(* ================================================================== *)
(** ** What the service reports                                        *)
(* ================================================================== *)

Module Reporting.
Import Js Catch Props.

Lemma prefix_app t b : prefix t (t ++ b) = true.
Proof.
  induction t as [|c t IH]; cbn [prefix String.append]; [now destruct b|].
  now destruct (ascii_dec c c).
Qed.

Lemma includes_app a t b : includes (a ++ t ++ b) t = true.
Proof.
  induction a as [|c a IH]; cbn [String.append].
  - destruct (t ++ b)%string eqn:E; cbn [includes]; rewrite <- E;
      now rewrite prefix_app.
  - cbn [includes]. rewrite IH. apply orb_true_r.
Qed.

Lemma toLowerCase_app a b :
  toLowerCase (a ++ b) = (toLowerCase a ++ toLowerCase b)%string.
Proof.
  induction a as [|c a IH]; cbn [String.append toLowerCase]; [reflexivity|].
  now rewrite IH.
Qed.

Lemma code_of_cases msg :
  In (code_of msg) [QUOTA; AUTH; NETWORK; UNKNOWN].
Proof.
  unfold code_of.
  repeat match goal with
         | |- context [if ?c then _ else _] => destruct c
         end; cbn; tauto.
Qed.

(** X16. The codes the handler reports. An instance of [TranscriptionError]
    is thrown on as it is, so the code given inside (no sections, parse
    error, ...) is the one reported. For any other error the code is one
    of QUOTA, AUTH, NETWORK and UNKNOWN, read off the message without
    regard to letter case, and the quota test comes first: a message that
    holds "429" or "quota" anywhere, in any letter case, is reported as
    QUOTA whatever else it holds (so is a message that merely has the
    digits 429 in a larger number). A [RangeError] is never thrown on, and
    a [TypeError] only when the error is [null] or [undefined] or its
    message is neither missing nor a text. *)
Theorem catch_block_codes :
  (forall code, catch_block (Transcription code) = TranscriptionError code) /\
  (forall error code,
     catch_block (Other error) = TranscriptionError code ->
     In code [QUOTA; AUTH; NETWORK; UNKNOWN]) /\
  (forall a w b props,
     toLowerCase w = "429"%string \/ toLowerCase w = "quota"%string ->
     catch_block (Other (VObj (("message", VStr (a ++ w ++ b)) :: props)))
     = TranscriptionError QUOTA) /\
  (forall error, catch_block (Other error) <> RangeError) /\
  (forall error,
     catch_block (Other error) = TypeError ->
     error = VUndefined \/ error = VNull \/
     (field "message" error <> VUndefined /\ field "message" error <> VNull /\
      forall t, field "message" error <> VStr t)).
Proof.
  split; [reflexivity|]. split; [|split; [|split]].
  - intros error code. unfold catch_block.
    destruct error; cbn [Get]; try discriminate;
      try (intros [= <-]; apply code_of_cases);
      match goal with
      | |- context [lookup ?k ?ps] => destruct (lookup k ps)
      end; try discriminate; intros [= <-]; apply code_of_cases.
  - intros a w b props Hw. unfold catch_block. cbn [Get lookup].
    rewrite String.eqb_refl. rewrite !toLowerCase_app.
    unfold code_of.
    destruct Hw as [-> | ->]; rewrite includes_app;
      [reflexivity|now rewrite orb_true_r].
  - intros error. unfold catch_block.
    destruct error; cbn [Get]; try discriminate;
      match goal with
      | |- context [lookup ?k ?ps] => destruct (lookup k ps)
      end; discriminate.
  - intros error. unfold catch_block.
    destruct error; cbn [Get field]; auto; try discriminate;
      match goal with
      | |- context [lookup ?k ?ps] => destruct (lookup k ps)
      end; try discriminate; intros _; right; right; repeat split; discriminate.
Qed.

Lemma sanitize_throws {B : Builtins} raw e :
  GeminiService.sanitize raw = Throw e ->
  e = TypeError \/ e = TranscriptionError INVALID_STRUCTURE.
Proof.
  unfold GeminiService.sanitize.
  destruct (Get raw "sections") as [secs|e0] eqn:EG; cbn [bind].
  - destruct (negb (truthy secs) || negb (isArray secs));
      [intros [= <-]; now right|].
    destruct secs as [| | | | |l ps|]; try (intros [= <-]; now left).
    destruct (has "forEach" ps); [intros [= <-]; now left|].
    intros H. left. revert H.
    apply Sanitizer.only_bind;
      [apply Sanitizer.only_mapM, Sanitizer.only_sanitize_section
      |intros; apply Sanitizer.only_Set].
  - destruct raw; cbn [Get] in EG; try discriminate;
      injection EG as <-; intros [= <-]; now left.
Qed.

(** X17. Whatever goes wrong after the reply is parsed reaches the caller as a
    [TranscriptionError]. When the sanitizing pass fails, the service
    throws a [TranscriptionError] whose code is INVALID_STRUCTURE, QUOTA,
    AUTH, NETWORK or UNKNOWN, never an exception of the language as such;
    the code is INVALID_STRUCTURE exactly when the reply is not [null]
    and has no sequence of sections; any other failure (a [null] reply, a
    malformed section or measure) is reported under a code read off the
    engine's message. *)
Theorem service_reports_TranscriptionError {B : Builtins}
    (message_of : exn -> string) (parsed : value) (e : exn) :
  sanitized_or_reported message_of parsed = Throw e ->
  exists code,
    e = TranscriptionError code /\
    In code [INVALID_STRUCTURE; QUOTA; AUTH; NETWORK; UNKNOWN] /\
    (code = INVALID_STRUCTURE <->
     parsed <> VNull /\ parsed <> VUndefined /\
     isArray (field "sections" parsed) = false).
Proof.
  unfold sanitized_or_reported.
  destruct (GeminiService.sanitize parsed) as [v|e0] eqn:E; [discriminate|].
  intros [= <-].
  destruct (sanitize_throws _ _ E) as [-> | ->].
  - cbn [as_thrown catch_block Get lookup]. rewrite String.eqb_refl.
    pose proof (code_of_cases (toLowerCase (message_of TypeError))) as Hc.
    exists (code_of (toLowerCase (message_of TypeError))).
    split; [reflexivity|]. split; [now right|].
    split.
    + intros Hi. rewrite Hi in Hc. cbn in Hc.
      destruct Hc as [Hc|[Hc|[Hc|[Hc|[]]]]]; discriminate.
    + intros H. apply Sanitizer.sanitize_INVALID_STRUCTURE in H. congruence.
  - exists INVALID_STRUCTURE. split; [reflexivity|]. split; [now left|].
    split; [intros _|reflexivity].
    now apply Sanitizer.sanitize_INVALID_STRUCTURE.
Qed.

(** The theorem at a [null] reply, in an engine whose message for it
    names no quota, permission or network. *)
Lemma service_reports_TranscriptionError_witness :
  sanitized_or_reported (B := Examples.integers)
    (fun _ => "Cannot read properties of null"%string) VNull
  = Throw (TranscriptionError UNKNOWN) /\
  exists code,
    TranscriptionError UNKNOWN = TranscriptionError code /\
    In code [INVALID_STRUCTURE; QUOTA; AUTH; NETWORK; UNKNOWN].
Proof.
  split; [reflexivity|].
  destruct (service_reports_TranscriptionError (B := Examples.integers)
              (fun _ => "Cannot read properties of null"%string) VNull
              (TranscriptionError UNKNOWN) eq_refl) as (code & H1 & H2 & _).
  now exists code.
Defined.

End Reporting.

(* ================================================================== *)
(** ** The contract of the sanitizing pass                             *)
(* ================================================================== *)

Module Contract.
Import Js GeminiService Props.

(** C3 (amended). [sanitize] fails with [INVALID_STRUCTURE] exactly when
    the input is not [null] and its [sections] is missing or not a
    sequence. Whatever makes it fail, the failure goes through the
    handler of the service and that of the application: the application
    goes to its error state, the renderer, from which alone playback is
    scheduled, is not mounted, and the code shown is INVALID_STRUCTURE
    for that failure and one of QUOTA, AUTH, NETWORK and UNKNOWN, read off
    the engine's message, for any other. On every input of the declared
    container shapes (sections and measures are objects, [measures],
    [notes] and [chords] are sequences or falsy, the position and fret of
    a note are not objects) the pass returns a structurally complete
    result, whatever the notes hold otherwise, and the renderer is mounted
    with it. A section or measure that is not an object, or a [measures]
    or [notes] that is truthy and not a sequence, anywhere in the input,
    makes the whole pass throw a [TypeError]. *)
Theorem sanitize_contract {B : Builtins} (message_of : exn -> string)
    (raw : value) :
  (sanitize raw = Throw (TranscriptionError INVALID_STRUCTURE) <->
   raw <> VNull /\ raw <> VUndefined /\ isArray (field "sections" raw) = false) /\
  (forall a e, sanitize raw = Throw e ->
     App.state (App.processAudio message_of raw a) = App.ERROR /\
     App.rendered (App.processAudio message_of raw a) = None /\
     exists code,
       App.errorDetails (App.processAudio message_of raw a) = Some code /\
       In code [INVALID_STRUCTURE; QUOTA; AUTH; NETWORK; UNKNOWN] /\
       (code = INVALID_STRUCTURE <-> e = TranscriptionError INVALID_STRUCTURE)) /\
  (well_shaped raw = true ->
     exists out, sanitize raw = Ret out /\ complete out = true /\
                 App.rendered (App.processAudio message_of raw App.start)
                 = Some out) /\
  (forall secs ps,
     field "sections" raw = VArr secs ps -> existsb bad_section secs = true ->
     sanitize raw = Throw TypeError) /\
  (forall secs ps sec m,
     field "sections" raw = VArr secs ps -> In sec secs ->
     (is_object sec = false \/
      bad_list (field "measures" sec) = true \/
      (In m (elements (field "measures" sec)) /\
       (is_object m = false \/ bad_list (field "notes" m) = true))) ->
     sanitize raw = Throw TypeError).
Proof.
  split; [apply Sanitizer.sanitize_INVALID_STRUCTURE|].
  split; [|split; [|split]].
  - intros a e H.
    unfold App.processAudio, App.rendered, Catch.sanitized_or_reported.
    rewrite H. cbn [App.state App.errorDetails].
    split; [reflexivity|]. split; [reflexivity|].
    destruct (Reporting.sanitize_throws _ _ H) as [-> | ->].
    + cbn [Catch.as_thrown Catch.catch_block Get lookup].
      rewrite String.eqb_refl. cbn [App.code_shown].
      pose proof (Reporting.code_of_cases
                    (Catch.toLowerCase (message_of TypeError))) as Hc.
      eexists. split; [reflexivity|]. split; [now right|].
      split; [|discriminate].
      intros Hi. rewrite Hi in Hc. cbn in Hc.
      destruct Hc as [Hc|[Hc|[Hc|[Hc|[]]]]]; discriminate.
    + cbn [Catch.as_thrown Catch.catch_block App.code_shown].
      eexists. split; [reflexivity|]. split; [now left|]. now split.
  - intros H. destruct (Sanitizer.sanitize_well_shaped raw H) as (out & Hs & Hc).
    exists out. split; [exact Hs|]. split; [exact Hc|].
    unfold App.processAudio, App.rendered, Catch.sanitized_or_reported.
    now rewrite Hs.
  - intros secs ps. apply Sanitizer.sanitize_bad.
  - intros secs ps sec m E Hin Hbad.
    apply (Sanitizer.sanitize_bad secs ps raw E).
    apply existsb_exists. exists sec. split; [exact Hin|].
    unfold bad_section.
    destruct Hbad as [Ho|[Hl|(Hm & Hb)]].
    + now rewrite Ho.
    + rewrite Hl. now destruct (is_object sec).
    + replace (existsb bad_measure (elements (field "measures" sec))) with true;
        [now rewrite !orb_true_r|].
      symmetry. apply existsb_exists. exists m. split; [exact Hm|].
      unfold bad_measure. destruct Hb as [Ho|Hl].
      * now rewrite Ho.
      * rewrite Hl. now destruct (is_object m).
Qed.

End Contract.

(* ================================================================== *)
(** ** Sessions                                                        *)
(* ================================================================== *)

Module Sessions.
Import Js Types TabRenderer Props.

Section Frames.
Context {B : Builtins} (data : GuitarTabResult).

Lemma frame_step id now s :
  Inv s ->
  step data (AnimationFrame id now) s = s \/
  step data (AnimationFrame id now) s =
  set_frames (animationFrameRef s) (remove_frame id (frames s)) (lastFrame s) s.
Proof.
  intros I. cbn [step].
  destruct (find _ (frames s)) as [[id' r]|] eqn:E; [|now left].
  right. apply find_some in E. destruct E as [Hin _].
  destruct (inv_frames s I _ _ Hin) as (_ & _ & Hr).
  now apply Controller.updatePlaybackProgress_stale.
Qed.

Lemma frames_same_playback ticks : forall s,
  Inv s ->
  same_playback s (run data (frame_events ticks) s) /\
  (forall f, In f (frames (run data (frame_events ticks) s)) -> In f (frames s)).
Proof.
  unfold run, frame_events.
  induction ticks as [|[id now] ticks IH]; intros s I; cbn [map fold_left fst snd].
  - split; [now repeat split|auto].
  - pose proof (Controller.Inv_step data (AnimationFrame id now) s I) as I'.
    destruct (IH _ I') as [Hs Hf].
    destruct (frame_step id now s I) as [E|E]; rewrite E in *.
    + now split.
    + split; [exact Hs|].
      intros f Hin. apply Hf in Hin. cbn in Hin.
      unfold remove_frame in Hin. now apply filter_In in Hin.
Qed.

End Frames.

(** X18. Frame callbacks change nothing that plays or shows. In whatever state
    the component has reached, however many queued frame callbacks the
    page then runs and whatever the clock reads, both flags, every
    oscillator node and handle, the recording and the cursor are as they
    were, and no callback is added to the queue. So a synthesized session
    is not ended when the piece is over: the flag stays set until a button
    is pressed or the component unmounts. *)
Theorem frames_change_nothing {B : Builtins} (data : GuitarTabResult)
    (hasAudio : bool) (evs : list Event) (ticks : list (nat * Q)) :
  same_playback (run data evs (mounted hasAudio))
    (run data (frame_events ticks) (run data evs (mounted hasAudio))) /\
  (forall f,
     In f (frames (run data (frame_events ticks) (run data evs (mounted hasAudio)))) ->
     In f (frames (run data evs (mounted hasAudio)))).
Proof.
  apply frames_same_playback. apply Controller.Inv_run, Controller.Inv_mounted.
Qed.

(** X19. Pausing keeps the place. With the synthesizer off and the recording
    paused, pressing Original, letting the recording play on to time [t]
    and pressing Original again leaves the component as it was but for
    the recording's position, which is [t]; pressing twice with no
    progress in between changes nothing at all. (Stopping, by contrast,
    rewinds to 0.) *)
Theorem pause_keeps_the_place {B : Builtins} (data : GuitarTabResult)
    (s : State) (a : Audio) (t : Q) :
  isPlayingSynth s = false -> isPlayingOriginal s = false ->
  audioRef s = Some a -> playing a = false ->
  run data [ClickOriginal; AudioProgress t; ClickOriginal] s
    = set_audio (Some {| playing := false; currentTime := t |}) s /\
  run data [ClickOriginal; ClickOriginal] s = s.
Proof.
  intros Hy Ho Ha Hp.
  destruct s as [o1 y m am ap asx au cx hs ts fr st ns cs fs lf tm w u].
  cbn in Hy, Ho, Ha. subst o1 y au. destruct a as [pl ct]. cbn in Hp. subst pl.
  split; reflexivity.
Qed.

(** The theorem at the freshly mounted component with a recording. *)
Lemma pause_keeps_the_place_witness :
  isPlayingSynth (mounted true) = false /\
  isPlayingOriginal (mounted true) = false /\
  audioRef (mounted true) = Some {| playing := false; currentTime := 0 |} /\
  currentTime_of
    (run (B := Examples.integers) Examples.two_sections
       [ClickOriginal; AudioProgress 1.5; ClickOriginal] (mounted true))
  = Some 1.5%Q.
Proof.
  split; [reflexivity|]. split; [reflexivity|]. split; [reflexivity|].
  rewrite (proj1 (pause_keeps_the_place (B := Examples.integers)
                    Examples.two_sections (mounted true)
                    {| playing := false; currentTime := 0 |} 1.5
                    eq_refl eq_refl eq_refl eq_refl)).
  reflexivity.
Defined.

(** X20. A start that fails can still be stopped. When Synth is pressed in a
    render in which nothing plays and the scheduler throws part way (a
    note names a string that has no open frequency, or a start time is
    negative), the exception leaves the handler and no frame callback is
    queued, but the flag is already set and the nodes started before the
    exception are on the page, each held by a handle; [stopAllPlayback]
    afterwards stops every one of them and leaves the controller Idle. *)
Theorem failed_start_can_be_stopped {B : Builtins} (data : GuitarTabResult)
    (r : Render) (now : Q) (s : State) (os : list Oscillator) (e : exn) :
  r_isPlayingOriginal r = false -> r_isPlayingSynth r = false ->
  schedule_sections data (r_metronomeEnabled r) (contexts s) (now + 0.2)
    (sections data) = (os, Throw e) ->
  let s' := playSynth data r now s in
  uncaught s' = uncaught s ++ [e] /\
  isPlayingSynth s' = true /\
  frames s' = frames s /\
  nodes s' = nodes s ++ os /\
  synthOscillators s' =
    synthOscillators s ++ seq (List.length (nodes s)) (List.length os) /\
  Idle (stopAllPlayback s') /\
  forall i o,
    nth_error os i = Some o ->
    nth_error (nodes (stopAllPlayback s')) (List.length (nodes s) + i)
    = Some (stop_now o).
Proof.
  intros Ho Hy E. cbv zeta.
  assert (playSynth data r now s =
          log [] [e]
            (push_nodes os
               (set_synthStartTimeRef (now + 0.2)
                  (setIsPlayingSynth true (new_AudioContext s))))) as ->.
  { unfold playSynth. rewrite Ho, Hy.
    cbn [new_AudioContext setIsPlayingSynth set_flags set_synthStartTimeRef contexts].
    now rewrite E. }
  split; [reflexivity|]. split; [reflexivity|]. split; [reflexivity|].
  split; [reflexivity|]. split; [reflexivity|].
  rewrite Controller.stopAllPlayback_eq. split; [now split|].
  intros i o Hi. cbn [nodes log push_nodes set_oscillators synthOscillators
                      set_synthStartTimeRef setIsPlayingSynth set_flags
                      new_AudioContext].
  rewrite Controller.nth_error_stop_handles.
  rewrite nth_error_app2 by lia.
  replace (List.length (nodes s) + i - List.length (nodes s))%nat with i by lia.
  rewrite Hi. cbn [option_map].
  rewrite Controller.In_existsb_eqb; [reflexivity|].
  apply in_or_app. right. apply in_seq.
  assert (i < List.length os)%nat by (apply nth_error_Some; congruence). lia.
Qed.

(** The theorem at a measure whose second note names a seventh string:
    the first tone is started, the second throws, and stopping silences
    the first. *)
Lemma failed_start_can_be_stopped_witness :
  exists o,
    schedule_sections (B := Examples.integers) Examples.seventh_string false 0
      (0 + 0.2) (sections Examples.seventh_string) = ([o], Throw TypeError) /\
    uncaught (playSynth (B := Examples.integers) Examples.seventh_string
                (render_of (mounted false)) 0 (mounted false)) = [TypeError] /\
    nth_error
      (nodes (stopAllPlayback
                (playSynth (B := Examples.integers) Examples.seventh_string
                   (render_of (mounted false)) 0 (mounted false)))) 0
    = Some (stop_now o).
Proof.
  eexists.
  assert (schedule_sections (B := Examples.integers) Examples.seventh_string false 0
            (0 + 0.2) (sections Examples.seventh_string)
          = ([_], Throw TypeError)) as E by (vm_compute; reflexivity).
  split; [exact E|].
  destruct (failed_start_can_be_stopped (B := Examples.integers)
              Examples.seventh_string (render_of (mounted false)) 0 (mounted false)
              _ TypeError eq_refl eq_refl E) as (Hu & _ & _ & _ & _ & _ & Hn).
  split; [exact Hu|]. exact (Hn 0%nat _ eq_refl).
Defined.

End Sessions.

(* ================================================================== *)
(** ** Texts shown and file names                                      *)
(* ================================================================== *)

Module Texts.
Import Js Types Display Recorder Props.

Lemma split_colon_digits (d : Decimal.uint) (r : string) :
  split_colon (NilEmpty.string_of_uint d ++ String ":" r)
  = Some (NilEmpty.string_of_uint d, r).
Proof.
  induction d; cbn [NilEmpty.string_of_uint String.append split_colon];
    try (rewrite IHd); reflexivity.
Qed.

Lemma seconds_field (k : nat) :
  (k < 60)%nat ->
  exists u, NilEmpty.uint_of_string (padStart 2 (decimal k)) = Some u /\
            Nat.of_uint u = k /\
            String.length (padStart 2 (decimal k)) = 2%nat.
Proof.
  intros Hk.
  assert (forallb seconds_field_ok (seq 0 60) = true) as Hall
    by (vm_compute; reflexivity).
  rewrite forallb_forall in Hall.
  assert (In k (seq 0 60)) as Hin by (apply in_seq; lia).
  specialize (Hall k Hin). unfold seconds_field_ok in Hall.
  destruct (NilEmpty.uint_of_string _) as [u|]; [|discriminate].
  apply andb_prop in Hall. destruct Hall as [H1 H2].
  apply Nat.eqb_eq in H1, H2. now exists u.
Qed.

(** X21. The timer text can be read back. [formatTime] writes the minutes
    without padding, a colon, and the seconds as exactly two digits; the
    seconds it stands for are the seconds given, so two different
    durations are never shown alike. *)
Theorem formatTime_reads_back (seconds : nat) :
  read_clock (formatTime seconds) = Some seconds /\
  exists ss,
    split_colon (formatTime seconds) = Some (decimal (seconds / 60), ss) /\
    String.length ss = 2%nat /\
    forall other, formatTime other = formatTime seconds -> other = seconds.
Proof.
  assert (forall n, read_clock (formatTime n) = Some n) as Hread.
  { intros n. unfold read_clock, formatTime. cbv zeta. cbn [String.append].
    change (decimal (n / 60))
      with (NilEmpty.string_of_uint (Nat.to_uint (n / 60))).
    rewrite split_colon_digits, NilEmpty.usu.
    destruct (seconds_field (n mod 60)) as (u & -> & Hu & _).
    { apply Nat.mod_upper_bound. lia. }
    rewrite Hu, DecimalNat.Unsigned.of_to. f_equal.
    symmetry. apply Nat.div_mod_eq. }
  split; [apply Hread|].
  exists (padStart 2 (decimal (seconds mod 60))).
  split; [unfold formatTime, decimal; cbv zeta; apply split_colon_digits|].
  split.
  - destruct (seconds_field (seconds mod 60)) as (u & _ & _ & Hl); [|exact Hl].
    apply Nat.mod_upper_bound. lia.
  - intros other E. pose proof (Hread other) as H. rewrite E, Hread in H.
    now injection H.
Qed.





End Texts.
